(** * Maze_Solver/main.cpp: union-find, maze generation and the four searches

    A shallow embedding of [src/Maze_Solver/main.cpp].

    The C++ [int] is modelled by [Z].  Signed overflow is undefined in C++
    and is not written out: on a [W] x [H] maze with [W*H + W + H <= INT_MAX]
    every index and every sum the program computes stays between [-1] and
    [INT_MAX], and the theorems about code that computes [W*H] or the id of
    a cell assume that [W*H] fits an [int].  A [vector<T>] is a [list T]
    read and written at a [Z] index,
    an [unordered_set<int>] is a [gset Z], the [priority_queue] is a list
    kept in ascending order.

    The recursion of [findRoot] and the [while] loops take a fuel argument
    and return [None] when it runs out; the theorems give the fuel that is
    enough.  [std::shuffle] with [std::mt19937] is library code and is a
    parameter of [generateRandom].

    Terminal handling, the colours and the calls of [drawFrame] inside the
    search loops are left out: both branches of every [if (skipAnimation)]
    run the same search loop and differ in what they draw only.  Of
    [drawFinalPath] the status line and the loop that marks the path are
    kept.  The canvas, the grid a frame shows, the wait for the terminal
    and the speed prompt are modelled on their own, after the searches; the
    status lines of [drawFrame], the legend and the menus of [main] are left
    out. *)

From stdpp Require Import base numbers list gmap sets strings.
From Stdlib Require Import ZArith Lia Ascii.

Local Open Scope Z_scope.

(** ** Vectors indexed by [int] *)

(** [v[i]]; reading outside the vector is undefined in C++ and yields the
    default here. *)
Definition vget {A} (d : A) (v : list A) (i : Z) : A :=
  if 0 <=? i then default d (v !! Z.to_nat i) else d.

(** [v[i] = x]; writing outside the vector is undefined in C++ and leaves the
    list unchanged here. *)
Definition vset {A} (v : list A) (i : Z) (x : A) : list A :=
  if 0 <=? i then <[Z.to_nat i := x]> v else v.

Definition zlen {A} (v : list A) : Z := Z.of_nat (length v).

(** The value of a C++ [bool] used as an [int]. *)
Definition b2z (b : bool) : Z := if b then 1 else 0.

Definition INT_MAX : Z := 2147483647.

(** ** Disjoint Set (Union-Find) *)

Record DisjointSet := mkDisjointSet { parent : list Z; sz : list Z }.

(** The member functions run in a state monad over the structure that can
    also fail (fuel exhausted). *)
Definition DS (A : Type) : Type := DisjointSet -> option (A * DisjointSet).

Definition ds_ret {A} (a : A) : DS A := fun ds => Some (a, ds).

Definition ds_bind {A B} (c : DS A) (k : A -> DS B) : DS B :=
  fun ds => match c ds with
            | Some (a, ds') => k a ds'
            | None => None
            end.

Notation "'let*' x := c 'in' k" := (ds_bind c (fun x => k))
  (at level 10, x name, c at level 100, k at level 200, only parsing).

Definition set_parent (x r : Z) : DS unit :=
  fun ds => Some (tt, mkDisjointSet (vset (parent ds) x r) (sz ds)).

Definition set_sz (x s : Z) : DS unit :=
  fun ds => Some (tt, mkDisjointSet (parent ds) (vset (sz ds) x s)).

(** [DisjointSet(int n)]: [iota] over [parent], [sz.assign(n, 1)], for
    [0 <= n].  [generateRandom] calls it with [mazeW * mazeH], which is not
    negative once the constructor of [Maze] has succeeded and the product
    fits an [int]. *)
Definition DisjointSet_new (n : Z) : DisjointSet :=
  mkDisjointSet (seqZ 0 n) (replicate (Z.to_nat n) 1).

(** [return parent[x] == x ? x : (parent[x] = findRoot(parent[x]));] *)
Fixpoint findRoot (fuel : nat) (x : Z) : DS Z :=
  match fuel with
  | O => fun _ => None
  | S fuel' => fun ds =>
      if vget 0 (parent ds) x =? x then ds_ret x ds
      else (let* r := findRoot fuel' (vget 0 (parent ds) x) in
            let* _ := set_parent x r in
            ds_ret r) ds
  end.

(** [void unite(int a, int b)] *)
Definition unite (fuel : nat) (a b : Z) : DS unit :=
  let* a := findRoot fuel a in
  let* b := findRoot fuel b in
  if a =? b then ds_ret tt
  else fun ds =>
    let '(a, b) := if vget 0 (sz ds) a <? vget 0 (sz ds) b then (b, a) else (a, b) in
    (let* _ := set_parent b a in
     set_sz a (vget 0 (sz ds) a + vget 0 (sz ds) b)) ds.

(** ** Maze structure and random generation *)

Record Maze := mkMaze {
  mazeW : Z;
  mazeH : Z;
  hasRightWall : list (list bool);
  hasDownWall : list (list bool)
}.

(** [Maze(int w, int h)]: [assign(mazeW, vector<bool>(mazeH, true))] for
    both grids; [None] when no maze comes out of it.  The two lengths are
    converted to [size_t], here of 64 bits.

    A negative [w] is a length no vector can have, and [assign] throws
    [std::length_error].

    A negative [h] is the length [2^64 + h] of the row.  The constructor of
    [vector<bool>] in libstdc++ does not check it: it asks for
    [(2^64 + h + 63) mod 2^64 / 64] words of 64 bits.  For [h <= -64] these
    are more than can be had and the allocation throws [std::bad_alloc].
    For [-64 < h] they are no words at all, and the row is built without
    storage.  With [w = 0] no copy of it is made and the maze is built,
    with empty grids.  With [0 < w] copying the row reads and writes
    outside its storage, which is undefined, and no maze is taken to be
    built. *)
Definition Maze_new (w h : Z) : option Maze :=
  if w <? 0 then None
  else if (h <? 0) && ((h <=? -64) || (0 <? w)) then None
  else Some (mkMaze w h
               (replicate (Z.to_nat w) (replicate (Z.to_nat h) true))
               (replicate (Z.to_nat w) (replicate (Z.to_nat h) true))).

(** [grid[x][y]] *)
Definition wallAt (grid : list (list bool)) (x y : Z) : bool :=
  vget true (vget [] grid x) y.

(** [grid[x][y] = b] *)
Definition setWall (grid : list (list bool)) (x y : Z) (b : bool) : list (list bool) :=
  vset grid x (vset (vget [] grid x) y b).

Record Edge := mkEdge { ex : Z; ey : Z; edir : Z }.

(** The two [push_back]s of one iteration of the inner [for]. *)
Definition cellEdges (W H x y : Z) : list Edge :=
  (if x + 1 <? W then [mkEdge x y 1] else []) ++
  (if y + 1 <? H then [mkEdge x y 2] else []).

(** [for y in 0..mazeH) for x in 0..mazeW) ...] *)
Definition allEdges (W H : Z) : list Edge :=
  y ← seqZ 0 H; x ← seqZ 0 W; cellEdges W H x y.

(** [if (e.dir == 1) hasRightWall[e.x][e.y] = false;
    else hasDownWall[e.x][e.y] = false;] *)
Definition removeWall (m : Maze) (e : Edge) : Maze :=
  if edir e =? 1
  then mkMaze (mazeW m) (mazeH m)
         (setWall (hasRightWall m) (ex e) (ey e) false) (hasDownWall m)
  else mkMaze (mazeW m) (mazeH m)
         (hasRightWall m) (setWall (hasDownWall m) (ex e) (ey e) false).

(** The body of [for (auto &e : edges)].  The two operands of [!=] are
    evaluated left to right. *)
Definition processEdge (fuel : nat) (st : Maze * DisjointSet) (e : Edge)
  : option (Maze * DisjointSet) :=
  let '(m, ds) := st in
  let a := ey e * mazeW m + ex e in
  let b := if edir e =? 1 then a + 1 else a + mazeW m in
  match (let* ra := findRoot fuel a in
         let* rb := findRoot fuel b in
         ds_ret (negb (ra =? rb))) ds with
  | None => None
  | Some (true, ds1) =>
      match unite fuel a b ds1 with
      | Some (_, ds2) => Some (removeWall m e, ds2)
      | None => None
      end
  | Some (false, ds1) => Some (m, ds1)
  end.

Fixpoint processEdges (fuel : nat) (st : Maze * DisjointSet) (edges : list Edge)
  : option (Maze * DisjointSet) :=
  match edges with
  | [] => Some st
  | e :: rest =>
      match processEdge fuel st e with
      | Some st' => processEdges fuel st' rest
      | None => None
      end
  end.

Section Generation.

(** [std::shuffle] driven by [std::mt19937] is library code: it is taken as
    a function of the seed and the vector. *)
Variable shuffle : Z -> list Edge -> list Edge.

(** [generateRandom()]; [now] is what [time(NULL)] returns, the cast
    [(unsigned)] keeps its low 32 bits.  [fuel] bounds the recursion depth of
    [findRoot]. *)
Definition generateRandom (fuel : nat) (now : Z) (m : Maze) : option Maze :=
  let edges := shuffle (now mod 2 ^ 32) (allEdges (mazeW m) (mazeH m)) in
  let ds := DisjointSet_new (mazeW m * mazeH m) in
  fst <$> processEdges fuel (m, ds) edges.

(** [Maze mazeObj(w, h); mazeObj.generateRandom();] as in [main]. *)
Definition generate (fuel : nat) (now : Z) (w h : Z) : option Maze :=
  m ← Maze_new w h; generateRandom fuel now m.

End Generation.

Definition canMove (m : Maze) (x y dir : Z) : bool :=
  if dir =? 0 then
    if y =? 0 then false else negb (wallAt (hasDownWall m) x (y - 1))
  else if dir =? 1 then
    if x + 1 >=? mazeW m then false else negb (wallAt (hasRightWall m) x y)
  else if dir =? 2 then
    if y + 1 >=? mazeH m then false else negb (wallAt (hasDownWall m) x y)
  else if dir =? 3 then
    if x =? 0 then false else negb (wallAt (hasRightWall m) (x - 1) y)
  else false.

(** ** Helper: cellId <-> (x,y) *)

Record Point := mkPoint { px : Z; py : Z }.

(** [y * W + x], the value the [int] of the code has as long as it fits:
    for the cells of a [W] x [H] grid, when [W*H <= INT_MAX]. *)
Definition cellId (x y W : Z) : Z := y * W + x.

(** C++ [%] and [/] truncate towards zero: [Z.rem] and [Z.quot]. *)
Definition cellPt (idx W : Z) : Point := mkPoint (Z.rem idx W) (Z.quot idx W).

(** The neighbour every search loop computes:
    [nx = pu.x + (dir==1) - (dir==3)], [ny = pu.y + (dir==2) - (dir==0)]. *)
Definition nextX (x dir : Z) : Z := x + b2z (dir =? 1) - b2z (dir =? 3).
Definition nextY (y dir : Z) : Z := y + b2z (dir =? 2) - b2z (dir =? 0).

(** The test [nx<0||nx>=W||ny<0||ny>=H] of the search loops, negated. *)
Definition inBounds (W H nx ny : Z) : bool :=
  negb ((nx <? 0) || (nx >=? W) || (ny <? 0) || (ny >=? H)).

(** The direction leading back: up(0) <-> down(2), right(1) <-> left(3). *)
Definition opposite (dir : Z) : Z := (dir + 2) mod 4.

(** [for (int dir = 0; dir < 4; dir++)] *)
Definition directions : list Z := [0; 1; 2; 3].

(** The cell every run starts from, and [cellId(W-1, H-1, W)]. *)
Definition startCell : Z := 0.
Definition goalCell (mz : Maze) : Z := cellId (mazeW mz - 1) (mazeH mz - 1) (mazeW mz).

(** ** Draw final path *)

(** What [drawFinalPath] shows: its status line and the cells it marks '*'. *)
Record FinalFrame := mkFinalFrame { banner : string; marked : list Z }.

(** [for (int v = endCell; v != -1; v = parentOf[v])]: the cells the loop
    marks, in the order it marks them. *)
Fixpoint markPath (fuel : nat) (parentOf : list Z) (v : Z) : option (list Z) :=
  match fuel with
  | O => None
  | S fuel' =>
      if v =? -1 then Some []
      else cons v <$> markPath fuel' parentOf (vget 0 parentOf v)
  end.

Definition drawFinalPath (fuel : nat) (parentOf : list Z) (endCell : Z)
  : option FinalFrame :=
  mkFinalFrame "FINAL (exit found) - displaying path" <$> markPath fuel parentOf endCell.

(** The marked cells read from the start: the loop walks from [endCell]
    back along [parentOf]. *)
Definition finalPath (f : FinalFrame) : list Z := reverse (marked f).

(** How a search loop was left: by its [break] (the goal cell came up) or
    because the [while] condition found the frontier empty. *)
Inductive LoopExit := GoalReached | FrontierEmpty.

(** ** DFS and BFS *)

(** The locals of [runDFS] and [runBFS]; [frontier] is [stk] (top first) or
    [que] (front first). *)
Record Search := mkSearch {
  parentOf : list Z;
  visitedSet : gset Z;
  frontier : list Z
}.

(** The inner [for] of [runDFS]: the first direction that leads to an
    unvisited cell sets [nextCell] and breaks; [-1] if there is none. *)
Fixpoint dfsScan (mz : Maze) (visited : gset Z) (pu : Point) (dirs : list Z) : Z :=
  match dirs with
  | [] => -1
  | dir :: rest =>
      let nx := nextX (px pu) dir in
      let ny := nextY (py pu) dir in
      if negb (inBounds (mazeW mz) (mazeH mz) nx ny) then dfsScan mz visited pu rest
      else
        let vid := cellId nx ny (mazeW mz) in
        if canMove mz (px pu) (py pu) dir && negb (bool_decide (vid ∈ visited))
        then vid
        else dfsScan mz visited pu rest
  end.

(** [while (!stk.empty()) { ... }] of [runDFS]. *)
Fixpoint dfsLoop (fuel : nat) (mz : Maze) (st : Search) : option (LoopExit * Search) :=
  match fuel with
  | O => None
  | S fuel' =>
      match frontier st with
      | [] => Some (FrontierEmpty, st)
      | u :: below =>
          let pu := cellPt u (mazeW mz) in
          if u =? goalCell mz then Some (GoalReached, st)
          else
            let nextCell := dfsScan mz (visitedSet st) pu directions in
            if negb (nextCell =? -1) then
              dfsLoop fuel' mz
                (mkSearch (vset (parentOf st) nextCell u)
                          ({[nextCell]} ∪ visitedSet st)
                          (nextCell :: frontier st))
            else
              dfsLoop fuel' mz (mkSearch (parentOf st) (visitedSet st) below)
      end
  end.

(** [parentOf(N, -1)], the start cell pushed and inserted. *)
Definition searchInit (mz : Maze) : Search :=
  mkSearch (replicate (Z.to_nat (mazeW mz * mazeH mz)) (-1)) {[startCell]} [startCell].

Definition runDFS (fuel : nat) (mz : Maze) : option FinalFrame :=
  r ← dfsLoop fuel mz (searchInit mz);
  drawFinalPath fuel (parentOf r.2) (goalCell mz).

(** The body of the inner [for] of [runBFS], for the dequeued cell [u]. *)
Definition bfsVisit (mz : Maze) (u : Z) (pu : Point) (st : Search) (dir : Z) : Search :=
  let nx := nextX (px pu) dir in
  let ny := nextY (py pu) dir in
  if negb (inBounds (mazeW mz) (mazeH mz) nx ny) then st
  else
    let vid := cellId nx ny (mazeW mz) in
    if canMove mz (px pu) (py pu) dir && negb (bool_decide (vid ∈ visitedSet st))
    then mkSearch (vset (parentOf st) vid u) ({[vid]} ∪ visitedSet st) (frontier st ++ [vid])
    else st.

(** [while (!que.empty()) { ... }] of [runBFS]. *)
Fixpoint bfsLoop (fuel : nat) (mz : Maze) (st : Search) : option (LoopExit * Search) :=
  match fuel with
  | O => None
  | S fuel' =>
      match frontier st with
      | [] => Some (FrontierEmpty, st)
      | u :: rest =>
          let st1 := mkSearch (parentOf st) (visitedSet st) rest in
          if u =? goalCell mz then Some (GoalReached, st1)
          else
            let pu := cellPt u (mazeW mz) in
            bfsLoop fuel' mz (foldl (bfsVisit mz u pu) st1 directions)
      end
  end.

Definition runBFS (fuel : nat) (mz : Maze) : option FinalFrame :=
  r ← bfsLoop fuel mz (searchInit mz);
  drawFinalPath fuel (parentOf r.2) (goalCell mz).

(** ** Dijkstra / A* *)

(** [priority_queue<P, vector<P>, greater<P>>]: the entries kept in
    ascending order of [pair]'s lexicographic [<], so that [top] is the head
    and [pop] drops it. *)
Definition pair_le (p q : Z * Z) : bool :=
  (p.1 <? q.1) || ((p.1 =? q.1) && (p.2 <=? q.2)).

Fixpoint pq_push (e : Z * Z) (q : list (Z * Z)) : list (Z * Z) :=
  match q with
  | [] => [e]
  | e' :: q' => if pair_le e e' then e :: q else e' :: pq_push e q'
  end.

(** The locals of [runPQ].  Its [visitedSet] is only handed to [drawFrame]
    and is left out. *)
Record PQSearch := mkPQSearch {
  dist : list Z;
  pqParentOf : list Z;
  pq : list (Z * Z)
}.

(** The body of the inner [for] of [runPQ], for the popped cell [u]. *)
Definition relaxDir (mz : Maze) (h : Z -> Z) (u : Z) (pu : Point)
    (st : PQSearch) (dir : Z) : PQSearch :=
  let nx := nextX (px pu) dir in
  let ny := nextY (py pu) dir in
  if negb (inBounds (mazeW mz) (mazeH mz) nx ny) then st
  else
    let vid := cellId nx ny (mazeW mz) in
    if canMove mz (px pu) (py pu) dir then
      let alt := vget 0 (dist st) u + 1 in
      if alt <? vget 0 (dist st) vid then
        mkPQSearch (vset (dist st) vid alt) (vset (pqParentOf st) vid u)
                   (pq_push (alt + h vid, vid) (pq st))
      else st
    else st.

(** [while (!pq.empty()) { ... }] of [runPQ]. *)
Fixpoint pqLoop (fuel : nat) (mz : Maze) (h : Z -> Z) (st : PQSearch)
  : option (LoopExit * PQSearch) :=
  match fuel with
  | O => None
  | S fuel' =>
      match pq st with
      | [] => Some (FrontierEmpty, st)
      | top :: rest =>
          let u := top.2 in
          let st1 := mkPQSearch (dist st) (pqParentOf st) rest in
          if u =? goalCell mz then Some (GoalReached, st1)
          else
            let pu := cellPt u (mazeW mz) in
            pqLoop fuel' mz h (foldl (relaxDir mz h u pu) st1 directions)
      end
  end.

(** [dist(N, INT_MAX)], [parentOf(N, -1)], [dist[0] = 0], [pq.push({h(0), 0})]. *)
Definition pqInit (mz : Maze) (h : Z -> Z) : PQSearch :=
  let N := Z.to_nat (mazeW mz * mazeH mz) in
  mkPQSearch (vset (replicate N INT_MAX) 0 0) (replicate N (-1)) (pq_push (h 0, 0) []).

Definition runPQ (fuel : nat) (mz : Maze) (h : Z -> Z) : option FinalFrame :=
  r ← pqLoop fuel mz h (pqInit mz h);
  drawFinalPath fuel (pqParentOf r.2) (goalCell mz).

(** The two heuristics [main] passes: [zeroH] for Dijkstra, [manH] for A*
    (with [mazeWidth], [mazeHeight] the dimensions of the maze). *)
Definition zeroH (v : Z) : Z := 0.

Definition manH (mazeWidth mazeHeight : Z) (v : Z) : Z :=
  let p := cellPt v mazeWidth in
  Z.abs (px p - (mazeWidth - 1)) + Z.abs (py p - (mazeHeight - 1)).

Definition runDijkstra (fuel : nat) (mz : Maze) : option FinalFrame :=
  runPQ fuel mz zeroH.

Definition runAStar (fuel : nat) (mz : Maze) : option FinalFrame :=
  runPQ fuel mz (manH (mazeW mz) (mazeH mz)).

(** The four entries of the menu. *)
Inductive Strategy := DFS | BFS | Dijkstra | AStar.

Definition run (s : Strategy) (fuel : nat) (mz : Maze) : option FinalFrame :=
  match s with
  | DFS => runDFS fuel mz
  | BFS => runBFS fuel mz
  | Dijkstra => runDijkstra fuel mz
  | AStar => runAStar fuel mz
  end.

(** ** ASCII canvas *)

(** [grid[r][c]] and [grid[r][c] = ch] on a [vector<string>]. *)
Definition charAt (grid : list (list ascii)) (r c : Z) : ascii :=
  vget " "%char (vget [] grid r) c.

Definition setChar (grid : list (list ascii)) (r c : Z) (ch : ascii)
  : list (list ascii) :=
  vset grid r (vset (vget [] grid r) c ch).

(** [struct AsciiCanvas]; its [mazeW] and [mazeH] are [canvasW] and
    [canvasH] here. *)
Record AsciiCanvas := mkAsciiCanvas {
  canvasW : Z;
  canvasH : Z;
  rows : Z;
  cols : Z;
  baseGrid : list (list ascii);
  drawGrid : list (list ascii)
}.

(** The body of the loops over [r] and [c]: corners, horizontal and
    vertical wall segments. *)
Definition latticeChar (grid : list (list ascii)) (r c : Z) : list (list ascii) :=
  if (Z.rem r 2 =? 0) && (Z.rem c 2 =? 0) then setChar grid r c "+"
  else if Z.rem r 2 =? 0 then setChar grid r c "-"
  else if Z.rem c 2 =? 0 then setChar grid r c "|"
  else grid.

(** The body of the loops over [y] and [x]: the cell and the two walls it
    owns. *)
Definition carveCell (mz : Maze) (grid : list (list ascii)) (x y : Z)
  : list (list ascii) :=
  let dr := 2 * y + 1 in
  let dc := 2 * x + 1 in
  let grid := setChar grid dr dc " " in
  let grid := if negb (wallAt (hasRightWall mz) x y)
              then setChar grid dr (dc + 1) " " else grid in
  if negb (wallAt (hasDownWall mz) x y) then setChar grid (dr + 1) dc " " else grid.

(** [AsciiCanvas(const Maze &mz)]; [drawGrid] starts out empty.  On a maze
    with at least one cell every index the constructor uses lies inside
    the grid. *)
Definition AsciiCanvas_new (mz : Maze) : AsciiCanvas :=
  let rows := 2 * mazeH mz + 1 in
  let cols := 2 * mazeW mz + 1 in
  let grid := replicate (Z.to_nat rows) (replicate (Z.to_nat cols) " "%char) in
  let grid := foldl (fun g r => foldl (fun g c => latticeChar g r c) g (seqZ 0 cols))
                    grid (seqZ 0 rows) in
  let grid := foldl (fun g y => foldl (fun g x => carveCell mz g x y) g (seqZ 0 (mazeW mz)))
                    grid (seqZ 0 (mazeH mz)) in
  let grid := setChar grid 1 0 " " in
  let grid := setChar grid (2 * mazeH mz - 1) (2 * mazeW mz) " " in
  mkAsciiCanvas (mazeW mz) (mazeH mz) rows cols grid [].

(** [resetGrid()] *)
Definition resetGrid (canvas : AsciiCanvas) : AsciiCanvas :=
  mkAsciiCanvas (canvasW canvas) (canvasH canvas) (rows canvas) (cols canvas)
                (baseGrid canvas) (baseGrid canvas).

(** [Point p = cellPt(v, canvas.mazeW);
    canvas.drawGrid[2*p.y + 1][2*p.x + 1] = ch;] *)
Definition markCell (ch : ascii) (canvas : AsciiCanvas) (v : Z) : AsciiCanvas :=
  let p := cellPt v (canvasW canvas) in
  mkAsciiCanvas (canvasW canvas) (canvasH canvas) (rows canvas) (cols canvas)
                (baseGrid canvas)
                (setChar (drawGrid canvas) (2 * py p + 1) (2 * px p + 1) ch).

(** ** Draw one frame *)

(** The grid [drawFrame] prints, left in [drawGrid].  [frontierSet] and
    [visitedSet] list the elements of the two sets in the order the
    range-[for] yields them, which the library leaves open. *)
Definition drawFrame (canvas : AsciiCanvas) (frontierSet visitedSet : list Z)
    (currentCell : Z) : AsciiCanvas :=
  let canvas := resetGrid canvas in
  let canvas := foldl (markCell ".") canvas visitedSet in
  let canvas := foldl (markCell "o") canvas frontierSet in
  if negb (currentCell =? -1) then markCell "@" canvas currentCell else canvas.

(** The grid [drawFinalPath] prints:
    [for (int v = endCell; v != -1; v = parentOf[v])] marking as it goes. *)
Fixpoint markFinal (fuel : nat) (parentOf : list Z) (canvas : AsciiCanvas) (v : Z)
  : option AsciiCanvas :=
  match fuel with
  | O => None
  | S fuel' =>
      if v =? -1 then Some canvas
      else markFinal fuel' parentOf (markCell "*" canvas v) (vget 0 parentOf v)
  end.

Definition drawFinalCanvas (fuel : nat) (canvas : AsciiCanvas) (parentOf : list Z)
    (endCell : Z) : option AsciiCanvas :=
  markFinal fuel parentOf (resetGrid canvas) endCell.

(** ** Prompt for speed *)

(** The [switch] of [promptSpeed]. *)
Definition delayFor (s : Z) : Z :=
  if s =? 1 then 500
  else if s =? 2 then 300
  else if s =? 3 then 200
  else if s =? 4 then 100
  else if s =? 5 then 80
  else if s =? 6 then 60
  else if s =? 7 then 40
  else if s =? 8 then 25
  else if s =? 9 then 10
  else if s =? 10 then 1
  else 150.

(** [promptSpeed()]: the new value of [g_delayMs].  Every entry of
    [inputs] is the outcome of one [cin >> s]: [None] when the extraction
    fails, the number read otherwise.  The loop asks again until a number
    from 1 to 10 comes; [None] when the inputs run out first. *)
Fixpoint promptSpeed (inputs : list (option Z)) : option Z :=
  match inputs with
  | [] => None
  | None :: rest => promptSpeed rest
  | Some s :: rest =>
      if (s >=? 1) && (s <=? 10) then Some (delayFor s) else promptSpeed rest
  end.

(** ** Get terminal size *)

(** [getTerminalSize()].  [win32] tells which branch of the [#ifdef] was
    compiled; [ioctl] is what the call of [ioctl(STDOUT_FILENO, TIOCGWINSZ)]
    yields: the rows and columns of the window, or [None] when it fails (as
    it does when the output is not a terminal). *)
Definition getTerminalSize (win32 : bool) (ioctl : option (Z * Z)) : Z * Z :=
  if win32 then (1000, 1000)
  else match ioctl with
       | Some (ws_row, ws_col) => (ws_row, ws_col)
       | None => (24, 80)
       end.

(** The loop [drawFrame], [drawFinalPath] and [main] start with:
    [while (true) { sz = getTerminalSize(); if (fits) break; warn; sleep; }].
    Every entry of [polls] is what one call of [ioctl] yields.  The result
    is the number of warnings printed before the terminal was found large
    enough; [None] when the polls run out first. *)
Fixpoint waitTerminal (win32 : bool) (canvas : AsciiCanvas)
    (polls : list (option (Z * Z))) : option nat :=
  match polls with
  | [] => None
  | ioctl :: rest =>
      let sz := getTerminalSize win32 ioctl in
      let need_rows := rows canvas + 1 in
      let need_cols := cols canvas in
      if (sz.1 >=? need_rows) && (sz.2 >=? need_cols) then Some 0%nat
      else S <$> waitTerminal win32 canvas rest
  end.

(** * Specification vocabulary *)

(** ** Graphs as symmetric relations *)

Section GraphDefinitions.
Context {V : Type}.
Implicit Types (R : relation V) (p q : list V) (u v a b : V).

(** Consecutive elements are related. *)
Fixpoint is_path R p : Prop :=
  match p with
  | [] => True
  | x :: t => match t with
              | [] => True
              | y :: _ => R x y /\ is_path R t
              end
  end.

Definition path_between R u v p : Prop :=
  is_path R p /\ head p = Some u /\ last p = Some v.

Definition simple_path R u v p : Prop := path_between R u v p /\ NoDup p.

(** [R] with the edge between [a] and [b] taken out, and put in. *)
Definition without R a b : relation V :=
  fun x y => R x y /\ ~ ((x = a /\ y = b) \/ (x = b /\ y = a)).

Definition with_edge R a b : relation V :=
  fun x y => R x y \/ (x = a /\ y = b) \/ (x = b /\ y = a).

(** Every edge is a bridge: taking it out disconnects its ends. *)
Definition forest R : Prop := forall a b, R a b -> ~ rtc (without R a b) a b.

Definition symmetric R : Prop := forall x y, R x y -> R y x.

End GraphDefinitions.

(** ** Union-find: roots, ranks and path compression *)

(** [root_of p x r]: following [p] from [x] ends in the self-parented [r]. *)
Inductive root_of (p : list Z) : Z -> Z -> Prop :=
| root_here x : 0 <= x < zlen p -> vget 0 p x = x -> root_of p x x
| root_up x r : 0 <= x < zlen p -> vget 0 p x <> x ->
                root_of p (vget 0 p x) r -> root_of p x r.

(** [on_path p x y]: [y] is one of the nodes [findRoot] visits from [x]. *)
Inductive on_path (p : list Z) : Z -> Z -> Prop :=
| on_path_here x : on_path p x x
| on_path_up x y : vget 0 p x <> x -> on_path p (vget 0 p x) y -> on_path p x y.

(** Every node has its parent in range, and a rank in [0..k] that grows
    strictly towards the parent: the parent pointers form a forest. *)
Definition ranked (p : list Z) (rho : Z -> Z) (k : Z) : Prop :=
  forall x, 0 <= x < zlen p ->
    0 <= rho x <= k /\ 0 <= vget 0 p x < zlen p /\
    (vget 0 p x <> x -> rho x < rho (vget 0 p x)).

(** [p'] is [p] after the path from [x] has been re-parented to [r]. *)
Definition compressed (p : list Z) (x r : Z) (p' : list Z) : Prop :=
  zlen p' = zlen p /\
  forall y, (on_path p x y -> vget 0 p' y = r) /\
            (~ on_path p x y -> vget 0 p' y = vget 0 p y).

(** Same component. *)
Definition same (p : list Z) (a b : Z) : Prop :=
  exists r, root_of p a r /\ root_of p b r.

(** Roots before and after: the partition is the same. *)
Definition roots_kept (p p' : list Z) : Prop :=
  zlen p' = zlen p /\ forall y r, root_of p y r -> root_of p' y r.

(** What [unite] leaves behind: both paths compressed, then, if the roots
    differ, the root with the smaller recorded size linked under the other
    (the second under the first on a tie) and the sizes added up. *)
Definition united (s : list Z) (p2 : list Z) (ra rb : Z) : DisjointSet :=
  if decide (ra = rb) then mkDisjointSet p2 s
  else if vget 0 s ra <? vget 0 s rb
       then mkDisjointSet (vset p2 ra rb) (vset s rb (vget 0 s rb + vget 0 s ra))
       else mkDisjointSet (vset p2 rb ra) (vset s ra (vget 0 s ra + vget 0 s rb)).

(** ** The maze as a graph *)

Definition cellIn (m : Maze) (c : Z) : Prop := 0 <= c < mazeW m * mazeH m.

(** [passage m u v]: one of the four moves the search loops try from [u]
    is in bounds, allowed by [canMove], and leads to [v]. *)
Definition passage (m : Maze) (u v : Z) : Prop :=
  cellIn m u /\
  exists dir, dir ∈ directions /\
    inBounds (mazeW m) (mazeH m)
      (nextX (px (cellPt u (mazeW m))) dir) (nextY (py (cellPt u (mazeW m))) dir) = true /\
    canMove m (px (cellPt u (mazeW m))) (py (cellPt u (mazeW m))) dir = true /\
    v = cellId (nextX (px (cellPt u (mazeW m))) dir)
               (nextY (py (cellPt u (mazeW m))) dir) (mazeW m).

(** Both wall grids have [W] columns of [H] entries. *)
Definition grid_ok (W H : Z) (g : list (list bool)) : Prop :=
  zlen g = W /\ forall x, 0 <= x < W -> zlen (vget [] g x) = H.

Definition maze_ok (m : Maze) : Prop :=
  0 < mazeW m /\ 0 < mazeH m /\
  grid_ok (mazeW m) (mazeH m) (hasRightWall m) /\
  grid_ok (mazeW m) (mazeH m) (hasDownWall m).

(** The wall between [a] and its right or lower neighbour [b] is removed. *)
Definition opened (m : Maze) (a b : Z) : Prop :=
  exists x y, 0 <= x < mazeW m /\ 0 <= y < mazeH m /\ a = cellId x y (mazeW m) /\
    ((x + 1 < mazeW m /\ b = a + 1 /\ wallAt (hasRightWall m) x y = false) \/
     (y + 1 < mazeH m /\ b = a + mazeW m /\ wallAt (hasDownWall m) x y = false)).

(** The number of removed walls: the [false] entries of the two grids. *)
Definition countFalse (g : list (list bool)) : Z :=
  Z.of_nat (length (filter (fun b => b = false) (concat g))).

Definition removedWalls (m : Maze) : Z :=
  countFalse (hasRightWall m) + countFalse (hasDownWall m).

(** Every removed wall lies between two cells. *)
Definition walls_inner (m : Maze) : Prop :=
  forall x y, 0 <= x < mazeW m -> 0 <= y < mazeH m ->
    (wallAt (hasRightWall m) x y = false -> x + 1 < mazeW m) /\
    (wallAt (hasDownWall m) x y = false -> y + 1 < mazeH m).

(** The two cells an edge of [generateRandom] joins: [a] and [b] of its loop. *)
Definition edgeSrc (W : Z) (e : Edge) : Z := ey e * W + ex e.
Definition edgeDst (W : Z) (e : Edge) : Z :=
  if edir e =? 1 then edgeSrc W e + 1 else edgeSrc W e + W.

(** ** Counting components *)

(** The number of self-parented nodes. *)
Definition rootCount (p : list Z) : Z :=
  Z.of_nat (length (filter (fun i => vget 0 p i = i) (seqZ 0 (zlen p)))).

(** ** Randomized Kruskal and the spanning-tree invariant *)

(** What holds between two iterations of the loop over the edges, [done]
    being the edges already handled and [k] the number of walls removed. *)
Record kruskal_inv (W H : Z) (done : list Edge) (m : Maze) (ds : DisjointSet)
    (rho : Z -> Z) (k : Z) : Prop := mkKruskalInv {
  ki_W : mazeW m = W;
  ki_H : mazeH m = H;
  ki_right : grid_ok W H (hasRightWall m);
  ki_down : grid_ok W H (hasDownWall m);
  ki_len : zlen (parent ds) = W * H;
  ki_ranked : ranked (parent ds) rho k;
  ki_roots : rootCount (parent ds) = W * H - k;
  ki_walls : removedWalls m = k;
  ki_inner : walls_inner m;
  ki_same : forall a b, 0 <= a < W * H -> 0 <= b < W * H ->
              (same (parent ds) a b <-> rtc (passage m) a b);
  ki_forest : forest (passage m);
  ki_done : forall e, e ∈ done -> rtc (passage m) (edgeSrc W e) (edgeDst W e)
}.

Definition connected (m : Maze) : Prop :=
  forall u v, cellIn m u -> cellIn m v -> rtc (passage m) u v.

(** A cycle: at least three distinct cells, each joined to the next and
    the last to the first. *)
Definition cycle (m : Maze) (c : list Z) : Prop :=
  (3 <= length c)%nat /\ NoDup c /\ is_path (passage m) c /\
  exists u v, head c = Some u /\ last c = Some v /\ passage m v u.

Definition acyclic (m : Maze) : Prop := forall c, ~ cycle m c.

Definition unique_paths (m : Maze) : Prop :=
  forall u v, cellIn m u -> cellIn m v ->
    exists p, simple_path (passage m) u v p /\
              forall q, simple_path (passage m) u v q -> q = p.

Record spanning_tree (m : Maze) : Prop := mkSpanningTree {
  st_ok : maze_ok m;
  st_inner : walls_inner m;
  st_connected : connected m;
  st_acyclic : acyclic m;
  st_edges : removedWalls m = mazeW m * mazeH m - 1;
  st_unique : unique_paths m
}.

(** ** Search invariants and termination measures *)

(** The parent pointers form a tree rooted at the start cell: every reached
    cell other than the start has a reached parent one passage away, of
    strictly smaller rank. *)
Record tree_inv (m : Maze) (par : list Z) (reached : gset Z) (rank : Z -> Z)
  : Prop := mkTreeInv {
  ti_len : zlen par = mazeW m * mazeH m;
  ti_start : startCell ∈ reached;
  ti_start_par : vget 0 par startCell = -1;
  ti_cells : forall v, v ∈ reached -> cellIn m v;
  ti_rank : forall v, v ∈ reached -> 0 <= rank v < Z.of_nat (size reached);
  ti_parent : forall v, v ∈ reached -> v <> startCell ->
                vget 0 par v ∈ reached /\ passage m (vget 0 par v) v /\
                rank (vget 0 par v) < rank v;
  ti_fresh : forall v, cellIn m v -> v ∉ reached -> vget 0 par v = -1
}.

(** All passages out of [v] lead to reached cells. *)
Definition closed_in (m : Maze) (reached : gset Z) (v : Z) : Prop :=
  forall w, passage m v w -> w ∈ reached.

(** What a search loop leaves behind: a parent tree over the reached cells;
    after the [break] the goal is among them, after the frontier ran empty
    it is not and no passage leads out of the reached cells. *)
Definition search_outcome (m : Maze) (exit : LoopExit) (par : list Z) : Prop :=
  exists reached rank,
    tree_inv m par reached rank /\
    match exit with
    | GoalReached => goalCell m ∈ reached
    | FrontierEmpty =>
        (goalCell m ∉ reached) /\ (forall v, v ∈ reached -> closed_in m reached v)
    end.

(** Between two iterations of the [while] loop of [runBFS]. *)
Record bfs_inv (m : Maze) (st : Search) (rank : Z -> Z) : Prop := mkBfsInv {
  bi_tree : tree_inv m (parentOf st) (visitedSet st) rank;
  bi_queue : forall v, v ∈ frontier st -> v ∈ visitedSet st;
  bi_closed : forall v, v ∈ visitedSet st ->
                v ∈ frontier st \/ closed_in m (visitedSet st) v;
  bi_goal : goalCell m ∈ visitedSet st -> goalCell m ∈ frontier st
}.

(** Inside the inner [for], while the dequeued cell [u] is being expanded. *)
Record bfs_mid (m : Maze) (u : Z) (st : Search) (rank : Z -> Z) : Prop := mkBfsMid {
  bm_tree : tree_inv m (parentOf st) (visitedSet st) rank;
  bm_queue : forall v, v ∈ frontier st -> v ∈ visitedSet st;
  bm_cur : u ∈ visitedSet st;
  bm_closed : forall v, v ∈ visitedSet st ->
                v ∈ frontier st \/ v = u \/ closed_in m (visitedSet st) v;
  bm_goal : goalCell m ∈ visitedSet st -> goalCell m ∈ frontier st
}.

(** What is left to do: unvisited cells plus queued cells. *)
Definition bfs_measure (m : Maze) (st : Search) : Z :=
  mazeW m * mazeH m - Z.of_nat (size (visitedSet st)) + Z.of_nat (length (frontier st)).

(** Between two iterations of the [while] loop of [runDFS]. *)
Record dfs_inv (m : Maze) (st : Search) (rank : Z -> Z) : Prop := mkDfsInv {
  di_tree : tree_inv m (parentOf st) (visitedSet st) rank;
  di_stack : forall v, v ∈ frontier st -> v ∈ visitedSet st;
  di_closed : forall v, v ∈ visitedSet st ->
                v ∈ frontier st \/ closed_in m (visitedSet st) v;
  di_goal : goalCell m ∈ visitedSet st -> head (frontier st) = Some (goalCell m)
}.

(** Every push uses up an unvisited cell, every pop a stack entry. *)
Definition dfs_measure (m : Maze) (st : Search) : Z :=
  2 * (mazeW m * mazeH m - Z.of_nat (size (visitedSet st)))
  + Z.of_nat (length (frontier st)).

(** The sum of [f] over the cells of [l]. *)
Fixpoint sumOver (f : Z -> Z) (l : list Z) : Z :=
  match l with
  | [] => 0
  | v :: t => f v + sumOver f t
  end.

(** [cur] is the popped cell while the inner [for] runs, [None] between two
    iterations of the [while] loop.  [reached] holds the cells whose [dist]
    is below [INT_MAX]; the rank of the parent tree is [dist] itself. *)
Record pq_inv (m : Maze) (cur : option Z) (st : PQSearch) (reached : gset Z)
  : Prop := mkPqInv {
  pi_len : zlen (dist st) = mazeW m * mazeH m;
  pi_tree : tree_inv m (pqParentOf st) reached (fun v => vget 0 (dist st) v);
  pi_start : vget 0 (dist st) startCell = 0;
  pi_far : forall v, cellIn m v -> v ∉ reached -> INT_MAX <= vget 0 (dist st) v;
  pi_pq : forall e, e ∈ pq st -> e.2 ∈ reached;
  pi_cur : forall u, cur = Some u -> u ∈ reached;
  pi_closed : forall v, v ∈ reached ->
                (exists k, (k, v) ∈ pq st) \/ cur = Some v \/ closed_in m reached v;
  pi_goal : goalCell m ∈ reached -> exists k, (k, goalCell m) ∈ pq st
}.

(** The distances, capped at the number of cells, and the queue length. *)
Definition capDist (N : Z) (d : list Z) (v : Z) : Z := Z.min (vget 0 d v) N.

Definition pq_measure (m : Maze) (st : PQSearch) : Z :=
  2 * sumOver (capDist (mazeW m * mazeH m) (dist st)) (seqZ 0 (mazeW m * mazeH m))
  + Z.of_nat (length (pq st)).

(** ** Union by size *)

(** The component of the root [r] has [n] members. *)
Definition comp_size (p : list Z) (r : Z) (n : Z) : Prop :=
  exists l, NoDup l /\ (forall x, x ∈ l <-> root_of p x r) /\ Z.of_nat (length l) = n.

(** [sz] records, at every root, the size of its component. *)
Definition sized (p s : list Z) : Prop :=
  forall r, root_of p r r -> comp_size p r (vget 0 s r).

(** A structure over [n] elements as [DisjointSet(n)], [findRoot] and [unite]
    build it. *)
Record ds_inv (n : Z) (ds : DisjointSet) : Prop := mkDsInv {
  dsi_len : zlen (parent ds) = n;
  dsi_szlen : zlen (sz ds) = n;
  dsi_ranked : exists rho, ranked (parent ds) rho (n - rootCount (parent ds));
  dsi_sized : sized (parent ds) (sz ds)
}.

(** ** Runs and path lengths *)

(** The [while] loop of each strategy on its own: how it was left and the
    [parentOf] it hands to [drawFinalPath]. *)
Definition searchLoop (s : Strategy) (fuel : nat) (mz : Maze)
  : option (LoopExit * list Z) :=
  match s with
  | DFS => (fun r => (r.1, parentOf r.2)) <$> dfsLoop fuel mz (searchInit mz)
  | BFS => (fun r => (r.1, parentOf r.2)) <$> bfsLoop fuel mz (searchInit mz)
  | Dijkstra =>
      (fun r => (r.1, pqParentOf r.2)) <$> pqLoop fuel mz zeroH (pqInit mz zeroH)
  | AStar =>
      (fun r => (r.1, pqParentOf r.2)) <$>
        pqLoop fuel mz (manH (mazeW mz) (mazeH mz))
               (pqInit mz (manH (mazeW mz) (mazeH mz)))
  end.

(** The number of passages a path walks through. *)
Definition edgeCount (p : list Z) : nat := pred (length p).

(** ** The stack of the depth-first search *)

(** The stack of [runDFS] read from the top: every entry has the entry
    below it as its parent, and the bottom entry has none. *)
Fixpoint stack_chain (par : list Z) (stk : list Z) : Prop :=
  match stk with
  | [] => True
  | v :: below =>
      v <> -1 /\
      vget 0 par v = match below with [] => -1 | w :: _ => w end /\
      stack_chain par below
  end.

(** ** Levels of the breadth-first search *)

(** The queue holds its cells in ascending order of their level. *)
Fixpoint level_sorted (d : Z -> Z) (l : list Z) : Prop :=
  match l with
  | [] => True
  | x :: t => (forall y, y ∈ t -> d x <= d y) /\ level_sorted d t
  end.

(** All passages out of [v] lead to visited cells at most one level up. *)
Definition level_closed (m : Maze) (d : Z -> Z) (visited : gset Z) (v : Z) : Prop :=
  forall w, passage m v w -> w ∈ visited /\ d w <= d v + 1.

(** Between two iterations of the [while] loop of [runBFS] ([cur = None])
    and inside its inner [for] ([cur = Some u]): [d] is the level of every
    visited cell, one more than the level of its parent; the queued cells
    are at level [L] or [L + 1], in this order; the cells already
    expanded are at level [L] at most and closed. *)
Record bfs_levels (m : Maze) (d : Z -> Z) (L : Z) (cur : option Z) (st : Search)
  : Prop := mkBfsLevels {
  bl_len : zlen (parentOf st) = mazeW m * mazeH m;
  bl_cells : forall v, v ∈ visitedSet st -> cellIn m v;
  bl_start : startCell ∈ visitedSet st /\ d startCell = 0 /\
             vget 0 (parentOf st) startCell = -1;
  bl_parent : forall v, v ∈ visitedSet st -> v <> startCell ->
                vget 0 (parentOf st) v ∈ visitedSet st /\
                d (vget 0 (parentOf st) v) + 1 <= d v;
  bl_queue : forall x, x ∈ frontier st -> x ∈ visitedSet st /\ L <= d x <= L + 1;
  bl_sorted : level_sorted d (frontier st);
  bl_expanded : forall v, v ∈ visitedSet st -> v ∉ frontier st -> d v <= L;
  bl_cur : forall u, cur = Some u -> u ∈ visitedSet st /\ d u = L;
  bl_relaxed : forall v, v ∈ visitedSet st ->
                 v ∈ frontier st \/ cur = Some v \/ level_closed m d (visitedSet st) v
}.

(** ** Shortest distances in [runPQ] *)

(** The queue is in ascending order: its head is the least entry. *)
Fixpoint pq_sorted (q : list (Z * Z)) : Prop :=
  match q with
  | [] => True
  | e :: t => (forall e', e' ∈ t -> pair_le e e' = true) /\ pq_sorted t
  end.

(** No passage out of [v] leads to a cell whose distance could still be
    improved from [v]. *)
Definition relaxed (m : Maze) (d : list Z) (v : Z) : Prop :=
  forall w, passage m v w -> vget 0 d w <= vget 0 d v + 1.

(** Between two iterations of the [while] loop of [runPQ] ([cur = None])
    and inside its inner [for] ([cur = Some u]): no distance exceeds
    [INT_MAX]; the key of every queue entry is at least the distance of its
    cell plus the heuristic; and every cell with a distance is relaxed,
    unless it is the one being expanded or the queue still holds it under
    its present distance. *)
Record pq_opt (m : Maze) (h : Z -> Z) (cur : option Z) (st : PQSearch) : Prop := mkPqOpt {
  po_max : forall v, cellIn m v -> vget 0 (dist st) v <= INT_MAX;
  po_keys : forall e, e ∈ pq st -> vget 0 (dist st) e.2 + h e.2 <= e.1;
  po_sorted : pq_sorted (pq st);
  po_relaxed : forall v, cellIn m v -> vget 0 (dist st) v < INT_MAX ->
                 (vget 0 (dist st) v + h v, v) ∈ pq st \/ cur = Some v \/
                 relaxed m (dist st) v
}.

(** A heuristic that changes by at most one along a passage. *)
Definition consistent (m : Maze) (h : Z -> Z) : Prop :=
  forall u v, passage m u v -> h u <= h v + 1.

(** ** The values [runPQ] computes *)

(** The locals of [runPQ] after [n] iterations of its [while] loop, or as
    the loop left them when it ended earlier. *)
Fixpoint pqAfter (n : nat) (mz : Maze) (h : Z -> Z) (st : PQSearch) : PQSearch :=
  match n with
  | O => st
  | S n' =>
      match pq st with
      | [] => st
      | top :: rest =>
          let u := top.2 in
          let st1 := mkPQSearch (dist st) (pqParentOf st) rest in
          if u =? goalCell mz then st1
          else pqAfter n' mz h (foldl (relaxDir mz h u (cellPt u (mazeW mz))) st1 directions)
      end
  end.

(** Every key in the queue lies between [0] and [W*H + B]. *)
Definition pq_bounded (m : Maze) (B : Z) (st : PQSearch) : Prop :=
  forall e, e ∈ pq st -> 0 <= e.1 <= mazeW m * mazeH m + B.

(** ** Union by size keeps the trees shallow *)

(** [hgt] bounds the height of the tree under every node: it is at most
    [log2 n], grows strictly towards the parent, and a root of height
    [hgt r] has a recorded size of [2 ^ hgt r] at least. *)
Record ds_balanced (n : Z) (ds : DisjointSet) (hgt : Z -> Z) : Prop := mkDsBalanced {
  db_len : zlen (parent ds) = n;
  db_szlen : zlen (sz ds) = n;
  db_ranked : ranked (parent ds) hgt (Z.log2 n);
  db_sized : sized (parent ds) (sz ds);
  db_pow : forall r, root_of (parent ds) r r -> 2 ^ hgt r <= vget 0 (sz ds) r
}.

Definition balanced (n : Z) (ds : DisjointSet) : Prop := exists hgt, ds_balanced n ds hgt.

(** ** Vocabulary for the canvas *)

(** A grid of [R] rows of [C] characters. *)
Definition char_grid (R C : Z) (g : list (list ascii)) : Prop :=
  zlen g = R /\ forall r, 0 <= r < R -> zlen (vget [] g r) = C.

(** A list of writes [(r, c, ch)] carried out from left to right. *)
Definition paint (g : list (list ascii)) (ws : list (Z * Z * ascii))
  : list (list ascii) :=
  foldl (fun g w => setChar g w.1.1 w.1.2 w.2) g ws.

(** The writes of [latticeChar] and of [carveCell]. *)
Definition latticeWrites (r c : Z) : list (Z * Z * ascii) :=
  if (Z.rem r 2 =? 0) && (Z.rem c 2 =? 0) then [(r, c, "+"%char)]
  else if Z.rem r 2 =? 0 then [(r, c, "-"%char)]
  else if Z.rem c 2 =? 0 then [(r, c, "|"%char)]
  else [].

Definition carveWrites (mz : Maze) (x y : Z) : list (Z * Z * ascii) :=
  (2 * y + 1, 2 * x + 1, " "%char) ::
  (if negb (wallAt (hasRightWall mz) x y) then [(2 * y + 1, 2 * x + 1 + 1, " "%char)] else []) ++
  (if negb (wallAt (hasDownWall mz) x y) then [(2 * y + 1 + 1, 2 * x + 1, " "%char)] else []).

(** The character of a cell in a frame: the current cell over the frontier
    over the visited cells. *)
Definition frameChar (frontierSet visitedSet : list Z) (currentCell v : Z) : ascii :=
  if decide (v = currentCell) then "@"%char
  else if decide (v ∈ frontierSet) then "o"%char
  else if decide (v ∈ visitedSet) then "."%char
  else " "%char.

(** The lattice of corners and wall segments before any cell is carved. *)
Definition latticeAt (r c : Z) : ascii :=
  if (Z.rem r 2 =? 0) && (Z.rem c 2 =? 0) then "+"%char
  else if Z.rem r 2 =? 0 then "-"%char
  else if Z.rem c 2 =? 0 then "|"%char
  else " "%char.

Definition allLatticeWrites (R C : Z) : list (Z * Z * ascii) :=
  r ← seqZ 0 R; c ← seqZ 0 C; latticeWrites r c.

Definition allCarveWrites (mz : Maze) : list (Z * Z * ascii) :=
  y ← seqZ 0 (mazeH mz); x ← seqZ 0 (mazeW mz); carveWrites mz x y.

(** The position [(r, c)] is blanked by the loops over the cells: it is the
    centre of a cell, or the place of a removed right or lower wall. *)
Definition carvedAt (mz : Maze) (r c : Z) : Prop :=
  exists x y, 0 <= x < mazeW mz /\ 0 <= y < mazeH mz /\
    ((r = 2 * y + 1 /\ c = 2 * x + 1) \/
     (r = 2 * y + 1 /\ c = 2 * x + 2 /\ wallAt (hasRightWall mz) x y = false) \/
     (r = 2 * y + 2 /\ c = 2 * x + 1 /\ wallAt (hasDownWall mz) x y = false)).

(** The write of [markCell]. *)
Definition centreWrite (W : Z) (ch : ascii) (v : Z) : Z * Z * ascii :=
  (2 * py (cellPt v W) + 1, 2 * px (cellPt v W) + 1, ch).

(** ** Concrete inputs used by the examples below *)

(** A shuffle that leaves the vector as it is. *)
Definition keepOrder (seed : Z) (l : list Edge) : list Edge := l.

(** [Maze(2, 1)] before [generateRandom]: two cells, every wall standing. *)
Definition walledMaze : Maze := mkMaze 2 1 [[true]; [true]] [[true]; [true]].

(** The 3 x 2 maze [generateRandom] builds from the unshuffled edge list. *)
Definition sampleMaze : Maze :=
  mkMaze 3 2 [[false; true]; [false; true]; [true; true]]
             [[false; true]; [false; true]; [false; true]].

(** Four elements after [unite(0,1)], [unite(2,3)], [unite(0,2)]: the chain
    3 -> 2 -> 0 and 1 -> 0. *)
Definition chainSet : DisjointSet := mkDisjointSet [0; 0; 0; 2] [4; 1; 2; 1].

(** * Proofs *)

(** * Vectors *)

Section Vectors.
Context {A : Type}.
Implicit Types (v : list A) (i j : Z) (x d : A).

Lemma zlen_vset v i x : zlen (vset v i x) = zlen v.
Proof.
  unfold zlen, vset. destruct (0 <=? i); [by rewrite length_insert | done].
Qed.

Lemma length_vset v i x : length (vset v i x) = length v.
Proof.
  unfold vset. destruct (0 <=? i); [by rewrite length_insert | done].
Qed.

Lemma vget_vset_eq d v i x : 0 <= i < zlen v -> vget d (vset v i x) i = x.
Proof.
  intros Hi. unfold vget, vset, zlen in *.
  destruct (Z.leb_spec 0 i); [|lia].
  rewrite list_lookup_insert_eq; [done | lia].
Qed.

Lemma vget_vset_ne d v i j x : i <> j -> vget d (vset v i x) j = vget d v j.
Proof.
  intros Hne. unfold vget, vset.
  destruct (Z.leb_spec 0 j); [|done].
  destruct (Z.leb_spec 0 i); [|done].
  rewrite list_lookup_insert_ne; [done | lia].
Qed.

Lemma vget_vset d v i j x :
  0 <= i < zlen v ->
  vget d (vset v i x) j = if decide (i = j) then x else vget d v j.
Proof.
  intros Hi. case_decide as Hd.
  - subst. by apply vget_vset_eq.
  - by apply vget_vset_ne.
Qed.

Lemma vget_replicate d (n : nat) x i :
  0 <= i < Z.of_nat n -> vget d (replicate n x) i = x.
Proof.
  intros Hi. unfold vget. destruct (Z.leb_spec 0 i); [|lia].
  rewrite lookup_replicate_2; [done | lia].
Qed.

Lemma zlen_replicate (n : nat) x : zlen (replicate n x) = Z.of_nat n.
Proof. unfold zlen. by rewrite length_replicate. Qed.

Lemma zlen_nonneg v : 0 <= zlen v.
Proof. unfold zlen. lia. Qed.

Lemma vget_lookup d v i :
  0 <= i < zlen v -> v !! Z.to_nat i = Some (vget d v i).
Proof.
  intros Hi. unfold vget, zlen in *. destruct (Z.leb_spec 0 i); [|lia].
  destruct (lookup_lt_is_Some_2 v (Z.to_nat i)) as [y Hy]; [lia|].
  by rewrite Hy.
Qed.

End Vectors.

Lemma vget_seqZ d n i : 0 <= i < n -> vget d (seqZ 0 n) i = i.
Proof.
  intros Hi. unfold vget. destruct (Z.leb_spec 0 i); [|lia].
  rewrite lookup_seqZ_lt; [simpl; lia | lia].
Qed.

Lemma zlen_seqZ m n : 0 <= n -> zlen (seqZ m n) = n.
Proof. intros Hn. unfold zlen. rewrite length_seqZ. lia. Qed.

(** * Cells and coordinates *)

Lemma cellPt_cellId W x y :
  0 <= x < W -> 0 <= y -> cellPt (cellId x y W) W = mkPoint x y.
Proof.
  intros Hx Hy. unfold cellPt, cellId.
  rewrite Z.rem_mod_nonneg, Z.quot_div_nonneg by nia.
  f_equal.
  - rewrite Z.add_comm, Z.mod_add by lia. apply Z.mod_small; lia.
  - rewrite Z.add_comm, Z.div_add by lia. rewrite Z.div_small by lia. lia.
Qed.

Lemma cellPt_range W H c :
  0 < W -> 0 <= c < W * H ->
  0 <= px (cellPt c W) < W /\ 0 <= py (cellPt c W) < H.
Proof.
  intros HW Hc. unfold cellPt. simpl.
  rewrite Z.rem_mod_nonneg, Z.quot_div_nonneg by lia.
  split; [apply Z.mod_pos_bound; lia|].
  split; [apply Z.div_pos; lia|].
  apply Z.div_lt_upper_bound; lia.
Qed.

Lemma cellId_cellPt W c :
  0 < W -> 0 <= c -> cellId (px (cellPt c W)) (py (cellPt c W)) W = c.
Proof.
  intros HW Hc. unfold cellPt, cellId. simpl.
  rewrite Z.rem_mod_nonneg, Z.quot_div_nonneg by lia.
  pose proof (Z.div_mod c W). lia.
Qed.

Lemma cellId_range W H x y :
  0 <= x < W -> 0 <= y < H -> 0 <= cellId x y W < W * H.
Proof. intros Hx Hy. unfold cellId. nia. Qed.

Lemma cellId_inj W x y x' y' :
  0 <= x < W -> 0 <= x' < W -> cellId x y W = cellId x' y' W -> x = x' /\ y = y'.
Proof. unfold cellId. intros Hx Hx' He. assert (y = y') by nia. subst. lia. Qed.

(** * Union-find: roots, ranks and path compression *)

Section Roots.
Implicit Types (p : list Z) (x y r : Z).

Lemma root_of_range p x r : root_of p x r -> 0 <= x < zlen p.
Proof. by destruct 1. Qed.

Lemma root_of_is_root p x r :
  root_of p x r -> 0 <= r < zlen p /\ vget 0 p r = r.
Proof. induction 1; auto. Qed.

Lemma root_of_inj p x r r' : root_of p x r -> root_of p x r' -> r = r'.
Proof.
  intros H. revert r'. induction H as [x Hx He | x r Hx Hne H IH]; intros r' H'.
  - inversion H'; subst; [done | congruence].
  - inversion H'; subst; [congruence | by apply IH].
Qed.

Lemma root_of_self p r : 0 <= r < zlen p -> vget 0 p r = r -> root_of p r r.
Proof. by constructor. Qed.

Lemma root_of_on_path p x r : root_of p x r -> on_path p x r.
Proof. induction 1; [constructor | by constructor]. Qed.

Lemma on_path_root p x y r : on_path p x y -> root_of p x r -> root_of p y r.
Proof.
  induction 1 as [x | x y Hne H IH]; [done|].
  intros Hr. apply IH. inversion Hr; subst; [congruence | done].
Qed.

Lemma on_path_from_root p x y : vget 0 p x = x -> on_path p x y -> y = x.
Proof. intros He H. destruct H; [done | congruence]. Qed.

Lemma root_exists p rho k x :
  ranked p rho k -> 0 <= x < zlen p -> exists r, root_of p x r.
Proof.
  intros Hrk. remember (Z.to_nat (k - rho x)) as n eqn:Hn.
  revert x Hn. induction (lt_wf n) as [n _ IH]. intros x Hn Hx.
  destruct (Hrk x Hx) as (Hrho & Hp & Hup).
  destruct (decide (vget 0 p x = x)) as [He | Hne].
  - exists x. by constructor.
  - specialize (Hup Hne).
    destruct (Hrk _ Hp) as (Hrho' & _ & _).
    destruct (IH (Z.to_nat (k - rho (vget 0 p x)))) with (x := vget 0 p x)
      as [r Hr]; [lia | done | done |].
    exists r. by constructor.
Qed.

Lemma root_rank p rho k x r :
  ranked p rho k -> root_of p x r -> rho x <= rho r /\ (x <> r -> rho x < rho r).
Proof.
  intros Hrk. induction 1 as [x Hx He | x r Hx Hne H IH]; [lia|].
  destruct (Hrk x Hx) as (_ & _ & Hup). specialize (Hup Hne). lia.
Qed.

Lemma on_path_rank p rho k x y :
  ranked p rho k -> 0 <= x < zlen p -> on_path p x y -> rho x <= rho y.
Proof.
  intros Hrk Hx H. induction H as [x | x y Hne H IH]; [lia|].
  destruct (Hrk x Hx) as (_ & Hp & Hup). specialize (Hup Hne).
  specialize (IH Hp). lia.
Qed.

Lemma on_path_dec p rho k x y :
  ranked p rho k -> 0 <= x < zlen p -> on_path p x y \/ ~ on_path p x y.
Proof.
  intros Hrk. remember (Z.to_nat (k - rho x)) as n eqn:Hn.
  revert x Hn. induction (lt_wf n) as [n _ IH]. intros x Hn Hx.
  destruct (decide (y = x)) as [-> | Hyx]; [left; constructor|].
  destruct (Hrk x Hx) as (Hrho & Hp & Hup).
  destruct (decide (vget 0 p x = x)) as [He | Hne].
  - right. intros H. by apply on_path_from_root in H.
  - specialize (Hup Hne).
    destruct (Hrk _ Hp) as (Hrho' & _ & _).
    destruct (IH (Z.to_nat (k - rho (vget 0 p x)))) with (x := vget 0 p x)
      as [Hon | Hoff]; [lia | done | done | |].
    + left. by constructor.
    + right. intros H. inversion H; subst; done.
Qed.

(** Compression keeps every root. *)
Lemma compressed_root p rho k x r p' y s :
  ranked p rho k ->
  root_of p x r -> compressed p x r p' -> root_of p y s -> root_of p' y s.
Proof.
  intros Hrk Hxr [Hlen Hc] Hys.
  assert (forall y, on_path p x y \/ ~ on_path p x y) as classic_on_path.
  { intros y'. eapply on_path_dec; [done|]. by eapply root_of_range. }
  assert (root_of p' r r) as Hrr.
  { destruct (root_of_is_root _ _ _ Hxr) as [Hr Her].
    apply root_here; [lia|]. apply Hc. by apply root_of_on_path. }
  induction Hys as [y Hy He | y s Hy Hne Hys IH].
  - apply root_here; [lia|].
    destruct (classic_on_path y) as [Hon | Hoff].
    + rewrite (proj1 (Hc y) Hon).
      pose proof (on_path_root _ _ _ _ Hon Hxr) as Hyr.
      inversion Hyr; subst; [done | congruence].
    + by rewrite (proj2 (Hc y) Hoff).
  - destruct (classic_on_path y) as [Hon | Hoff].
    + pose proof (on_path_root _ _ _ _ Hon Hxr) as Hyr.
      assert (s = r) as ->.
      { eapply root_of_inj; [|exact Hyr]. by apply root_up. }
      apply root_up; [lia | | ].
      * rewrite (proj1 (Hc y) Hon).
        destruct (root_of_is_root _ _ _ Hxr) as [_ Her]. congruence.
      * by rewrite (proj1 (Hc y) Hon).
    + apply root_up; [lia | | ]; rewrite (proj2 (Hc y) Hoff); done.
Qed.

End Roots.

Section FindRoot.
Implicit Types (p s : list Z) (x y r : Z).

Lemma compressed_ranked p rho k x r p' :
  ranked p rho k -> root_of p x r -> compressed p x r p' -> ranked p' rho k.
Proof.
  intros Hrk Hxr [Hlen Hc] y Hy. rewrite Hlen in *.
  destruct (Hrk y Hy) as (Hrho & Hp & Hup).
  destruct (on_path_dec p rho k x y Hrk (root_of_range _ _ _ Hxr)) as [Hon | Hoff].
  - rewrite (proj1 (Hc y) Hon).
    pose proof (on_path_root _ _ _ _ Hon Hxr) as Hyr.
    destruct (root_of_is_root _ _ _ Hyr) as [Hr _].
    split; [done|]. split; [done|]. intros Hne.
    apply (root_rank _ _ _ _ _ Hrk Hyr). congruence.
  - by rewrite (proj2 (Hc y) Hoff).
Qed.

Lemma compressed_refl p x : vget 0 p x = x -> compressed p x x p.
Proof.
  intros He. split; [done|]. intros y. split; [|done].
  intros H. apply on_path_from_root in H; [|done]. by subst.
Qed.

(** [findRoot] returns the root and re-parents the visited nodes to it,
    whenever the fuel exceeds the number of ranks above [x]. *)
Lemma findRoot_spec fuel p s rho k x :
  ranked p rho k -> 0 <= x < zlen p -> k - rho x < Z.of_nat fuel ->
  exists r p', findRoot fuel x (mkDisjointSet p s) = Some (r, mkDisjointSet p' s) /\
               root_of p x r /\ compressed p x r p'.
Proof.
  intros Hrk. revert x. induction fuel as [|fuel IH]; intros x Hx Hfuel.
  { destruct (Hrk x Hx) as (Hrho & _). lia. }
  destruct (Hrk x Hx) as (Hrho & Hp & Hup).
  simpl. destruct (Z.eqb_spec (vget 0 p x) x) as [He | Hne].
  - exists x, p. split; [done|]. split; [by constructor | by apply compressed_refl].
  - specialize (Hup Hne).
    destruct (IH (vget 0 p x)) as (r & p1 & Hrun & Hroot & Hlen & Hc); [done | lia |].
    exists r, (vset p1 x r). unfold ds_bind. rewrite Hrun. simpl.
    split; [done|]. split; [by constructor|].
    split; [by rewrite zlen_vset|].
    intros y. split.
    + intros Hon. destruct (decide (y = x)) as [-> | Hyx].
      * apply vget_vset_eq. lia.
      * rewrite vget_vset_ne by done. apply Hc.
        inversion Hon; subst; done.
    + intros Hoff. rewrite vget_vset_ne.
      * apply Hc. intros Hon. apply Hoff. by constructor.
      * intros ->. apply Hoff. constructor.
Qed.

Lemma roots_kept_refl p : roots_kept p p.
Proof. by split. Qed.

Lemma roots_kept_trans p1 p2 p3 :
  roots_kept p1 p2 -> roots_kept p2 p3 -> roots_kept p1 p3.
Proof. intros [H1 H2] [H3 H4]. split; [congruence | auto]. Qed.

Lemma compressed_roots_kept p rho k x r p' :
  ranked p rho k -> root_of p x r -> compressed p x r p' -> roots_kept p p'.
Proof.
  intros Hrk Hxr Hc. split; [apply Hc|].
  intros y t. by eapply compressed_root.
Qed.

Lemma roots_kept_same p p' rho k a b :
  ranked p rho k -> roots_kept p p' ->
  0 <= a < zlen p -> 0 <= b < zlen p ->
  (same p' a b <-> same p a b).
Proof.
  intros Hrk [Hlen Hk] Ha Hb. split.
  - intros (r & Har & Hbr).
    destruct (root_exists _ _ _ a Hrk Ha) as [ra Hra].
    destruct (root_exists _ _ _ b Hrk Hb) as [rb Hrb].
    pose proof (root_of_inj _ _ _ _ Har (Hk _ _ Hra)).
    pose proof (root_of_inj _ _ _ _ Hbr (Hk _ _ Hrb)).
    exists ra. split; [done|]. congruence.
  - intros (r & Har & Hbr). exists r. auto.
Qed.

(** Linking the root [rb] under the root [ra]. *)
Lemma link_root p ra rb y r :
  ra <> rb -> root_of p ra ra -> root_of p rb rb ->
  root_of p y r ->
  root_of (vset p rb ra) y (if decide (r = rb) then ra else r).
Proof.
  intros Hne Hra Hrb Hys.
  destruct (root_of_is_root _ _ _ Hra) as [Hain Hae].
  destruct (root_of_is_root _ _ _ Hrb) as [Hbin Hbe].
  assert (root_of (vset p rb ra) ra ra) as Hra'.
  { apply root_here; [by rewrite zlen_vset|]. by rewrite vget_vset_ne. }
  induction Hys as [y Hy He | y r Hy Hn Hys IH].
  - case_decide as Hd.
    + subst y. apply root_up; [by rewrite zlen_vset | |];
        rewrite vget_vset_eq by done; done.
    + apply root_here; [by rewrite zlen_vset|]. by rewrite vget_vset_ne.
  - assert (y <> rb) by congruence.
    apply root_up; [by rewrite zlen_vset | |]; rewrite vget_vset_ne by done; done.
Qed.

Lemma link_ranked p rho k ra rb :
  ranked p rho k -> ra <> rb -> root_of p ra ra -> root_of p rb rb ->
  ranked (vset p rb ra) (fun z => if decide (z = ra) then k + 1 else rho z) (k + 1).
Proof.
  intros Hrk Hne Hra Hrb x Hx. rewrite zlen_vset in *.
  destruct (root_of_is_root _ _ _ Hra) as [Hain Hae].
  destruct (root_of_is_root _ _ _ Hrb) as [Hbin Hbe].
  destruct (Hrk x Hx) as (Hrho & Hp & Hup).
  split; [case_decide; lia|].
  destruct (decide (x = rb)) as [-> | Hxb].
  - rewrite vget_vset_eq by done. split; [done|]. intros _.
    rewrite decide_False by done. rewrite decide_True by done. lia.
  - rewrite vget_vset_ne by done. split; [done|]. intros Hn.
    specialize (Hup Hn).
    destruct (Hrk _ Hp) as (Hrho' & _).
    rewrite (decide_False (P := x = ra)) by congruence.
    case_decide; lia.
Qed.

Lemma unite_spec fuel p s rho k a b :
  ranked p rho k -> 0 <= a < zlen p -> 0 <= b < zlen p -> k < Z.of_nat fuel ->
  exists ra rb p1 p2,
    root_of p a ra /\ root_of p b rb /\
    compressed p a ra p1 /\ compressed p1 b rb p2 /\
    unite fuel a b (mkDisjointSet p s) = Some (tt, united s p2 ra rb).
Proof.
  intros Hrk Ha Hb Hfuel.
  destruct (Hrk a Ha) as (Hrhoa & _). destruct (Hrk b Hb) as (Hrhob & _).
  destruct (findRoot_spec fuel p s rho k a Hrk Ha) as (ra & p1 & Hrun1 & Hra & Hc1); [lia|].
  pose proof (compressed_ranked _ _ _ _ _ _ Hrk Hra Hc1) as Hrk1.
  pose proof (compressed_roots_kept _ _ _ _ _ _ Hrk Hra Hc1) as [Hlen1 Hk1].
  destruct (findRoot_spec fuel p1 s rho k b Hrk1) as (rb & p2 & Hrun2 & Hrb & Hc2); [lia | lia |].
  destruct (root_exists _ _ _ b Hrk Hb) as [rb' Hrb'].
  assert (rb' = rb) as -> by (eapply root_of_inj; [apply Hk1|]; done).
  exists ra, rb, p1, p2. repeat (split; [done|]).
  unfold unite, ds_bind. rewrite Hrun1, Hrun2. unfold united.
  destruct (Z.eqb_spec ra rb) as [-> | Hne].
  - by rewrite decide_True.
  - rewrite decide_False by done. simpl.
    destruct (vget 0 s ra <? vget 0 s rb); reflexivity.
Qed.

End FindRoot.

(** * Undirected graphs as symmetric relations: paths, bridges, forests *)

Section Graphs.
Context {V : Type} `{EqDecision V}.
Implicit Types (R : relation V) (p q : list V) (u v a b : V).

Lemma is_path_cons R x y t : is_path R (x :: y :: t) <-> R x y /\ is_path R (y :: t).
Proof. done. Qed.

Lemma is_path_tail R x t : is_path R (x :: t) -> is_path R t.
Proof. destruct t; [done|]. by intros [_ ?]. Qed.

Lemma is_path_mono R R' p :
  (forall x y, x ∈ p -> y ∈ p -> R x y -> R' x y) -> is_path R p -> is_path R' p.
Proof.
  induction p as [|x [|y t] IH]; [done..|].
  intros Hsub [Hxy Ht]. split.
  - apply Hsub; [apply list_elem_of_here | apply list_elem_of_further, list_elem_of_here | done].
  - apply IH; [|done]. intros; apply Hsub; [by apply list_elem_of_further.. | done].
Qed.

Lemma is_path_app_r R p1 p2 : is_path R (p1 ++ p2) -> is_path R p2.
Proof.
  induction p1 as [|x p1 IH]; [done|]. intros H. apply IH.
  simpl in H. by apply is_path_tail in H.
Qed.

Lemma path_rtc R p u v : path_between R u v p -> rtc R u v.
Proof.
  revert u. induction p as [|x [|y t] IH]; intros u (Hp & Hh & Hl).
  - done.
  - simpl in *. by simplify_eq.
  - simpl in Hh. simplify_eq. destruct Hp as [Hxy Ht].
    eapply rtc_l; [done|]. apply IH. split; [done|]. split; [done|].
    by rewrite last_cons_cons in Hl.
Qed.

Lemma symmetric_rtc R : symmetric R -> symmetric (rtc R).
Proof.
  intros Hs x y H. induction H as [|x y z Hxy _ IH]; [done|].
  eapply rtc_trans; [done|]. apply rtc_once. by apply Hs.
Qed.

Lemma symmetric_without R a b : symmetric R -> symmetric (without R a b).
Proof. intros Hs x y [H Hn]. split; [by apply Hs | tauto]. Qed.

Lemma symmetric_with_edge R a b : symmetric R -> symmetric (with_edge R a b).
Proof. intros Hs x y [H | H]; [left; by apply Hs | right; tauto]. Qed.

Lemma rtc_sub R R' x y : (forall a b, R a b -> R' a b) -> rtc R x y -> rtc R' x y.
Proof. intros Hsub. induction 1; [done|]. eapply rtc_l; eauto. Qed.

(** A walk through a new edge splits at that edge. *)
Lemma rtc_with_edge R a b x y :
  symmetric R ->
  rtc (with_edge R a b) x y ->
  rtc R x y \/ (rtc R x a /\ rtc R b y) \/ (rtc R x b /\ rtc R a y).
Proof.
  intros Hs H. induction H as [x | x z y Hxz _ IH]; [by left|].
  assert (symmetric (rtc R)) as Hsr by by apply symmetric_rtc.
  destruct Hxz as [Hxz | [[-> ->] | [-> ->]]].
  - destruct IH as [IH | [[IH1 IH2] | [IH1 IH2]]].
    + left. by eapply rtc_l.
    + right; left. split; [by eapply rtc_l | done].
    + right; right. split; [by eapply rtc_l | done].
  - destruct IH as [IH | [[IH1 IH2] | [IH1 IH2]]].
    + right; left. done.
    + right; left. done.
    + left. done.
  - destruct IH as [IH | [[IH1 IH2] | [IH1 IH2]]].
    + right; right. done.
    + left. done.
    + right; right. done.
Qed.

Lemma rtc_with_edge_inv R a b x y :
  rtc R x y \/ (rtc R x a /\ rtc R b y) \/ (rtc R x b /\ rtc R a y) ->
  rtc (with_edge R a b) x y.
Proof.
  assert (forall s t, rtc R s t -> rtc (with_edge R a b) s t) as Hsub.
  { intros s t. apply rtc_sub. intros; by left. }
  intros [H | [[H1 H2] | [H1 H2]]]; [by apply Hsub | |].
  - eapply rtc_trans; [by apply Hsub|]. eapply rtc_l; [|by apply Hsub].
    right; left; done.
  - eapply rtc_trans; [by apply Hsub|]. eapply rtc_l; [|by apply Hsub].
    right; right; done.
Qed.

Lemma forest_irrefl R a : forest R -> ~ R a a.
Proof. intros Hf H. by apply (Hf a a H). Qed.

(** Joining two components by an edge keeps a forest a forest. *)
Lemma forest_with_edge R a b :
  symmetric R -> forest R -> ~ rtc R a b -> forest (with_edge R a b).
Proof.
  intros Hs Hf Hab c d Hcd Hrtc.
  assert (symmetric (rtc R)) as Hsr by by apply symmetric_rtc.
  destruct (decide ((c = a /\ d = b) \/ (c = b /\ d = a))) as [Hnew | Hold].
  - assert (rtc R c d) as Hc.
    { eapply rtc_sub; [|exact Hrtc]. intros x y [[H | H] Hn]; [done|].
      destruct Hnew as [[-> ->] | [-> ->]]; tauto. }
    destruct Hnew as [[-> ->] | [-> ->]]; [done | by apply Hab, Hsr].
  - destruct Hcd as [Hcd | Hcd]; [|tauto].
    assert (rtc (with_edge (without R c d) a b) c d) as Hc.
    { eapply rtc_sub; [|exact Hrtc]. intros x y [[H | H] Hn].
      - left. by split.
      - by right. }
    apply rtc_with_edge in Hc; [|by apply symmetric_without].
    assert (forall s t, rtc (without R c d) s t -> rtc R s t) as Hsub.
    { intros s t. apply rtc_sub. by intros ?? [? _]. }
    destruct Hc as [Hc | [[H1 H2] | [H1 H2]]].
    + by apply (Hf c d).
    + apply Hab. eapply rtc_trans; [apply Hsr, Hsub, H1|].
      eapply rtc_l; [exact Hcd|]. by apply Hsr, Hsub.
    + apply Hab, Hsr. eapply rtc_trans; [apply Hsr, Hsub, H1|].
      eapply rtc_l; [exact Hcd|]. by apply Hsr, Hsub.
Qed.

(** A path that avoids [x] survives the removal of an edge at [x]. *)
Lemma is_path_avoid R x y p :
  x ∉ p -> is_path R p -> is_path (without R x y) p.
Proof.
  intros Hx. apply is_path_mono. intros s t Hs Ht Hst. split; [done|].
  intros [[-> _] | [_ ->]]; done.
Qed.

Lemma path_between_cons_inv R u v x y t :
  path_between R u v (x :: y :: t) -> u = x /\ R x y /\ path_between R y v (y :: t).
Proof.
  intros ([Hxy Ht] & Hh & Hl). simpl in Hh. simplify_eq.
  rewrite last_cons_cons in Hl. done.
Qed.

(** In a forest two simple paths with the same ends are the same path. *)
Lemma forest_unique_path R u v p q :
  symmetric R -> forest R ->
  simple_path R u v p -> simple_path R u v q -> p = q.
Proof.
  intros Hs Hf. revert u q.
  induction p as [|x [|y p'] IH]; intros u q [Hp Hnp] [Hq Hnq].
  - by destruct Hp as (_ & ? & _).
  - destruct Hp as (_ & Hh & Hl). simpl in *. simplify_eq.
    destruct q as [|z [|w q']].
    + by destruct Hq as (_ & ? & _).
    + destruct Hq as (_ & Hh & _). simpl in *. by simplify_eq.
    + destruct Hq as (_ & Hh & Hl). simpl in Hh. simplify_eq.
      rewrite last_cons_cons in Hl. apply last_Some_elem_of in Hl.
      by apply NoDup_cons in Hnq as [? _].
  - apply path_between_cons_inv in Hp as (Hux & Hxy & Hp). subst u.
    apply NoDup_cons in Hnp as [Hxp Hnp].
    destruct q as [|z [|w q']].
    + by destruct Hq as (_ & ? & _).
    + destruct Hq as (_ & Hh & Hl). simpl in *. simplify_eq.
      destruct Hp as (_ & _ & Hl). by apply last_Some_elem_of in Hl.
    + apply path_between_cons_inv in Hq as (Hxz & Hzw & Hq). subst z.
      apply NoDup_cons in Hnq as [Hzq Hnq].
      destruct (decide (y = w)) as [-> | Hyw].
      * f_equal. by eapply IH.
      * exfalso. apply (Hf x y Hxy).
        assert (rtc (without R x y) y v) as H1.
        { apply (path_rtc _ (y :: p')). destruct Hp as (Hp & ? & ?).
          split; [by apply is_path_avoid | done]. }
        assert (rtc (without R x y) w v) as H2.
        { apply (path_rtc _ (w :: q')). destruct Hq as (Hq & ? & ?).
          split; [by apply is_path_avoid | done]. }
        assert (symmetric (rtc (without R x y))) as Hsr
          by by apply symmetric_rtc, symmetric_without.
        eapply rtc_l; [|eapply rtc_trans; [exact H2 | by apply Hsr]].
        split; [done|]. intros [[_ ->] | [-> ->]]; [done|].
        apply Hzq. apply elem_of_cons. by left.
Qed.

(** Every walk contains a simple path between its ends. *)
Lemma walk_simplify R u v w :
  path_between R u v w ->
  exists p, simple_path R u v p /\ (length p <= length w)%nat.
Proof.
  revert u. induction w as [|x [|y t] IH]; intros u Hw.
  - by destruct Hw as (_ & ? & _).
  - exists [x]. split; [|done]. split; [done|]. apply NoDup_singleton.
  - apply path_between_cons_inv in Hw as (Hux & Hxy & Hw). subst u.
    destruct (IH _ Hw) as (p & [Hp Hnp] & Hlen).
    destruct (decide (x ∈ p)) as [Hin | Hout].
    + apply list_elem_of_split in Hin as (p1 & p2 & ->).
      exists (x :: p2). split; [split|].
      * destruct Hp as (Hp & Hh & Hl). split; [by apply is_path_app_r in Hp|].
        split; [done|]. by rewrite last_app_cons in Hl.
      * by apply NoDup_app in Hnp as (_ & _ & ?).
      * rewrite length_app in Hlen. simpl in *. lia.
    + exists (x :: p). split; [split|].
      * destruct Hp as (Hp & Hh & Hl). destruct p as [|y' p]; [done|].
        simpl in Hh. simplify_eq. split; [done|]. split; [done|].
        by rewrite last_cons_cons.
      * by apply NoDup_cons.
      * simpl in *. lia.
Qed.

Lemma rtc_walk R u v : rtc R u v -> exists w, path_between R u v w.
Proof.
  induction 1 as [x | x y z Hxy _ (w & Hw & Hh & Hl)].
  - by exists [x].
  - destruct w as [|y' w]; [done|]. simpl in Hh. simplify_eq.
    exists (x :: y :: w). split; [done|]. split; [done|].
    by rewrite last_cons_cons.
Qed.

Lemma rtc_simple_path R u v : rtc R u v -> exists p, simple_path R u v p.
Proof.
  intros H. apply rtc_walk in H as [w Hw].
  destruct (walk_simplify _ _ _ _ Hw) as (p & Hp & _). by exists p.
Qed.

Lemma is_path_snoc R p x y :
  is_path R (p ++ [x]) -> R x y -> is_path R ((p ++ [x]) ++ [y]).
Proof.
  induction p as [|a [|b t] IH]; intros Hp Hxy.
  - done.
  - simpl in *. destruct Hp as [Hax _]. done.
  - destruct Hp as [Hab Hp]. split; [done|]. by apply IH.
Qed.

Lemma is_path_reverse R p : symmetric R -> is_path R p -> is_path R (reverse p).
Proof.
  intros Hs. induction p as [|x [|y t] IH]; [done..|].
  intros [Hxy Ht]. specialize (IH Ht).
  rewrite reverse_cons. rewrite reverse_cons in IH |- *.
  apply is_path_snoc; [done | by apply Hs].
Qed.

Lemma simple_path_reverse R u v p :
  symmetric R -> simple_path R u v p -> simple_path R v u (reverse p).
Proof.
  intros Hs [(Hp & Hh & Hl) Hn]. split; [split; [|split]|].
  - by apply is_path_reverse.
  - by rewrite head_reverse.
  - by rewrite last_reverse.
  - by rewrite reverse_Permutation.
Qed.

End Graphs.

(** * The maze as a graph *)

Section MazeGraph.
Implicit Types (m : Maze) (u v a b c : Z).

Lemma directions_spec dir : dir ∈ directions <-> dir = 0 \/ dir = 1 \/ dir = 2 \/ dir = 3.
Proof.
  unfold directions. rewrite !elem_of_cons, elem_of_nil. tauto.
Qed.

Lemma inBounds_spec W H x y : inBounds W H x y = true <-> 0 <= x < W /\ 0 <= y < H.
Proof.
  unfold inBounds. rewrite negb_true_iff, !orb_false_iff.
  rewrite Z.ltb_ge, Z.ltb_ge.
  destruct (Z.geb_spec x W), (Z.geb_spec y H); split; intros; try lia;
    intuition (try lia; try congruence).
Qed.

Lemma passage_opened m u v :
  0 < mazeW m -> (passage m u v <-> opened m u v \/ opened m v u).
Proof.
  intros HW. split.
  - intros [Hu (dir & Hdir & Hb & Hcan & ->)].
    destruct (cellPt_range _ _ _ HW Hu) as [Hx Hy].
    pose proof (cellId_cellPt (mazeW m) u HW ltac:(unfold cellIn in Hu; lia)) as Hid.
    set (x := px (cellPt u (mazeW m))) in *. set (y := py (cellPt u (mazeW m))) in *.
    apply inBounds_spec in Hb. apply directions_spec in Hdir.
    unfold canMove in Hcan. unfold nextX, nextY, b2z in *.
    destruct Hdir as [-> | [-> | [-> | ->]]]; simpl in *.
    + right. exists x, (y - 1).
      destruct (Z.eqb_spec y 0); [done|]. apply negb_true_iff in Hcan.
      repeat (split; [unfold cellId in *; lia|]). right.
      split; [lia|]. split; [unfold cellId in *; lia | done].
    + left. exists x, y.
      destruct (Z.geb_spec (x + 1) (mazeW m)); [done|]. apply negb_true_iff in Hcan.
      repeat (split; [unfold cellId in *; lia|]). left.
      split; [lia|]. split; [unfold cellId in *; lia | done].
    + left. exists x, y.
      destruct (Z.geb_spec (y + 1) (mazeH m)); [done|]. apply negb_true_iff in Hcan.
      repeat (split; [unfold cellId in *; lia|]). right.
      split; [lia|]. split; [unfold cellId in *; lia | done].
    + right. exists (x - 1), y.
      destruct (Z.eqb_spec x 0); [done|]. apply negb_true_iff in Hcan.
      repeat (split; [unfold cellId in *; lia|]). left.
      split; [lia|]. split; [unfold cellId in *; lia | done].
  - intros [(x & y & Hx & Hy & -> & Hc) | (x & y & Hx & Hy & -> & Hc)].
    + split; [by apply cellId_range|].
      rewrite cellPt_cellId by lia. simpl.
      destruct Hc as [(Hx1 & -> & Hw) | (Hy1 & -> & Hw)].
      * exists 1. split; [apply directions_spec; lia|].
        unfold nextX, nextY, b2z, canMove; simpl.
        split; [apply inBounds_spec; lia|].
        destruct (Z.geb_spec (x + 1) (mazeW m)); [lia|]. rewrite Hw.
        split; [done|]. unfold cellId. lia.
      * exists 2. split; [apply directions_spec; lia|].
        unfold nextX, nextY, b2z, canMove; simpl.
        split; [apply inBounds_spec; lia|].
        destruct (Z.geb_spec (y + 1) (mazeH m)); [lia|]. rewrite Hw.
        split; [done|]. unfold cellId. lia.
    + destruct Hc as [(Hx1 & -> & Hw) | (Hy1 & -> & Hw)].
      * replace (cellId x y (mazeW m) + 1) with (cellId (x + 1) y (mazeW m))
          by (unfold cellId; lia).
        split; [apply cellId_range; lia|].
        rewrite cellPt_cellId by lia. simpl.
        exists 3. split; [apply directions_spec; lia|].
        unfold nextX, nextY, b2z, canMove; simpl.
        split; [apply inBounds_spec; lia|].
        destruct (Z.eqb_spec (x + 1) 0); [lia|].
        replace (x + 1 - 1) with x by lia. rewrite Hw.
        split; [done|]. unfold cellId. lia.
      * replace (cellId x y (mazeW m) + mazeW m) with (cellId x (y + 1) (mazeW m))
          by (unfold cellId; lia).
        split; [apply cellId_range; lia|].
        rewrite cellPt_cellId by lia. simpl.
        exists 0. split; [apply directions_spec; lia|].
        unfold nextX, nextY, b2z, canMove; simpl.
        split; [apply inBounds_spec; lia|].
        destruct (Z.eqb_spec (y + 1) 0); [lia|].
        replace (y + 1 - 1) with y by lia. rewrite Hw.
        split; [done|]. unfold cellId. lia.
Qed.

Lemma passage_symmetric m : 0 < mazeW m -> symmetric (passage m).
Proof.
  intros HW u v H. apply (passage_opened m u v HW) in H.
  apply (passage_opened m v u HW). tauto.
Qed.

Lemma opened_cells m a b : opened m a b -> cellIn m a /\ cellIn m b.
Proof.
  intros (x & y & Hx & Hy & -> & Hc). split; [by apply cellId_range|].
  destruct Hc as [(Hx1 & -> & _) | (Hy1 & -> & _)].
  - replace (cellId x y (mazeW m) + 1) with (cellId (x + 1) y (mazeW m))
      by (unfold cellId; lia). apply cellId_range; lia.
  - replace (cellId x y (mazeW m) + mazeW m) with (cellId x (y + 1) (mazeW m))
      by (unfold cellId; lia). apply cellId_range; lia.
Qed.

Lemma passage_cells m u v : 0 < mazeW m -> passage m u v -> cellIn m u /\ cellIn m v.
Proof.
  intros HW H. apply (passage_opened m u v HW) in H as [H | H];
    apply opened_cells in H; tauto.
Qed.

Lemma rtc_passage_cells m u v :
  0 < mazeW m -> rtc (passage m) u v -> cellIn m u -> cellIn m v.
Proof.
  intros HW H. induction H as [|u w v Huw _ IH]; [done|].
  intros _. apply IH. by apply passage_cells in Huw as [_ ?].
Qed.

End MazeGraph.

(** * Counting with filters *)

Section Counting.
Context {A : Type}.
Implicit Types (l : list A) (P Q : A -> Prop).

Lemma filter_length_ext P Q `{!forall x, Decision (P x)} `{!forall x, Decision (Q x)} l :
  (forall x, x ∈ l -> (P x <-> Q x)) ->
  length (filter P l) = length (filter Q l).
Proof.
  induction l as [|a l IH]; intros Hext; [done|].
  rewrite !filter_cons.
  assert (P a <-> Q a) as Ha by (apply Hext, list_elem_of_here).
  assert (length (filter P l) = length (filter Q l)) as Hl.
  { apply IH. intros x Hx. by apply Hext, list_elem_of_further. }
  destruct (decide (P a)), (decide (Q a)); simpl; try tauto; by rewrite Hl.
Qed.

Lemma filter_length_drop P Q `{!forall x, Decision (P x)} `{!forall x, Decision (Q x)} l z :
  NoDup l -> z ∈ l -> P z -> ~ Q z ->
  (forall x, x ∈ l -> x <> z -> (P x <-> Q x)) ->
  length (filter P l) = S (length (filter Q l)).
Proof.
  induction l as [|a l IH]; intros Hnd Hz HP HQ Hext; [by apply elem_of_nil in Hz|].
  apply NoDup_cons in Hnd as [Ha Hnd]. rewrite !filter_cons.
  apply elem_of_cons in Hz as [<- | Hz].
  - rewrite decide_True by done. rewrite decide_False by done. simpl. f_equal.
    apply filter_length_ext. intros x Hx. apply Hext; [by apply list_elem_of_further|].
    intros ->. done.
  - assert (a <> z) as Haz by (intros ->; done).
    assert (P a <-> Q a) as Hiff by (apply Hext; [apply list_elem_of_here | done]).
    assert (length (filter P l) = S (length (filter Q l))) as Hl.
    { apply IH; try done. intros x Hx. by apply Hext, list_elem_of_further. }
    destruct (decide (P a)), (decide (Q a)); simpl; try tauto; by rewrite Hl.
Qed.

Lemma filter_length_none P `{!forall x, Decision (P x)} l :
  (forall x, x ∈ l -> ~ P x) -> length (filter P l) = 0%nat.
Proof.
  induction l as [|a l IH]; intros Hn; [done|].
  rewrite filter_cons. rewrite decide_False by apply Hn, list_elem_of_here.
  apply IH. intros x Hx. by apply Hn, list_elem_of_further.
Qed.

Lemma filter_length_one P `{!forall x, Decision (P x)} l z :
  NoDup l -> z ∈ l -> P z -> (forall x, x ∈ l -> P x -> x = z) ->
  length (filter P l) = 1%nat.
Proof.
  induction l as [|a l IH]; intros Hnd Hz HP Huniq; [by apply elem_of_nil in Hz|].
  apply NoDup_cons in Hnd as [Ha Hnd]. rewrite filter_cons.
  apply elem_of_cons in Hz as [<- | Hz].
  - rewrite decide_True by done. simpl. f_equal.
    apply filter_length_none. intros x Hx Hpx.
    assert (x = z) as -> by (apply Huniq; [by apply list_elem_of_further | done]).
    done.
  - rewrite decide_False.
    + apply IH; try done. intros x Hx. by apply Huniq, list_elem_of_further.
    + intros Hpa. assert (a = z) as -> by (apply Huniq; [apply list_elem_of_here | done]).
      done.
Qed.

End Counting.

(** * Wall grids *)

Section Walls.
Implicit Types (g : list (list bool)) (x y : Z).

Lemma wallAt_setWall g x0 y0 b x y :
  0 <= x0 < zlen g ->
  0 <= y0 < zlen (vget [] g x0) ->
  wallAt (setWall g x0 y0 b) x y =
    if decide (x = x0 /\ y = y0) then b else wallAt g x y.
Proof.
  intros Hx0 Hy0. unfold wallAt, setWall.
  destruct (decide (x = x0)) as [-> | Hx].
  - rewrite vget_vset_eq by done.
    destruct (decide (y = y0)) as [-> | Hy].
    + rewrite decide_True by done. by apply vget_vset_eq.
    + rewrite decide_False by tauto. by apply vget_vset_ne.
  - rewrite decide_False by tauto. by rewrite vget_vset_ne.
Qed.

Lemma grid_ok_setWall W H g x0 y0 b :
  grid_ok W H g -> grid_ok W H (setWall g x0 y0 b).
Proof.
  intros [Hlen Hrows]. unfold setWall. split; [by rewrite zlen_vset|].
  intros x Hx. destruct (decide (x0 = x)) as [-> | Hne].
  - rewrite vget_vset_eq by lia. rewrite zlen_vset. by apply Hrows.
  - rewrite vget_vset_ne by done. by apply Hrows.
Qed.

Lemma count_false_insert (row : list bool) (j : nat) :
  row !! j = Some true ->
  length (filter (fun b => b = false) (<[j := false]> row)) =
  S (length (filter (fun b => b = false) row)).
Proof.
  intros Hj. pose proof (lookup_lt_Some _ _ _ Hj) as Hlt.
  rewrite insert_take_drop by done.
  rewrite <- (take_drop_middle row j true Hj) at 3.
  rewrite !filter_app, !filter_cons, !length_app.
  rewrite decide_True by done. rewrite decide_False by done. simpl. lia.
Qed.

Lemma countFalse_setWall g x y :
  0 <= x < zlen g -> 0 <= y < zlen (vget [] g x) ->
  wallAt g x y = true ->
  countFalse (setWall g x y false) = countFalse g + 1.
Proof.
  intros Hx Hy Hw. unfold countFalse, setWall, wallAt in *.
  pose proof (vget_lookup [] g x Hx) as Hrow.
  pose proof (vget_lookup true (vget [] g x) y Hy) as Hcell. rewrite Hw in Hcell.
  set (row := vget [] g x) in *.
  unfold vset. destruct (Z.leb_spec 0 x); [|lia]. destruct (Z.leb_spec 0 y); [|lia].
  pose proof (lookup_lt_Some _ _ _ Hrow) as Hlt.
  rewrite insert_take_drop by done.
  rewrite <- (take_drop_middle g (Z.to_nat x) row Hrow) at 3.
  rewrite !concat_app, !concat_cons, !filter_app, !length_app.
  rewrite (count_false_insert row _ Hcell). lia.
Qed.

Lemma countFalse_fresh (w h : nat) : countFalse (replicate w (replicate h true)) = 0.
Proof.
  unfold countFalse.
  assert (filter (fun b => b = false) (replicate h true) = []) as Hrow.
  { induction h as [|h IH]; [done|]. simpl. rewrite filter_cons.
    by rewrite decide_False. }
  induction w as [|w IH]; [done|].
  simpl. rewrite filter_app, Hrow. simpl. apply IH.
Qed.

Lemma grid_ok_fresh (W H : Z) :
  0 <= W -> 0 <= H ->
  grid_ok W H (replicate (Z.to_nat W) (replicate (Z.to_nat H) true)).
Proof.
  intros HW HH. split; [rewrite zlen_replicate; lia|].
  intros x Hx. rewrite vget_replicate by lia. rewrite zlen_replicate. lia.
Qed.

Lemma wallAt_fresh (W H : Z) x y :
  0 <= x < W -> 0 <= y < H ->
  wallAt (replicate (Z.to_nat W) (replicate (Z.to_nat H) true)) x y = true.
Proof.
  intros Hx Hy. unfold wallAt.
  rewrite vget_replicate by lia. by rewrite vget_replicate by lia.
Qed.

End Walls.

(** * The candidate edges *)

Lemma elem_of_allEdges W H e :
  e ∈ allEdges W H <->
  0 <= ex e < W /\ 0 <= ey e < H /\
  ((edir e = 1 /\ ex e + 1 < W) \/ (edir e = 2 /\ ey e + 1 < H)).
Proof.
  unfold allEdges. rewrite list_elem_of_bind. split.
  - intros (y & Hin & Hy). apply list_elem_of_bind in Hin as (x & Hin & Hx).
    apply elem_of_seqZ in Hx, Hy. unfold cellEdges in Hin.
    apply elem_of_app in Hin as [Hin | Hin].
    + destruct (Z.ltb_spec (x + 1) W); [|by apply elem_of_nil in Hin].
      apply list_elem_of_singleton in Hin as ->. simpl. lia.
    + destruct (Z.ltb_spec (y + 1) H); [|by apply elem_of_nil in Hin].
      apply list_elem_of_singleton in Hin as ->. simpl. lia.
  - intros (Hx & Hy & Hd). exists (ey e). split; [|apply elem_of_seqZ; lia].
    apply list_elem_of_bind. exists (ex e). split; [|apply elem_of_seqZ; lia].
    unfold cellEdges. apply elem_of_app. destruct e as [x y d]. simpl in *.
    destruct Hd as [[-> Hlt] | [-> Hlt]].
    + left. destruct (Z.ltb_spec (x + 1) W); [|lia]. by apply list_elem_of_singleton.
    + right. destruct (Z.ltb_spec (y + 1) H); [|lia]. by apply list_elem_of_singleton.
Qed.

(** * Counting components *)

Section RootCount.
Implicit Types (p : list Z) (x y r a b : Z).

Lemma rootCount_compressed p rho k x r p' :
  ranked p rho k -> root_of p x r -> compressed p x r p' ->
  rootCount p' = rootCount p.
Proof.
  intros Hrk Hxr Hc. pose proof Hc as [Hlen Hch]. unfold rootCount. rewrite Hlen. f_equal.
  apply filter_length_ext. intros i Hi. apply elem_of_seqZ in Hi.
  destruct (on_path_dec p rho k x i Hrk (root_of_range _ _ _ Hxr)) as [Hon | Hoff].
  - rewrite (proj1 (Hch i) Hon).
    pose proof (on_path_root _ _ _ _ Hon Hxr) as Hir.
    destruct (root_of_is_root _ _ _ Hir) as [_ Her]. split.
    + intros <-. done.
    + intros He. inversion Hir; subst; [done | congruence].
  - by rewrite (proj2 (Hch i) Hoff).
Qed.

Lemma rootCount_link p ra rb :
  ra <> rb -> root_of p ra ra -> root_of p rb rb ->
  rootCount (vset p rb ra) = rootCount p - 1.
Proof.
  intros Hne Hra Hrb.
  destruct (root_of_is_root _ _ _ Hrb) as [Hbin Hbe].
  unfold rootCount. rewrite zlen_vset.
  rewrite (filter_length_drop (fun i => vget 0 p i = i)
             (fun i => vget 0 (vset p rb ra) i = i) (seqZ 0 (zlen p)) rb).
  - lia.
  - apply NoDup_seqZ.
  - apply elem_of_seqZ. lia.
  - done.
  - rewrite vget_vset_eq by done. done.
  - intros i _ Hi. by rewrite vget_vset_ne.
Qed.

Lemma rootCount_init n : 0 <= n -> rootCount (seqZ 0 n) = n.
Proof.
  intros Hn. unfold rootCount. rewrite zlen_seqZ by done.
  rewrite (filter_length_ext _ (fun _ => True)).
  - assert (forall l : list Z, filter (fun _ => True) l = l) as Hall.
    { induction l as [|a l IH]; [done|]. rewrite filter_cons. simpl. by rewrite IH. }
    rewrite Hall, length_seqZ. lia.
  - intros i Hi. apply elem_of_seqZ in Hi. by rewrite vget_seqZ by lia.
Qed.

Lemma rootCount_pos p x r : root_of p x r -> 1 <= rootCount p.
Proof.
  intros H. destruct (root_of_is_root _ _ _ H) as [Hr He]. unfold rootCount.
  assert (r ∈ filter (fun i => vget 0 p i = i) (seqZ 0 (zlen p))) as Hin.
  { apply list_elem_of_filter. split; [done|]. apply elem_of_seqZ. lia. }
  destruct (filter _ _) as [|z l]; [by apply elem_of_nil in Hin|].
  change (length (z :: l)) with (S (length l)). lia.
Qed.

Lemma rootCount_one p r :
  0 < zlen p -> (forall x, 0 <= x < zlen p -> root_of p x r) -> rootCount p = 1.
Proof.
  intros Hlen Hall. unfold rootCount.
  assert (root_of p 0 r) as H0 by (apply Hall; lia).
  destruct (root_of_is_root _ _ _ H0) as [Hr He].
  rewrite (filter_length_one _ _ r); [done | apply NoDup_seqZ | | done |].
  - apply elem_of_seqZ. lia.
  - intros x Hx Hex. apply elem_of_seqZ in Hx.
    apply (root_of_inj p x); [|apply Hall; lia]. apply root_here; [lia | done].
Qed.

(** Which nodes share a component once the root [r2] hangs under [r1]. *)
Lemma same_link p rho k r1 r2 a b x y :
  ranked p rho k -> r1 <> r2 ->
  (root_of p a r1 /\ root_of p b r2) \/ (root_of p a r2 /\ root_of p b r1) ->
  0 <= x < zlen p -> 0 <= y < zlen p ->
  (same (vset p r2 r1) x y <->
   same p x y \/ (same p x a /\ same p b y) \/ (same p x b /\ same p a y)).
Proof.
  intros Hrk Hne Hab Hx Hy.
  assert (root_of p r1 r1 /\ root_of p r2 r2) as [Hr1 Hr2].
  { destruct Hab as [[H1 H2] | [H1 H2]];
      destruct (root_of_is_root _ _ _ H1), (root_of_is_root _ _ _ H2);
      split; by apply root_here. }
  pose proof (fun z s => link_root p r1 r2 z s Hne Hr1 Hr2) as Hlink.
  destruct (root_exists _ _ _ x Hrk Hx) as [sx Hsx].
  destruct (root_exists _ _ _ y Hrk Hy) as [sy Hsy].
  pose proof (Hlink _ _ Hsx) as Hsx'. pose proof (Hlink _ _ Hsy) as Hsy'.
  assert (forall z s t, root_of p z s -> root_of p z t -> s = t) as Hinj
    by (intros; by eapply root_of_inj).
  split.
  - intros (r & Hxr & Hyr).
    pose proof (root_of_inj _ _ _ _ Hxr Hsx') as E1.
    pose proof (root_of_inj _ _ _ _ Hyr Hsy') as E2.
    destruct (decide (sx = sy)) as [-> | Hdiff]; [left; by exists sy|].
    right.
    assert ((sx = r1 /\ sy = r2) \/ (sx = r2 /\ sy = r1)) as Hcase.
    { subst r. repeat case_decide; subst; try tauto; congruence. }
    destruct Hab as [[Ha Hb] | [Ha Hb]], Hcase as [[-> ->] | [-> ->]].
    + left. split; [by exists r1 | by exists r2].
    + right. split; [by exists r2 | by exists r1].
    + right. split; [by exists r1 | by exists r2].
    + left. split; [by exists r2 | by exists r1].
  - assert (forall z s, root_of p z s -> (s = r1 \/ s = r2) -> root_of (vset p r2 r1) z r1)
      as Hmerge.
    { intros z s Hz Hs. pose proof (Hlink _ _ Hz) as Hz'.
      case_decide; [done|]. destruct Hs; [by subst | done]. }
    intros [(r & Hxr & Hyr) | [[(r & Hxr & Har) (r' & Hbr & Hyr)]
                              | [(r & Hxr & Hbr) (r' & Har & Hyr)]]].
    + eexists. split; by apply Hlink.
    + assert ((r = r1 \/ r = r2) /\ (r' = r1 \/ r' = r2)) as [Hr Hr'].
      { destruct Hab as [[Ha Hb] | [Ha Hb]];
          rewrite (Hinj _ _ _ Har Ha), (Hinj _ _ _ Hbr Hb); tauto. }
      exists r1. split; [by apply (Hmerge x r) | by apply (Hmerge y r')].
    + assert ((r = r1 \/ r = r2) /\ (r' = r1 \/ r' = r2)) as [Hr Hr'].
      { destruct Hab as [[Ha Hb] | [Ha Hb]];
          rewrite (Hinj _ _ _ Har Ha), (Hinj _ _ _ Hbr Hb); tauto. }
      exists r1. split; [by apply (Hmerge x r) | by apply (Hmerge y r')].
Qed.

(** A freshly built structure: every node is its own root. *)
Lemma root_of_init n x r : 0 <= n -> root_of (seqZ 0 n) x r <-> 0 <= x < n /\ r = x.
Proof.
  intros Hn. split.
  - intros H. pose proof (root_of_range _ _ _ H) as Hx. rewrite zlen_seqZ in Hx by done.
    split; [done|]. inversion H; subst; [done|].
    rewrite vget_seqZ in * by done. done.
  - intros [Hx ->]. apply root_here; [by rewrite zlen_seqZ | by apply vget_seqZ].
Qed.

Lemma ranked_init n : 0 <= n -> ranked (seqZ 0 n) (fun _ => 0) 0.
Proof.
  intros Hn x Hx. rewrite zlen_seqZ in Hx by done. rewrite zlen_seqZ by done.
  rewrite vget_seqZ by done. split; [lia|]. split; [lia | done].
Qed.

End RootCount.

(** * The operations on a ranked structure *)

Section Operations.
Implicit Types (p s : list Z) (x y r a b : Z).

Lemma findRoot_keeps fuel p s rho k x :
  ranked p rho k -> 0 <= x < zlen p -> k < Z.of_nat fuel ->
  exists r p', findRoot fuel x (mkDisjointSet p s) = Some (r, mkDisjointSet p' s) /\
    root_of p x r /\ roots_kept p p' /\ ranked p' rho k /\ rootCount p' = rootCount p.
Proof.
  intros Hrk Hx Hfuel. destruct (Hrk x Hx) as (Hrho & _).
  destruct (findRoot_spec fuel p s rho k x Hrk Hx) as (r & p' & Hrun & Hr & Hc); [lia|].
  exists r, p'. split; [done|]. split; [done|].
  split; [by eapply compressed_roots_kept|].
  split; [by eapply compressed_ranked | by eapply rootCount_compressed].
Qed.

Lemma unite_noop fuel p s rho k a b :
  ranked p rho k -> 0 <= a < zlen p -> 0 <= b < zlen p -> k < Z.of_nat fuel ->
  same p a b ->
  exists p', unite fuel a b (mkDisjointSet p s) = Some (tt, mkDisjointSet p' s) /\
    roots_kept p p' /\ ranked p' rho k /\ rootCount p' = rootCount p.
Proof.
  intros Hrk Ha Hb Hfuel (r & Har & Hbr).
  destruct (unite_spec fuel p s rho k a b Hrk Ha Hb Hfuel)
    as (ra & rb & p1 & p2 & Hra & Hrb & Hc1 & Hc2 & Hrun).
  assert (ra = r) as -> by by eapply root_of_inj.
  assert (rb = r) as -> by by eapply root_of_inj.
  pose proof (compressed_ranked _ _ _ _ _ _ Hrk Hra Hc1) as Hrk1.
  pose proof (compressed_roots_kept _ _ _ _ _ _ Hrk Hra Hc1) as Hk1.
  assert (root_of p1 b r) as Hrb1 by by apply Hk1.
  exists p2. unfold united in Hrun. rewrite decide_True in Hrun by done.
  split; [done|]. split; [|split].
  - eapply roots_kept_trans; [exact Hk1|]. by eapply compressed_roots_kept.
  - by eapply compressed_ranked.
  - rewrite (rootCount_compressed p1 rho k b r p2) by done.
    by apply (rootCount_compressed p rho k a r p1).
Qed.

Lemma unite_merge fuel p s rho k a b :
  ranked p rho k -> 0 <= a < zlen p -> 0 <= b < zlen p -> k < Z.of_nat fuel ->
  ~ same p a b ->
  exists p' s' rho',
    unite fuel a b (mkDisjointSet p s) = Some (tt, mkDisjointSet p' s') /\
    zlen p' = zlen p /\ ranked p' rho' (k + 1) /\ rootCount p' = rootCount p - 1 /\
    forall x y, 0 <= x < zlen p -> 0 <= y < zlen p ->
      (same p' x y <->
       same p x y \/ (same p x a /\ same p b y) \/ (same p x b /\ same p a y)).
Proof.
  intros Hrk Ha Hb Hfuel Hdiff.
  destruct (unite_spec fuel p s rho k a b Hrk Ha Hb Hfuel)
    as (ra & rb & p1 & p2 & Hra & Hrb & Hc1 & Hc2 & Hrun).
  assert (ra <> rb) as Hne by (intros ->; apply Hdiff; by exists rb).
  pose proof (compressed_ranked _ _ _ _ _ _ Hrk Hra Hc1) as Hrk1.
  pose proof (compressed_roots_kept _ _ _ _ _ _ Hrk Hra Hc1) as Hk1.
  assert (root_of p1 b rb) as Hrb1 by by apply Hk1.
  pose proof (compressed_ranked _ _ _ _ _ _ Hrk1 Hrb1 Hc2) as Hrk2.
  pose proof (compressed_roots_kept _ _ _ _ _ _ Hrk1 Hrb1 Hc2) as Hk2.
  pose proof (roots_kept_trans _ _ _ Hk1 Hk2) as Hk.
  assert (rootCount p2 = rootCount p) as Hcount.
  { rewrite (rootCount_compressed p1 rho k b rb p2) by done.
    by apply (rootCount_compressed p rho k a ra p1). }
  destruct Hk as [Hlen Hkeep].
  pose proof (Hkeep _ _ Hra) as Hra2. pose proof (Hkeep _ _ Hrb) as Hrb2.
  destruct (root_of_is_root _ _ _ Hra2) as [Hrain Hrae].
  destruct (root_of_is_root _ _ _ Hrb2) as [Hrbin Hrbe].
  assert (root_of p2 ra ra) as Hraa by by apply root_here.
  assert (root_of p2 rb rb) as Hrbb by by apply root_here.
  assert (forall x y, 0 <= x < zlen p -> 0 <= y < zlen p -> (same p2 x y <-> same p x y))
    as Hsame.
  { intros x y Hx Hy. by eapply roots_kept_same. }
  unfold united in Hrun. rewrite decide_False in Hrun by done.
  destruct (vget 0 s ra <? vget 0 s rb).
  - eexists _, _, _. split; [exact Hrun|].
    split; [by rewrite zlen_vset|].
    split; [apply link_ranked; [done | by apply not_eq_sym | done | done]|].
    split; [rewrite rootCount_link by (try done; by apply not_eq_sym); lia|].
    intros x y Hx Hy.
    rewrite (same_link p2 rho k rb ra a b x y Hrk2) by first [lia | by apply not_eq_sym | by right].
    rewrite !Hsame by done. done.
  - eexists _, _, _. split; [exact Hrun|].
    split; [by rewrite zlen_vset|].
    split; [by apply link_ranked|].
    split; [rewrite rootCount_link by done; lia|].
    intros x y Hx Hy.
    rewrite (same_link p2 rho k ra rb a b x y Hrk2) by first [lia | done | by left].
    rewrite !Hsame by done. done.
Qed.

End Operations.

(** * Randomized Kruskal *)

Section RelationsExt.
Context {V : Type}.
Implicit Types (R : relation V).

Lemma rtc_ext R R' x y : (forall a b, R a b <-> R' a b) -> (rtc R x y <-> rtc R' x y).
Proof. intros He. split; apply rtc_sub; intros a b; apply He. Qed.

Lemma forest_ext R R' : (forall a b, R a b <-> R' a b) -> forest R -> forest R'.
Proof.
  intros He Hf a b Hab Hrtc. apply (Hf a b); [by apply He|].
  eapply rtc_sub; [|exact Hrtc]. intros x y [H Hn]. split; [by apply He | done].
Qed.

End RelationsExt.

Section RemoveWall.
Implicit Types (m : Maze) (e : Edge) (u v : Z).

Lemma edge_cells W H e :
  e ∈ allEdges W H ->
  edgeSrc W e = cellId (ex e) (ey e) W /\
  0 <= edgeSrc W e < W * H /\ 0 <= edgeDst W e < W * H.
Proof.
  intros He. apply elem_of_allEdges in He as (Hx & Hy & Hd).
  unfold edgeDst, edgeSrc, cellId.
  destruct Hd as [[-> Hlt] | [-> Hlt]]; simpl; repeat split; nia.
Qed.

Lemma opened_removeWall m e u v :
  grid_ok (mazeW m) (mazeH m) (hasRightWall m) ->
  grid_ok (mazeW m) (mazeH m) (hasDownWall m) ->
  e ∈ allEdges (mazeW m) (mazeH m) ->
  (opened (removeWall m e) u v <->
   opened m u v \/ (u = edgeSrc (mazeW m) e /\ v = edgeDst (mazeW m) e)).
Proof.
  intros [HRl HRr] [HDl HDr] He.
  apply elem_of_allEdges in He as (Hx & Hy & Hd).
  unfold removeWall, edgeDst, edgeSrc.
  destruct Hd as [[Hdir Hlt] | [Hdir Hlt]]; rewrite Hdir; simpl.
  - unfold opened; simpl. split.
    + intros (x & y & Hx' & Hy' & -> & Hc).
      rewrite wallAt_setWall in Hc by (rewrite ?HRr; lia).
      destruct Hc as [(Hx1 & -> & Hw) | Hc].
      * case_decide as Hd.
        -- right. destruct Hd as [-> ->]. unfold cellId. lia.
        -- left. exists x, y. repeat (split; [done|]). left. done.
      * left. exists x, y. repeat (split; [done|]). right. done.
    + intros [(x & y & Hx' & Hy' & -> & Hc) | [-> ->]].
      * exists x, y. repeat (split; [done|]).
        rewrite wallAt_setWall by (rewrite ?HRr; lia).
        destruct Hc as [(Hx1 & -> & Hw) | Hc]; [left | by right].
        repeat (split; [done|]). by case_decide.
      * exists (ex e), (ey e). repeat (split; [done|]). left.
        rewrite wallAt_setWall by (rewrite ?HRr; lia).
        rewrite decide_True by done. unfold cellId. done.
  - unfold opened; simpl. split.
    + intros (x & y & Hx' & Hy' & -> & Hc).
      rewrite wallAt_setWall in Hc by (rewrite ?HDr; lia).
      destruct Hc as [Hc | (Hy1 & -> & Hw)].
      * left. exists x, y. repeat (split; [done|]). left. done.
      * case_decide as Hd.
        -- right. destruct Hd as [-> ->]. unfold cellId. lia.
        -- left. exists x, y. repeat (split; [done|]). right. done.
    + intros [(x & y & Hx' & Hy' & -> & Hc) | [-> ->]].
      * exists x, y. repeat (split; [done|]).
        rewrite wallAt_setWall by (rewrite ?HDr; lia).
        destruct Hc as [Hc | (Hy1 & -> & Hw)]; [by left | right].
        repeat (split; [done|]). by case_decide.
      * exists (ex e), (ey e). repeat (split; [done|]). right.
        rewrite wallAt_setWall by (rewrite ?HDr; lia).
        rewrite decide_True by done. unfold cellId. done.
Qed.

Lemma removeWall_dims m e :
  mazeW (removeWall m e) = mazeW m /\ mazeH (removeWall m e) = mazeH m.
Proof. unfold removeWall. by destruct (edir e =? 1). Qed.

Lemma passage_removeWall m e u v :
  0 < mazeW m ->
  grid_ok (mazeW m) (mazeH m) (hasRightWall m) ->
  grid_ok (mazeW m) (mazeH m) (hasDownWall m) ->
  e ∈ allEdges (mazeW m) (mazeH m) ->
  (passage (removeWall m e) u v <->
   with_edge (passage m) (edgeSrc (mazeW m) e) (edgeDst (mazeW m) e) u v).
Proof.
  intros HW HR HD He.
  destruct (removeWall_dims m e) as [HW' HH'].
  rewrite passage_opened by lia. unfold with_edge.
  rewrite (passage_opened m) by done.
  rewrite !opened_removeWall by done. tauto.
Qed.

Lemma grid_ok_removeWall m e :
  grid_ok (mazeW m) (mazeH m) (hasRightWall m) ->
  grid_ok (mazeW m) (mazeH m) (hasDownWall m) ->
  grid_ok (mazeW m) (mazeH m) (hasRightWall (removeWall m e)) /\
  grid_ok (mazeW m) (mazeH m) (hasDownWall (removeWall m e)).
Proof.
  intros HR HD. unfold removeWall.
  destruct (edir e =? 1); simpl; split; try done; by apply grid_ok_setWall.
Qed.

(** Removing a wall that still stands adds one to the count. *)
Lemma removedWalls_removeWall m e :
  0 < mazeW m ->
  grid_ok (mazeW m) (mazeH m) (hasRightWall m) ->
  grid_ok (mazeW m) (mazeH m) (hasDownWall m) ->
  e ∈ allEdges (mazeW m) (mazeH m) ->
  ~ passage m (edgeSrc (mazeW m) e) (edgeDst (mazeW m) e) ->
  removedWalls (removeWall m e) = removedWalls m + 1.
Proof.
  intros HW [HRl HRr] [HDl HDr] He Hno.
  pose proof He as (Hx & Hy & Hd)%elem_of_allEdges.
  assert (~ opened m (edgeSrc (mazeW m) e) (edgeDst (mazeW m) e)) as Hclosed.
  { intros Ho. apply Hno. apply passage_opened; [done | by left]. }
  unfold removedWalls, removeWall.
  destruct Hd as [[Hdir Hlt] | [Hdir Hlt]]; rewrite Hdir; simpl.
  - rewrite countFalse_setWall; [lia | lia | rewrite HRr; lia |].
    destruct (wallAt (hasRightWall m) (ex e) (ey e)) eqn:Hw; [done|].
    exfalso. apply Hclosed. exists (ex e), (ey e).
    repeat (split; [done|]). left. unfold edgeDst, edgeSrc, cellId. rewrite Hdir. done.
  - rewrite countFalse_setWall; [lia | lia | rewrite HDr; lia |].
    destruct (wallAt (hasDownWall m) (ex e) (ey e)) eqn:Hw; [done|].
    exfalso. apply Hclosed. exists (ex e), (ey e).
    repeat (split; [done|]). right. unfold edgeDst, edgeSrc, cellId. rewrite Hdir. done.
Qed.

Lemma walls_inner_removeWall m e :
  grid_ok (mazeW m) (mazeH m) (hasRightWall m) ->
  grid_ok (mazeW m) (mazeH m) (hasDownWall m) ->
  e ∈ allEdges (mazeW m) (mazeH m) ->
  walls_inner m -> walls_inner (removeWall m e).
Proof.
  intros [HRl HRr] [HDl HDr] He Hin x y Hx Hy.
  destruct (removeWall_dims m e) as [HW' HH']. rewrite HW', HH' in *.
  apply elem_of_allEdges in He as (Hex & Hey & Hd).
  destruct (Hin x y Hx Hy) as [HinR HinD].
  unfold removeWall. destruct (Z.eqb_spec (edir e) 1) as [Hdir | Hdir]; simpl.
  - split; [|done]. rewrite wallAt_setWall by (rewrite ?HRr; lia).
    case_decide as Hdec; [|done]. destruct Hdec as [-> ->]. lia.
  - split; [done|]. rewrite wallAt_setWall by (rewrite ?HDr; lia).
    case_decide as Hdec; [|done]. destruct Hdec as [-> ->]. lia.
Qed.

End RemoveWall.

Section Kruskal.
Variables W H : Z.
Hypothesis HW : 0 < W.
Hypothesis HH : 0 < H.

Lemma kruskal_inv_bound done m ds rho k :
  kruskal_inv W H done m ds rho k -> 0 <= k < W * H.
Proof.
  intros Hi. destruct Hi.
  assert (0 <= 0 < zlen (parent ds)) as H0 by nia.
  destruct (ki_ranked0 0 H0) as (Hrho & _).
  destruct (root_exists _ _ _ 0 ki_ranked0 H0) as [r Hr].
  pose proof (rootCount_pos _ _ _ Hr). lia.
Qed.

Lemma kruskal_inv_init :
  kruskal_inv W H []
    (mkMaze W H (replicate (Z.to_nat W) (replicate (Z.to_nat H) true))
                (replicate (Z.to_nat W) (replicate (Z.to_nat H) true)))
    (DisjointSet_new (W * H)) (fun _ => 0) 0.
Proof.
  assert (0 <= W * H) as HN by nia.
  assert (forall u v,
    ~ passage (mkMaze W H (replicate (Z.to_nat W) (replicate (Z.to_nat H) true))
                 (replicate (Z.to_nat W) (replicate (Z.to_nat H) true))) u v) as Hnone.
  { intros u v Hp. apply passage_opened in Hp; [|done].
    destruct Hp as [Ho | Ho]; destruct Ho as (x & y & Hx & Hy & _ & Hc); simpl in *;
      rewrite !wallAt_fresh in Hc by done;
      destruct Hc as [(_ & _ & ?) | (_ & _ & ?)]; done. }
  split; simpl.
  - done.
  - done.
  - apply grid_ok_fresh; lia.
  - apply grid_ok_fresh; lia.
  - by apply zlen_seqZ.
  - by apply ranked_init.
  - rewrite rootCount_init by done. lia.
  - unfold removedWalls. simpl. rewrite countFalse_fresh. done.
  - intros x y Hx Hy. simpl in *. rewrite !wallAt_fresh by done. done.
  - intros a b Ha Hb. split.
    + intros (r & Har & Hbr). apply root_of_init in Har, Hbr; [|done..].
      destruct Har as [_ Hr1], Hbr as [_ Hr2].
      assert (a = b) as -> by congruence. done.
    + intros Hr. apply rtc_inv in Hr as [Heq | (c & Hac & _)]; [|by apply Hnone in Hac].
      subst b. exists a. split; by apply root_of_init.
  - intros a b Hab. by apply Hnone in Hab.
  - intros e He. by apply elem_of_nil in He.
Qed.

(** One iteration of the loop over the edges. *)
Lemma processEdge_inv fuel done m ds rho k e :
  kruskal_inv W H done m ds rho k ->
  e ∈ allEdges W H ->
  W * H <= Z.of_nat fuel ->
  exists m' ds' rho' k',
    processEdge fuel (m, ds) e = Some (m', ds') /\
    kruskal_inv W H (e :: done) m' ds' rho' k'.
Proof.
  intros Hinv He Hfuel.
  pose proof (kruskal_inv_bound _ _ _ _ _ Hinv) as Hk.
  destruct Hinv. destruct ds as [p s]. simpl in *.
  destruct (edge_cells W H e He) as (Hsrc & Ha & Hb).
  assert (symmetric (passage m)) as Hsym by (apply passage_symmetric; lia).
  unfold processEdge.
  change (ey e * mazeW m + ex e) with (edgeSrc (mazeW m) e).
  change (if edir e =? 1 then edgeSrc (mazeW m) e + 1
          else edgeSrc (mazeW m) e + mazeW m) with (edgeDst (mazeW m) e).
  rewrite ki_W0.
  set (a := edgeSrc W e) in *. set (b := edgeDst W e) in *.
  destruct (findRoot_keeps fuel p s rho k a ki_ranked0)
    as (ra & p1 & Hrun1 & Hra & Hk1 & Hrk1 & Hcnt1); [lia | lia |].
  destruct (findRoot_keeps fuel p1 s rho k b Hrk1)
    as (rb & p2 & Hrun2 & Hrb & Hk2 & Hrk2 & Hcnt2); [destruct Hk1; lia | lia |].
  pose proof (roots_kept_trans _ _ _ Hk1 Hk2) as Hkept.
  assert (forall x y, 0 <= x < W * H -> 0 <= y < W * H ->
            (same p2 x y <-> rtc (passage m) x y)) as Hsame2.
  { intros x y Hx Hy. rewrite <- ki_same0 by done.
    apply (roots_kept_same p p2 rho k); [done | done | lia | lia]. }
  assert (same p a b <-> ra = rb) as Hab.
  { split.
    - intros (r & Har & Hbr). destruct Hk1 as [_ Hk1].
      assert (r = ra) by (by apply (root_of_inj p a)).
      assert (r = rb) by (apply (root_of_inj p1 b); [by apply Hk1 | done]).
      congruence.
    - intros Heq. destruct (root_exists _ _ _ b ki_ranked0) as [r Hr]; [lia|].
      destruct Hk1 as [_ Hk1].
      assert (r = rb) by (apply (root_of_inj p1 b); [by apply Hk1 | done]).
      exists ra. split; [done | congruence]. }
  unfold ds_bind at 1. rewrite Hrun1. unfold ds_bind at 1. rewrite Hrun2.
  unfold ds_ret. destruct (Z.eqb_spec ra rb) as [Heq | Hne]; simpl.
  - (* the two cells are already connected: the edge is skipped *)
    exists m, (mkDisjointSet p2 s), rho, k. split; [done|].
    split; simpl; try done.
    + destruct Hkept; lia.
    + lia.
    + intros e' [-> | He']%elem_of_cons; [|by apply ki_done0].
      apply ki_same0; [done | done |]. by apply Hab.
  - (* a wall comes down and the two components are united *)
    assert (~ same p2 a b) as Hdiff.
    { rewrite Hsame2 by done. rewrite <- ki_same0 by done. by rewrite Hab. }
    destruct (unite_merge fuel p2 s rho k a b Hrk2)
      as (p' & s' & rho' & Hrun & Hlen' & Hrk' & Hcnt' & Hsame');
      [destruct Hkept; lia | destruct Hkept; lia | lia | done |].
    rewrite Hrun. exists (removeWall m e), (mkDisjointSet p' s'), rho', (k + 1).
    split; [done|].
    destruct (removeWall_dims m e) as [HW' HH'].
    assert (e ∈ allEdges (mazeW m) (mazeH m)) as He' by by rewrite ki_W0, ki_H0.
    assert (grid_ok (mazeW m) (mazeH m) (hasRightWall m)) as HR by by rewrite ki_W0, ki_H0.
    assert (grid_ok (mazeW m) (mazeH m) (hasDownWall m)) as HD by by rewrite ki_W0, ki_H0.
    assert (0 < mazeW m) as HWm by lia.
    assert (forall u v, passage (removeWall m e) u v <-> with_edge (passage m) a b u v)
      as Hpass.
    { intros u v. rewrite passage_removeWall by done. by rewrite ki_W0. }
    assert (~ rtc (passage m) a b) as Hnrtc.
    { rewrite <- ki_same0 by done. by rewrite Hab. }
    assert (forall x y, rtc (passage (removeWall m e)) x y <->
              rtc (passage m) x y \/ (rtc (passage m) x a /\ rtc (passage m) b y) \/
              (rtc (passage m) x b /\ rtc (passage m) a y)) as Hrtc.
    { intros x y. rewrite (rtc_ext _ _ x y Hpass). split.
      - by apply rtc_with_edge.
      - apply rtc_with_edge_inv. }
    destruct (grid_ok_removeWall m e HR HD) as [HR' HD'].
    split; simpl.
    + lia.
    + lia.
    + by rewrite <- ki_W0, <- ki_H0.
    + by rewrite <- ki_W0, <- ki_H0.
    + destruct Hkept; lia.
    + done.
    + lia.
    + rewrite removedWalls_removeWall; [lia | done..|].
      rewrite ki_W0. intros Hp. apply Hnrtc. by apply rtc_once.
    + by apply walls_inner_removeWall.
    + intros x y Hx Hy. rewrite Hrtc.
      rewrite Hsame' by (destruct Hkept; lia).
      rewrite !Hsame2 by done. done.
    + eapply forest_ext; [intros u v; symmetry; apply Hpass|].
      by apply forest_with_edge.
    + intros e' [-> | He'']%elem_of_cons.
      * apply rtc_once, Hpass. right. by left.
      * apply Hrtc. left. by apply ki_done0.
Qed.

Lemma processEdges_cons fuel st e edges :
  processEdges fuel st (e :: edges) =
  match processEdge fuel st e with
  | Some st' => processEdges fuel st' edges
  | None => None
  end.
Proof. done. Qed.

(** The whole loop. *)
Lemma processEdges_inv fuel edges : forall done m ds rho k,
  kruskal_inv W H done m ds rho k ->
  (forall e, e ∈ edges -> e ∈ allEdges W H) ->
  W * H <= Z.of_nat fuel ->
  exists m' ds' rho' k',
    processEdges fuel (m, ds) edges = Some (m', ds') /\
    kruskal_inv W H (reverse edges ++ done) m' ds' rho' k'.
Proof.
  induction edges as [|e edges IH]; intros done m ds rho k Hinv Hin Hfuel.
  - exists m, ds, rho, k. done.
  - destruct (processEdge_inv fuel done m ds rho k e Hinv) as (m1 & ds1 & rho1 & k1 & Hrun & Hinv1);
      [apply Hin, list_elem_of_here | done |].
    destruct (IH (e :: done) m1 ds1 rho1 k1 Hinv1) as (m' & ds' & rho' & k' & Hrun' & Hinv');
      [intros e' He'; by apply Hin, list_elem_of_further | done |].
    exists m', ds', rho', k'. rewrite processEdges_cons, Hrun. split; [done|].
    rewrite reverse_cons. by rewrite <- app_assoc.
Qed.

(** Once every candidate edge is handled, all cells are connected. *)
Lemma all_edges_connect m :
  mazeW m = W -> mazeH m = H ->
  (forall e, e ∈ allEdges W H -> rtc (passage m) (edgeSrc W e) (edgeDst W e)) ->
  forall c, 0 <= c < W * H -> rtc (passage m) 0 c.
Proof.
  intros HmW HmH Hall.
  assert (forall x : nat, Z.of_nat x < W -> rtc (passage m) 0 (cellId (Z.of_nat x) 0 W)) as Hrow.
  { induction x as [|x IH]; intros Hx; [done|].
    eapply rtc_trans; [apply IH; lia|].
    replace (cellId (Z.of_nat x) 0 W) with (edgeSrc W (mkEdge (Z.of_nat x) 0 1))
      by (unfold edgeSrc, cellId; simpl; lia).
    replace (cellId (Z.of_nat (S x)) 0 W) with (edgeDst W (mkEdge (Z.of_nat x) 0 1))
      by (unfold edgeDst, edgeSrc, cellId; simpl; lia).
    apply Hall, elem_of_allEdges. simpl. lia. }
  assert (forall y : nat, Z.of_nat y < H -> forall x, 0 <= x < W ->
            rtc (passage m) 0 (cellId x (Z.of_nat y) W)) as Hcol.
  { induction y as [|y IH]; intros Hy x Hx.
    - replace x with (Z.of_nat (Z.to_nat x)) by lia. apply Hrow. lia.
    - eapply rtc_trans; [apply (IH ltac:(lia) x Hx)|].
      replace (cellId x (Z.of_nat y) W) with (edgeSrc W (mkEdge x (Z.of_nat y) 2))
        by (unfold edgeSrc, cellId; simpl; lia).
      replace (cellId x (Z.of_nat (S y)) W) with (edgeDst W (mkEdge x (Z.of_nat y) 2))
        by (unfold edgeDst, edgeSrc, cellId; simpl; lia).
      apply Hall, elem_of_allEdges. simpl. lia. }
  intros c Hc. destruct (cellPt_range W H c HW Hc) as [Hx Hy].
  rewrite <- (cellId_cellPt W c) by lia.
  replace (py (cellPt c W)) with (Z.of_nat (Z.to_nat (py (cellPt c W)))) by lia.
  apply Hcol; [lia | done].
Qed.

End Kruskal.

(** * The spanning-tree invariant *)

Lemma forest_acyclic m : 0 < mazeW m -> forest (passage m) -> acyclic m.
Proof.
  intros HW Hf c (Hlen & Hnd & Hp & u & v & Hh & Hl & Hvu).
  assert (symmetric (passage m)) as Hsym by by apply passage_symmetric.
  destruct c as [|x [|y [|z t]]]; simpl in Hlen; try lia.
  simpl in Hh. simplify_eq.
  assert (u <> v) as Hne.
  { intros ->. apply NoDup_cons in Hnd as [Hx _]. apply Hx.
    rewrite last_cons_cons in Hl. by apply last_Some_elem_of in Hl. }
  assert (simple_path (passage m) u v (u :: y :: z :: t)) as H1 by done.
  assert (simple_path (passage m) u v [u; v]) as H2.
  { split; [split; [|done]|].
    - split; [by apply Hsym | done].
    - apply NoDup_cons. split; [|apply NoDup_singleton].
      by intros ->%list_elem_of_singleton. }
  pose proof (forest_unique_path _ _ _ _ _ Hsym Hf H1 H2). done.
Qed.

Lemma forest_unique_paths m :
  0 < mazeW m -> forest (passage m) -> connected m -> unique_paths m.
Proof.
  intros HW Hf Hc u v Hu Hv.
  assert (symmetric (passage m)) as Hsym by by apply passage_symmetric.
  destruct (rtc_simple_path _ _ _ (Hc u v Hu Hv)) as [p Hp].
  exists p. split; [done|]. intros q Hq. by eapply forest_unique_path.
Qed.

Section GenerateCorrect.
Variable shuffle : Z -> list Edge -> list Edge.
Hypothesis shuffle_perm : forall seed l, shuffle seed l ≡ₚ l.

Lemma generate_inv fuel now W H :
  0 < W -> 0 < H -> W * H <= Z.of_nat fuel ->
  exists m ds rho k,
    generate shuffle fuel now W H = Some m /\
    kruskal_inv W H (reverse (shuffle (now mod 2 ^ 32) (allEdges W H))) m ds rho k.
Proof.
  intros HW HH Hfuel. unfold generate, Maze_new.
  destruct (Z.ltb_spec W 0); [lia|]. destruct (Z.ltb_spec H 0); [lia|]. simpl.
  unfold generateRandom. simpl.
  destruct (processEdges_inv W H HW HH fuel (shuffle (now mod 2 ^ 32) (allEdges W H))
              [] _ _ _ _ (kruskal_inv_init W H HW HH)) as (m & ds & rho & k & Hrun & Hinv).
  - intros e He. by rewrite shuffle_perm in He.
  - done.
  - exists m, ds, rho, k. rewrite Hrun. split; [done|]. by rewrite app_nil_r in Hinv.
Qed.

Lemma generate_tree fuel now W H :
  0 < W -> 0 < H -> W * H <= Z.of_nat fuel ->
  exists m, generate shuffle fuel now W H = Some m /\
            mazeW m = W /\ mazeH m = H /\ spanning_tree m.
Proof.
  intros HW HH Hfuel.
  destruct (generate_inv fuel now W H HW HH Hfuel) as (m & ds & rho & k & Hrun & Hinv).
  exists m. split; [done|]. destruct Hinv.
  assert (symmetric (passage m)) as Hsym by (apply passage_symmetric; lia).
  assert (symmetric (rtc (passage m))) as Hsr by by apply symmetric_rtc.
  assert (forall c, 0 <= c < W * H -> rtc (passage m) 0 c) as Hfrom0.
  { apply all_edges_connect; try done. intros e He. apply ki_done0.
    by rewrite reverse_Permutation, shuffle_perm. }
  assert (connected m) as Hconn.
  { intros u v Hu Hv. unfold cellIn in *. rewrite ki_W0, ki_H0 in *.
    eapply rtc_trans; [apply Hsr, Hfrom0 | apply Hfrom0]; done. }
  split; [done|]. split; [done|]. split.
  - unfold maze_ok. rewrite ki_W0, ki_H0. done.
  - done.
  - done.
  - apply forest_acyclic; [lia | done].
  - rewrite ki_walls0, ki_W0, ki_H0.
    assert (rootCount (parent ds) = 1) as Hone; [|lia].
    assert (0 <= 0 < W * H) as H0 by nia.
    destruct (root_exists _ _ _ 0 ki_ranked0) as [r Hr]; [lia|].
    apply (rootCount_one _ r); [lia|]. intros x Hx. rewrite ki_len0 in Hx.
    assert (same (parent ds) 0 x) as (r' & Hr0 & Hrx) by (apply ki_same0; auto).
    by rewrite (root_of_inj _ _ _ _ Hr Hr0).
  - apply forest_unique_paths; [lia | done | done].
Qed.

End GenerateCorrect.

(** * What the four searches share *)

Section SearchCommon.
Variable m : Maze.
Hypothesis HW : 0 < mazeW m.
Hypothesis HH : 0 < mazeH m.
Local Abbreviation N := (mazeW m * mazeH m).

Lemma start_cellIn : cellIn m startCell.
Proof. unfold cellIn, startCell. nia. Qed.

Lemma goal_cellIn : cellIn m (goalCell m).
Proof. unfold goalCell. apply cellId_range; lia. Qed.

Lemma scan_passage u dir :
  cellIn m u -> dir ∈ directions ->
  inBounds (mazeW m) (mazeH m) (nextX (px (cellPt u (mazeW m))) dir)
    (nextY (py (cellPt u (mazeW m))) dir) = true ->
  canMove m (px (cellPt u (mazeW m))) (py (cellPt u (mazeW m))) dir = true ->
  passage m u (cellId (nextX (px (cellPt u (mazeW m))) dir)
                      (nextY (py (cellPt u (mazeW m))) dir) (mazeW m)).
Proof. intros Hu Hd Hb Hc. split; [done|]. by exists dir. Qed.

Lemma passage_cellIn_r u v : passage m u v -> cellIn m v.
Proof. intros H. by apply passage_cells in H as [_ ?]. Qed.

Lemma cells_size (s : gset Z) : (forall v, v ∈ s -> cellIn m v) -> Z.of_nat (size s) <= N.
Proof.
  intros Hs.
  assert (s ⊆ list_to_set (seqZ 0 N)) as Hsub.
  { intros v Hv. apply elem_of_list_to_set, elem_of_seqZ. specialize (Hs v Hv).
    unfold cellIn in Hs. lia. }
  apply subseteq_size in Hsub.
  rewrite size_list_to_set in Hsub by apply NoDup_seqZ.
  rewrite length_seqZ in Hsub. lia.
Qed.

Lemma cells_size_lt (s : gset Z) w :
  (forall v, v ∈ s -> cellIn m v) -> cellIn m w -> w ∉ s -> Z.of_nat (size s) < N.
Proof.
  intros Hs Hw Hout.
  assert (Z.of_nat (size ({[w]} ∪ s)) <= N) as Hle.
  { apply cells_size. intros v [->%elem_of_singleton | Hv]%elem_of_union; auto. }
  rewrite size_union in Hle by (apply disjoint_singleton_l; done).
  rewrite size_singleton in Hle. lia.
Qed.

Lemma size_insert_fresh (s : gset Z) w :
  w ∉ s -> size ({[w]} ∪ s) = S (size s).
Proof.
  intros Hout. rewrite size_union by (apply disjoint_singleton_l; done).
  by rewrite size_singleton.
Qed.

(** ** Reading the path off the parent pointers *)

Lemma markPath_tree par reached rank fuel v :
  tree_inv m par reached rank -> v ∈ reached -> rank v + 1 < Z.of_nat fuel ->
  exists l, markPath fuel par v = Some l /\
            simple_path (passage m) v startCell l /\
            forall x, x ∈ l -> x ∈ reached /\ rank x <= rank v.
Proof.
  intros Hinv. revert v. induction fuel as [|fuel IH]; intros v Hv Hfuel.
  { destruct (ti_rank _ _ _ _ Hinv v Hv). lia. }
  pose proof (ti_rank _ _ _ _ Hinv v Hv) as Hrk.
  pose proof (ti_cells _ _ _ _ Hinv v Hv) as Hcell.
  simpl. destruct (Z.eqb_spec v (-1)) as [-> | _]; [unfold cellIn in Hcell; lia|].
  destruct (decide (v = startCell)) as [-> | Hne].
  - rewrite (ti_start_par _ _ _ _ Hinv).
    destruct fuel as [|fuel]; [lia|]. simpl.
    exists [startCell]. split; [done|]. split.
    + split; [done | apply NoDup_singleton].
    + intros x ->%list_elem_of_singleton. split; [done | lia].
  - destruct (ti_parent _ _ _ _ Hinv v Hv Hne) as (Hu & Hpass & Hlt).
    destruct (IH _ Hu) as (l & Hrun & [(Hp & Hh & Hl) Hnd] & Hall); [lia|].
    rewrite Hrun. simpl. exists (v :: l). split; [done|].
    destruct l as [|u' l]; [done|]. simpl in Hh. simplify_eq.
    split; [split; [split; [|split]|]|].
    + split; [|done]. by apply passage_symmetric.
    + done.
    + by rewrite last_cons_cons.
    + apply NoDup_cons. split; [|done]. intros Hin.
      destruct (Hall v Hin) as [_ ?]. lia.
    + intros x [-> | Hx]%elem_of_cons; [split; [done | lia]|].
      destruct (Hall x Hx) as [? ?]. split; [done | lia].
Qed.

(** The path as [finalPath] reads it: simple, from the start to [v]. *)
Lemma drawFinalPath_tree par reached rank fuel v :
  tree_inv m par reached rank -> v ∈ reached -> N < Z.of_nat fuel ->
  exists f, drawFinalPath fuel par v = Some f /\
            banner f = "FINAL (exit found) - displaying path"%string /\
            simple_path (passage m) startCell v (finalPath f).
Proof.
  intros Hinv Hv Hfuel.
  pose proof (ti_rank _ _ _ _ Hinv v Hv) as Hrk.
  pose proof (cells_size reached (ti_cells _ _ _ _ Hinv)) as Hsz.
  destruct (markPath_tree par reached rank fuel v Hinv Hv) as (l & Hrun & Hp & _); [lia|].
  unfold drawFinalPath. rewrite Hrun. simpl. eexists. split; [done|]. split; [done|].
  unfold finalPath. simpl. apply simple_path_reverse; [|done].
  by apply passage_symmetric.
Qed.

(** A cell whose parent entry is still [-1] is marked alone. *)
Lemma drawFinalPath_unreached par fuel v :
  0 <= v -> vget 0 par v = -1 -> (2 <= fuel)%nat ->
  drawFinalPath fuel par v =
    Some (mkFinalFrame "FINAL (exit found) - displaying path" [v]).
Proof.
  intros Hv Hpar Hfuel. destruct fuel as [|[|fuel]]; [lia | lia|].
  unfold drawFinalPath. simpl.
  destruct (Z.eqb_spec v (-1)); [lia|]. by rewrite Hpar.
Qed.

(** Reaching a new cell [w] from the reached cell [u]; its rank [r] may
    be anything above that of [u] that the number of reached cells allows. *)
Lemma tree_inv_extend par reached rank u w r :
  tree_inv m par reached rank -> u ∈ reached -> w ∉ reached -> passage m u w ->
  rank u < r <= Z.of_nat (size reached) ->
  tree_inv m (vset par w u) ({[w]} ∪ reached)
    (fun z => if decide (z = w) then r else rank z).
Proof.
  intros Hinv Hu Hw Hpass Hr. destruct Hinv.
  pose proof (passage_cellIn_r _ _ Hpass) as Hwc.
  assert (w <> startCell) as Hws by (intros ->; done).
  assert (0 <= w < zlen par) as Hwin by (unfold cellIn in Hwc; lia).
  pose proof (ti_rank0 u Hu) as Hru.
  split.
  - by rewrite zlen_vset.
  - apply elem_of_union. by right.
  - by rewrite vget_vset_ne.
  - intros v [->%elem_of_singleton | Hv]%elem_of_union; auto.
  - intros v Hv. rewrite size_insert_fresh by done.
    case_decide; [lia|].
    apply elem_of_union in Hv as [->%elem_of_singleton | Hv]; [done|].
    specialize (ti_rank0 v Hv). lia.
  - intros v Hv Hne. rewrite vget_vset by done.
    destruct (decide (w = v)) as [<- | Hvw].
    + split; [apply elem_of_union; by right|]. split; [done|].
      rewrite (decide_False (P := u = w)) by (intros ->; done).
      rewrite (decide_True (P := w = w)) by done. lia.
    + rewrite (decide_False (P := v = w)) by done.
      apply elem_of_union in Hv as [->%elem_of_singleton | Hv]; [done|].
      destruct (ti_parent0 v Hv Hne) as (Hp1 & Hp2 & Hp3).
      split; [apply elem_of_union; by right|]. split; [done|].
      rewrite decide_False by (intros Heq; rewrite Heq in Hp1; done). done.
  - intros v Hv Hout. rewrite vget_vset_ne.
    + apply ti_fresh0; [done|]. intros Hin. apply Hout, elem_of_union. by right.
    + intros ->. apply Hout, elem_of_union. left. by apply elem_of_singleton.
Qed.

(** Giving the reached cell [w] the new parent [u] and a smaller rank. *)
Lemma tree_inv_relax par reached rank u w r :
  tree_inv m par reached rank -> u ∈ reached -> w ∈ reached -> w <> startCell ->
  passage m u w -> rank u < r < rank w ->
  tree_inv m (vset par w u) reached
    (fun z => if decide (z = w) then r else rank z).
Proof.
  intros Hinv Hu Hw Hws Hpass Hr. destruct Hinv.
  pose proof (ti_cells0 w Hw) as Hwc.
  assert (0 <= w < zlen par) as Hwin by (unfold cellIn in Hwc; lia).
  pose proof (ti_rank0 u Hu) as Hru. pose proof (ti_rank0 w Hw) as Hrw.
  split; try done.
  - by rewrite zlen_vset.
  - by rewrite vget_vset_ne.
  - intros v Hv. case_decide; [lia | by apply ti_rank0].
  - intros v Hv Hne. rewrite vget_vset by done.
    destruct (decide (w = v)) as [<- | Hvw].
    + split; [done|]. split; [done|].
      rewrite (decide_False (P := u = w)) by (intros ->; lia).
      rewrite (decide_True (P := w = w)) by done. lia.
    + rewrite (decide_False (P := v = w)) by done.
      destruct (ti_parent0 v Hv Hne) as (Hp1 & Hp2 & Hp3).
      split; [done|]. split; [done|]. case_decide as Hd; [|done].
      rewrite Hd in Hp3. lia.
  - intros v Hv Hout. rewrite vget_vset_ne; [by apply ti_fresh0|].
    intros ->. done.
Qed.

Lemma tree_inv_rank_ext par reached rank rank' :
  (forall v, v ∈ reached -> rank' v = rank v) ->
  tree_inv m par reached rank -> tree_inv m par reached rank'.
Proof.
  intros Hext Hinv. destruct Hinv. split; try done.
  - intros v Hv. rewrite Hext by done. by apply ti_rank0.
  - intros v Hv Hne. destruct (ti_parent0 v Hv Hne) as (Hp1 & Hp2 & Hp3).
    rewrite !Hext by done. done.
Qed.

Lemma tree_inv_init :
  tree_inv m (replicate (Z.to_nat N) (-1)) {[startCell]} (fun _ => 0).
Proof.
  assert (0 < N) by nia. split.
  - rewrite zlen_replicate. lia.
  - by apply elem_of_singleton.
  - rewrite vget_replicate; [done | unfold startCell; lia].
  - intros v ->%elem_of_singleton. apply start_cellIn.
  - intros v _. rewrite size_singleton. lia.
  - intros v ->%elem_of_singleton Hne. done.
  - intros v Hv _. rewrite vget_replicate; [done | unfold cellIn in Hv; lia].
Qed.

Lemma closed_in_mono (s s' : gset Z) v : s ⊆ s' -> closed_in m s v -> closed_in m s' v.
Proof. intros Hsub Hc w Hw. by apply Hsub, Hc. Qed.

Lemma outcome_path par fuel :
  search_outcome m GoalReached par -> N < Z.of_nat fuel ->
  exists f, drawFinalPath fuel par (goalCell m) = Some f /\
            banner f = "FINAL (exit found) - displaying path"%string /\
            simple_path (passage m) startCell (goalCell m) (finalPath f).
Proof.
  intros (reached & rank & Htree & Hgoal) Hfuel. by eapply drawFinalPath_tree.
Qed.

Lemma outcome_unreached par fuel :
  search_outcome m FrontierEmpty par -> (2 <= fuel)%nat ->
  drawFinalPath fuel par (goalCell m) =
    Some (mkFinalFrame "FINAL (exit found) - displaying path" [goalCell m]).
Proof.
  intros (reached & rank & Htree & Hgoal & _) Hfuel.
  pose proof goal_cellIn as Hg.
  apply drawFinalPath_unreached; [unfold cellIn in Hg; lia | | done].
  by apply (ti_fresh _ _ _ _ Htree).
Qed.

Lemma outcome_reachable par :
  rtc (passage m) startCell (goalCell m) -> ~ search_outcome m FrontierEmpty par.
Proof.
  intros Hrtc (reached & rank & Htree & Hgoal & Hclosed). apply Hgoal.
  assert (forall u v, rtc (passage m) u v -> u ∈ reached -> v ∈ reached) as Hstay.
  { intros u v H. induction H as [|u w v Huw _ IH]; [done|].
    intros Hu. apply IH. by apply (Hclosed u). }
  eapply Hstay; [done|]. apply (ti_start _ _ _ _ Htree).
Qed.

End SearchCommon.

(** * Breadth-first search *)

Section BFS.
Variable m : Maze.
Hypothesis HW : 0 < mazeW m.
Hypothesis HH : 0 < mazeH m.
Local Abbreviation N := (mazeW m * mazeH m).

Lemma bfsVisit_step u st rank dir :
  bfs_mid m u st rank -> dir ∈ directions ->
  exists rank',
    bfs_mid m u (bfsVisit m u (cellPt u (mazeW m)) st dir) rank' /\
    visitedSet st ⊆ visitedSet (bfsVisit m u (cellPt u (mazeW m)) st dir) /\
    bfs_measure m (bfsVisit m u (cellPt u (mazeW m)) st dir) = bfs_measure m st /\
    (inBounds (mazeW m) (mazeH m) (nextX (px (cellPt u (mazeW m))) dir)
       (nextY (py (cellPt u (mazeW m))) dir) = true ->
     canMove m (px (cellPt u (mazeW m))) (py (cellPt u (mazeW m))) dir = true ->
     cellId (nextX (px (cellPt u (mazeW m))) dir)
            (nextY (py (cellPt u (mazeW m))) dir) (mazeW m)
       ∈ visitedSet (bfsVisit m u (cellPt u (mazeW m)) st dir)).
Proof.
  intros Hmid Hdir. unfold bfsVisit.
  set (nx := nextX _ dir). set (ny := nextY _ dir). set (vid := cellId nx ny (mazeW m)).
  destruct (inBounds (mazeW m) (mazeH m) nx ny) eqn:Hb; simpl; [|by exists rank].
  destruct (canMove m _ _ dir) eqn:Hc; simpl; [|by exists rank].
  destruct (bool_decide (vid ∈ visitedSet st)) eqn:Hvis; simpl.
  { apply bool_decide_eq_true in Hvis. by exists rank. }
  apply bool_decide_eq_false in Hvis.
  destruct Hmid as [Htree Hq Hcur Hclosed Hgoal].
  assert (passage m u vid) as Hpass.
  { apply scan_passage; try done. by apply (ti_cells _ _ _ _ Htree). }
  eexists. split; [split; simpl|split; [|split]]; simpl.
  - apply tree_inv_extend with (r := Z.of_nat (size (visitedSet st))); try done.
    pose proof (ti_rank _ _ _ _ Htree u Hcur). lia.
  - intros v [Hv | ->%list_elem_of_singleton]%elem_of_app; apply elem_of_union;
      [right; by apply Hq | left; by apply elem_of_singleton].
  - apply elem_of_union. by right.
  - intros v [->%elem_of_singleton | Hv]%elem_of_union.
    + left. apply elem_of_app. right. by apply list_elem_of_singleton.
    + destruct (Hclosed v Hv) as [Hf | [-> | Hcl]].
      * left. apply elem_of_app. by left.
      * right. by left.
      * right. right. eapply closed_in_mono; [|done]. apply union_subseteq_r.
  - intros [Heq%elem_of_singleton | Hg]%elem_of_union; apply elem_of_app.
    + right. rewrite Heq. by apply list_elem_of_singleton.
    + left. by apply Hgoal.
  - apply union_subseteq_r.
  - unfold bfs_measure. simpl. rewrite size_insert_fresh by done.
    rewrite length_app. simpl. lia.
  - intros _ _. apply elem_of_union. left. by apply elem_of_singleton.
Qed.

Lemma bfs_fold u dirs : forall st rank,
  bfs_mid m u st rank -> (forall d, d ∈ dirs -> d ∈ directions) ->
  exists rank',
    bfs_mid m u (foldl (bfsVisit m u (cellPt u (mazeW m))) st dirs) rank' /\
    visitedSet st ⊆ visitedSet (foldl (bfsVisit m u (cellPt u (mazeW m))) st dirs) /\
    bfs_measure m (foldl (bfsVisit m u (cellPt u (mazeW m))) st dirs) = bfs_measure m st /\
    forall dir, dir ∈ dirs ->
      inBounds (mazeW m) (mazeH m) (nextX (px (cellPt u (mazeW m))) dir)
        (nextY (py (cellPt u (mazeW m))) dir) = true ->
      canMove m (px (cellPt u (mazeW m))) (py (cellPt u (mazeW m))) dir = true ->
      cellId (nextX (px (cellPt u (mazeW m))) dir)
             (nextY (py (cellPt u (mazeW m))) dir) (mazeW m)
        ∈ visitedSet (foldl (bfsVisit m u (cellPt u (mazeW m))) st dirs).
Proof.
  induction dirs as [|d dirs IH]; intros st rank Hmid Hdirs.
  - exists rank. simpl. split; [done|]. split; [done|]. split; [done|].
    intros dir Hd. by apply elem_of_nil in Hd.
  - destruct (bfsVisit_step u st rank d Hmid) as (rank1 & Hmid1 & Hsub1 & Hmeas1 & Hhit1);
      [apply Hdirs, list_elem_of_here|].
    destruct (IH _ rank1 Hmid1) as (rank2 & Hmid2 & Hsub2 & Hmeas2 & Hhit2);
      [intros d' Hd'; by apply Hdirs, list_elem_of_further|].
    exists rank2. simpl. split; [done|]. split; [set_solver|]. split; [lia|].
    intros dir [-> | Hd]%elem_of_cons Hb Hc; [|by apply Hhit2].
    by apply Hsub2, Hhit1.
Qed.

(** After the inner [for] the dequeued cell is closed. *)
Lemma bfs_expand u st rank :
  bfs_mid m u st rank ->
  exists rank',
    bfs_inv m (foldl (bfsVisit m u (cellPt u (mazeW m))) st directions) rank' /\
    bfs_measure m (foldl (bfsVisit m u (cellPt u (mazeW m))) st directions) = bfs_measure m st.
Proof.
  intros Hmid.
  destruct (bfs_fold u directions st rank Hmid) as (rank' & Hmid' & Hsub & Hmeas & Hhit); [done|].
  exists rank'. split; [|done]. destruct Hmid' as [Htree Hq Hcur Hclosed Hgoal].
  split; try done. intros v Hv.
  destruct (Hclosed v Hv) as [Hf | [-> | Hcl]]; [by left | | by right].
  right. intros w (Hu & dir & Hdir & Hb & Hc & ->). by apply Hhit.
Qed.

Lemma bfs_measure_nonneg st rank : bfs_inv m st rank -> 0 <= bfs_measure m st.
Proof.
  intros [Htree _ _ _]. unfold bfs_measure.
  pose proof (cells_size m HW HH (visitedSet st) (ti_cells _ _ _ _ Htree)). lia.
Qed.

(** The loop ends within [bfs_measure] iterations. *)
Lemma bfsLoop_spec fuel : forall st rank,
  bfs_inv m st rank -> bfs_measure m st < Z.of_nat fuel ->
  exists exit st', bfsLoop fuel m st = Some (exit, st') /\
                   search_outcome m exit (parentOf st').
Proof.
  induction fuel as [|fuel IH]; intros st rank Hinv Hfuel.
  { pose proof (bfs_measure_nonneg st rank Hinv). lia. }
  pose proof Hinv as [Htree Hq Hclosed Hgoal].
  destruct st as [par vis fr]. simpl in *. destruct fr as [|u rest].
  - exists FrontierEmpty, (mkSearch par vis []). split; [done|].
    exists vis, rank. split; [done|]. split.
    + intros Hg. by apply Hgoal, elem_of_nil in Hg.
    + intros v Hv. destruct (Hclosed v Hv) as [Hf | Hc]; [by apply elem_of_nil in Hf | done].
  - destruct (Z.eqb_spec u (goalCell m)) as [-> | Hne].
    + exists GoalReached, (mkSearch par vis rest). split; [done|].
      exists vis, rank. split; [done|]. apply Hq, list_elem_of_here.
    + assert (bfs_mid m u (mkSearch par vis rest) rank) as Hmid.
      { split; simpl; try done.
        - intros v Hv. by apply Hq, list_elem_of_further.
        - apply Hq, list_elem_of_here.
        - intros v Hv. destruct (Hclosed v Hv) as [[-> | Hf]%elem_of_cons | Hc]; auto.
        - intros Hg. apply Hgoal in Hg as [Heq | Hg]%elem_of_cons; [congruence | done]. }
      destruct (bfs_expand u _ rank Hmid) as (rank' & Hinv' & Hmeas).
      destruct (IH _ rank' Hinv') as (exit & st' & Hrun & Hout).
      { rewrite Hmeas. unfold bfs_measure in *. simpl in *. lia. }
      exists exit, st'. split; [|done]. exact Hrun.
Qed.

Lemma bfs_inv_init : bfs_inv m (searchInit m) (fun _ => 0).
Proof.
  unfold searchInit. split; simpl.
  - by apply tree_inv_init.
  - intros v ->%list_elem_of_singleton. by apply elem_of_singleton.
  - intros v ->%elem_of_singleton. left. by apply list_elem_of_singleton.
  - intros ->%elem_of_singleton. by apply list_elem_of_singleton.
Qed.

(** [runBFS]'s loop ends within [W*H + 1] iterations. *)
Lemma bfsLoop_total fuel :
  N < Z.of_nat fuel ->
  exists exit st', bfsLoop fuel m (searchInit m) = Some (exit, st') /\
                   search_outcome m exit (parentOf st').
Proof.
  intros Hfuel. apply (bfsLoop_spec fuel _ _ bfs_inv_init).
  unfold bfs_measure, searchInit. cbn [visitedSet frontier].
  rewrite size_singleton. cbn [length]. lia.
Qed.

End BFS.

(** * Depth-first search *)

Section DFS.
Variable m : Maze.
Hypothesis HW : 0 < mazeW m.
Hypothesis HH : 0 < mazeH m.
Local Abbreviation N := (mazeW m * mazeH m).

(** The inner [for]: either no direction leads to an unvisited cell, or
    [nextCell] is the unvisited target of one of them. *)
Lemma dfsScan_spec (visited : gset Z) u dirs :
  (forall d, d ∈ dirs -> d ∈ directions) ->
  cellIn m u ->
  let nextCell := dfsScan m visited (cellPt u (mazeW m)) dirs in
  ((nextCell = -1) /\
   forall dir, dir ∈ dirs ->
     inBounds (mazeW m) (mazeH m) (nextX (px (cellPt u (mazeW m))) dir)
       (nextY (py (cellPt u (mazeW m))) dir) = true ->
     canMove m (px (cellPt u (mazeW m))) (py (cellPt u (mazeW m))) dir = true ->
     cellId (nextX (px (cellPt u (mazeW m))) dir)
            (nextY (py (cellPt u (mazeW m))) dir) (mazeW m) ∈ visited) \/
  (nextCell <> -1 /\ (nextCell ∉ visited) /\ passage m u nextCell).
Proof.
  intros Hdirs Hu. induction dirs as [|d dirs IH]; simpl.
  - left. split; [done|]. intros dir Hd. by apply elem_of_nil in Hd.
  - set (nx := nextX _ d). set (ny := nextY _ d). set (vid := cellId nx ny (mazeW m)).
    assert (forall d', d' ∈ dirs -> d' ∈ directions) as Hdirs'
      by (intros d' Hd'; by apply Hdirs, list_elem_of_further).
    specialize (IH Hdirs').
    assert (d ∈ directions) as Hd by apply Hdirs, list_elem_of_here.
    destruct (inBounds (mazeW m) (mazeH m) nx ny) eqn:Hb; simpl.
    2:{ destruct IH as [[Hn Hall] | Hsome]; [left | by right].
        split; [done|]. intros dir [-> | Hin]%elem_of_cons; [|by apply Hall].
        fold nx ny. congruence. }
    destruct (canMove m _ _ d) eqn:Hc; simpl.
    2:{ destruct IH as [[Hn Hall] | Hsome]; [left | by right].
        split; [done|]. intros dir [-> | Hin]%elem_of_cons; [|by apply Hall].
        congruence. }
    destruct (bool_decide (vid ∈ visited)) eqn:Hvis; simpl.
    + apply bool_decide_eq_true in Hvis.
      destruct IH as [[Hn Hall] | Hsome]; [left | by right].
      split; [done|]. intros dir [-> | Hin]%elem_of_cons; [done | by apply Hall].
    + apply bool_decide_eq_false in Hvis. right.
      assert (passage m u vid) as Hpass by by apply scan_passage.
      split; [|done]. apply passage_cellIn_r in Hpass; [|done].
      unfold cellIn in Hpass. lia.
Qed.

Lemma dfs_measure_nonneg st rank : dfs_inv m st rank -> 0 <= dfs_measure m st.
Proof.
  intros [Htree _ _ _]. unfold dfs_measure.
  pose proof (cells_size m HW HH (visitedSet st) (ti_cells _ _ _ _ Htree)). lia.
Qed.

Lemma dfsLoop_S fuel st :
  dfsLoop (S fuel) m st =
  match frontier st with
  | [] => Some (FrontierEmpty, st)
  | u :: below =>
      if u =? goalCell m then Some (GoalReached, st)
      else
        let nextCell := dfsScan m (visitedSet st) (cellPt u (mazeW m)) directions in
        if negb (nextCell =? -1) then
          dfsLoop fuel m
            (mkSearch (vset (parentOf st) nextCell u)
                      ({[nextCell]} ∪ visitedSet st)
                      (nextCell :: frontier st))
        else
          dfsLoop fuel m (mkSearch (parentOf st) (visitedSet st) below)
  end.
Proof. done. Qed.

(** The loop ends within [dfs_measure] iterations. *)
Lemma dfsLoop_spec fuel : forall st rank,
  dfs_inv m st rank -> dfs_measure m st < Z.of_nat fuel ->
  exists exit st', dfsLoop fuel m st = Some (exit, st') /\
                   search_outcome m exit (parentOf st').
Proof.
  induction fuel as [|fuel IH]; intros st rank Hinv Hfuel.
  { pose proof (dfs_measure_nonneg st rank Hinv). lia. }
  pose proof Hinv as [Htree Hstk Hclosed Hgoal].
  destruct st as [par vis stk]. cbn [parentOf visitedSet frontier] in *.
  rewrite dfsLoop_S. cbn [parentOf visitedSet frontier].
  destruct stk as [|u below].
  - exists FrontierEmpty, (mkSearch par vis []). split; [done|].
    exists vis, rank. split; [done|]. split.
    + intros Hg. by apply Hgoal in Hg.
    + intros v Hv. destruct (Hclosed v Hv) as [Hf | Hc]; [by apply elem_of_nil in Hf | done].
  - destruct (Z.eqb_spec u (goalCell m)) as [-> | Hne].
    + exists GoalReached, (mkSearch par vis (goalCell m :: below)). split; [done|].
      exists vis, rank. split; [done|]. apply Hstk, list_elem_of_here.
    + assert (u ∈ vis) as Hu by apply Hstk, list_elem_of_here.
      assert (goalCell m ∉ vis) as Hng.
      { intros Hg. apply Hgoal in Hg. simpl in Hg. congruence. }
      pose proof (dfsScan_spec vis u directions ltac:(done) (ti_cells _ _ _ _ Htree u Hu))
        as Hscan. cbv zeta in Hscan. cbv zeta.
      destruct Hscan as [[Hn Hall] | (Hn & Hfresh & Hpass)].
      * rewrite Hn. change (negb (-1 =? -1)) with false. cbv iota.
        destruct (IH (mkSearch par vis below) rank) as (exit & st' & Hrun & Hout).
        { split; cbn [parentOf visitedSet frontier]; try done.
          - intros v Hv. by apply Hstk, list_elem_of_further.
          - intros v Hv. destruct (Hclosed v Hv) as [[-> | Hf]%elem_of_cons | Hc]; auto.
            right. intros w (_ & dir & Hdir & Hb & Hc & ->). by apply Hall. }
        { unfold dfs_measure in *. cbn [parentOf visitedSet frontier length] in *. lia. }
        exists exit, st'. split; [exact Hrun | done].
      * destruct (Z.eqb_spec (dfsScan m vis (cellPt u (mazeW m)) directions) (-1)) as [|_];
          [done|]. cbn [negb].
        set (nc := dfsScan m vis (cellPt u (mazeW m)) directions) in *.
        destruct (IH (mkSearch (vset par nc u) ({[nc]} ∪ vis) (nc :: u :: below))
                    (fun z => if decide (z = nc) then Z.of_nat (size vis) else rank z))
          as (exit & st' & Hrun & Hout).
        { split; cbn [parentOf visitedSet frontier].
          - apply tree_inv_extend with (r := Z.of_nat (size vis)); try done.
            pose proof (ti_rank _ _ _ _ Htree u Hu). lia.
          - intros v [-> | Hv]%elem_of_cons; apply elem_of_union;
              [left; by apply elem_of_singleton | right; by apply Hstk].
          - intros v [->%elem_of_singleton | Hv]%elem_of_union.
            + left. apply list_elem_of_here.
            + destruct (Hclosed v Hv) as [Hf | Hc].
              * left. by apply list_elem_of_further.
              * right. eapply closed_in_mono; [|done]. apply union_subseteq_r.
          - intros [Heq%elem_of_singleton | Hg]%elem_of_union; [by rewrite Heq | done]. }
        { unfold dfs_measure in *. cbn [parentOf visitedSet frontier length] in *.
          rewrite size_insert_fresh by done.
          pose proof (cells_size_lt m HW HH vis nc (ti_cells _ _ _ _ Htree)
                        (passage_cellIn_r m HW _ _ Hpass) Hfresh). lia. }
        exists exit, st'. split; [exact Hrun | done].
Qed.

Lemma dfs_inv_init : dfs_inv m (searchInit m) (fun _ => 0).
Proof.
  unfold searchInit. split; simpl.
  - by apply tree_inv_init.
  - intros v ->%list_elem_of_singleton. by apply elem_of_singleton.
  - intros v ->%elem_of_singleton. left. by apply list_elem_of_singleton.
  - intros ->%elem_of_singleton. done.
Qed.

(** [runDFS]'s loop ends within [2*W*H] iterations. *)
Lemma dfsLoop_total fuel :
  2 * N <= Z.of_nat fuel ->
  exists exit st', dfsLoop fuel m (searchInit m) = Some (exit, st') /\
                   search_outcome m exit (parentOf st').
Proof.
  intros Hfuel. apply (dfsLoop_spec fuel _ _ dfs_inv_init).
  unfold dfs_measure, searchInit. cbn [visitedSet frontier].
  rewrite size_singleton. cbn [length]. lia.
Qed.

End DFS.

(** * Dijkstra and A* *)

(** ** Sums over cells *)

Section Sums.
Implicit Types (f g : Z -> Z) (l : list Z).

Lemma sumOver_ext f g l : (forall v, v ∈ l -> f v = g v) -> sumOver f l = sumOver g l.
Proof.
  induction l as [|a l IH]; intros Hext; [done|]. simpl.
  rewrite (Hext a) by apply list_elem_of_here.
  rewrite IH; [done|]. intros v Hv. by apply Hext, list_elem_of_further.
Qed.

Lemma sumOver_update f g l z :
  NoDup l -> z ∈ l -> (forall v, v ∈ l -> v <> z -> g v = f v) ->
  sumOver g l = sumOver f l - f z + g z.
Proof.
  induction l as [|a l IH]; intros Hnd Hz Hext; [by apply elem_of_nil in Hz|].
  apply NoDup_cons in Hnd as [Ha Hnd]. simpl.
  apply elem_of_cons in Hz as [<- | Hz].
  - rewrite (sumOver_ext g f l); [lia|].
    intros v Hv. apply Hext; [by apply list_elem_of_further|]. intros ->. done.
  - rewrite IH; try done.
    + rewrite (Hext a); [lia | apply list_elem_of_here | intros ->; done].
    + intros v Hv. by apply Hext, list_elem_of_further.
Qed.

Lemma sumOver_bounds f l B :
  (forall v, v ∈ l -> 0 <= f v <= B) ->
  0 <= sumOver f l <= B * Z.of_nat (length l).
Proof.
  induction l as [|a l IH]; intros Hb; [simpl; lia|].
  assert (0 <= f a <= B) by apply Hb, list_elem_of_here.
  assert (0 <= sumOver f l <= B * Z.of_nat (length l)) as Hl.
  { apply IH. intros v Hv. by apply Hb, list_elem_of_further. }
  change (length (a :: l)) with (S (length l)). simpl sumOver. lia.
Qed.

End Sums.

(** ** The priority queue *)

Lemma elem_of_pq_push e q x : x ∈ pq_push e q <-> x = e \/ x ∈ q.
Proof.
  induction q as [|e' q IH]; simpl.
  - rewrite list_elem_of_singleton, elem_of_nil. tauto.
  - destruct (pair_le e e').
    + by rewrite elem_of_cons.
    + rewrite !elem_of_cons, IH. tauto.
Qed.

Lemma length_pq_push e q : length (pq_push e q) = S (length q).
Proof.
  induction q as [|e' q IH]; simpl; [done|].
  destruct (pair_le e e'); simpl; [done | by rewrite IH].
Qed.

(** ** The loop invariant *)

Section PQ.
Variable m : Maze.
Variable h : Z -> Z.
Hypothesis HW : 0 < mazeW m.
Hypothesis HH : 0 < mazeH m.
Hypothesis Hint : mazeW m * mazeH m <= INT_MAX.
Local Abbreviation N := (mazeW m * mazeH m).

Lemma relaxDir_step u st reached dir :
  pq_inv m (Some u) st reached -> dir ∈ directions ->
  exists reached',
    pq_inv m (Some u) (relaxDir m h u (cellPt u (mazeW m)) st dir) reached' /\
    reached ⊆ reached' /\
    pq_measure m (relaxDir m h u (cellPt u (mazeW m)) st dir) <= pq_measure m st /\
    (inBounds (mazeW m) (mazeH m) (nextX (px (cellPt u (mazeW m))) dir)
       (nextY (py (cellPt u (mazeW m))) dir) = true ->
     canMove m (px (cellPt u (mazeW m))) (py (cellPt u (mazeW m))) dir = true ->
     cellId (nextX (px (cellPt u (mazeW m))) dir)
            (nextY (py (cellPt u (mazeW m))) dir) (mazeW m) ∈ reached').
Proof.
  intros Hinv Hdir. unfold relaxDir.
  set (nx := nextX _ dir). set (ny := nextY _ dir). set (vid := cellId nx ny (mazeW m)).
  destruct (inBounds (mazeW m) (mazeH m) nx ny) eqn:Hb; simpl;
    [|exists reached; split; [done|]; split; [done|]; split; [lia | done]].
  destruct (canMove m _ _ dir) eqn:Hc; simpl;
    [|exists reached; split; [done|]; split; [done|]; split; [lia | done]].
  pose proof Hinv as [Hlen Htree Hstart Hfar Hpq Hcur Hclosed Hgoal].
  destruct st as [d par q]. cbn [dist pqParentOf pq] in *.
  assert (u ∈ reached) as Hu by by apply Hcur.
  pose proof (ti_cells _ _ _ _ Htree u Hu) as Hucell.
  assert (passage m u vid) as Hpass by by apply scan_passage.
  pose proof (passage_cellIn_r m HW _ _ Hpass) as Hvcell.
  pose proof (ti_rank _ _ _ _ Htree u Hu) as Hru. cbv beta in Hru.
  pose proof (cells_size m HW HH reached (ti_cells _ _ _ _ Htree)) as Hsize.
  assert (0 <= vid < zlen d) as Hvin by (unfold cellIn in Hvcell; lia).
  destruct (Z.ltb_spec (vget 0 d u + 1) (vget 0 d vid)) as [Hlt | Hge].
  2:{ exists reached. split; [done|]. split; [done|]. split; [lia|]. intros _ _.
      destruct (decide (vid ∈ reached)) as [|Hout]; [done|]. exfalso.
      pose proof (Hfar vid Hvcell Hout).
      pose proof (cells_size_lt m HW HH reached vid (ti_cells _ _ _ _ Htree) Hvcell Hout).
      lia. }
  set (alt := vget 0 d u + 1) in *.
  assert (vid <> startCell) as Hvs by (intros Heq; rewrite Heq in Hlt; lia).
  assert (alt < N /\ capDist N (vset d vid alt) vid + 1 <= capDist N d vid) as [HaltN Hcap].
  { unfold capDist. rewrite vget_vset_eq by done.
    destruct (decide (vid ∈ reached)) as [Hin | Hout].
    - pose proof (ti_rank _ _ _ _ Htree vid Hin) as Hrv. cbv beta in Hrv. lia.
    - pose proof (cells_size_lt m HW HH reached vid (ti_cells _ _ _ _ Htree) Hvcell Hout).
      lia. }
  assert (pq_measure m (mkPQSearch (vset d vid alt) (vset par vid u)
                          (pq_push (alt + h vid, vid) q))
          <= pq_measure m (mkPQSearch d par q)) as Hmeas.
  { unfold pq_measure. cbn [dist pq]. rewrite length_pq_push.
    rewrite (sumOver_update (capDist N d) (capDist N (vset d vid alt)) (seqZ 0 N) vid).
    - lia.
    - apply NoDup_seqZ.
    - apply elem_of_seqZ. unfold cellIn in Hvcell. lia.
    - intros v _ Hne. unfold capDist. by rewrite vget_vset_ne. }
  assert (forall v, vget 0 (vset d vid alt) v = if decide (v = vid) then alt else vget 0 d v)
    as Hd'.
  { intros v. rewrite vget_vset by done. repeat case_decide; congruence. }
  destruct (decide (vid ∈ reached)) as [Hin | Hout].
  - (* the distance of a reached cell improves *)
    exists reached. split; [|split; [done | split; [done | done]]].
    pose proof (ti_rank _ _ _ _ Htree vid Hin) as Hrv. cbv beta in Hrv.
    split; cbn [dist pqParentOf pq].
    + by rewrite zlen_vset.
    + eapply tree_inv_rank_ext; [intros v _; apply Hd'|].
      apply (tree_inv_relax m par reached (fun v => vget 0 d v) u vid alt); try done. lia.
    + by rewrite vget_vset_ne.
    + intros v Hv Hout. rewrite vget_vset_ne; [by apply Hfar|]. intros ->. done.
    + intros e [-> | He]%elem_of_pq_push; [done | by apply Hpq].
    + done.
    + intros v Hv. destruct (Hclosed v Hv) as [[k Hk] | [Hc' | Hc']]; [left | auto..].
      exists k. apply elem_of_pq_push. by right.
    + intros Hg. destruct (Hgoal Hg) as [k Hk]. exists k. apply elem_of_pq_push. by right.
  - (* a new cell is reached *)
    exists ({[vid]} ∪ reached).
    split; [|split; [apply union_subseteq_r | split; [done|]]].
    2:{ intros _ _. apply elem_of_union. left. by apply elem_of_singleton. }
    split; cbn [dist pqParentOf pq].
    + by rewrite zlen_vset.
    + eapply tree_inv_rank_ext; [intros v _; apply Hd'|].
      apply (tree_inv_extend m HW par reached (fun v => vget 0 d v) u vid alt); try done. lia.
    + by rewrite vget_vset_ne.
    + intros v Hv Hout'. rewrite vget_vset_ne.
      * apply Hfar; [done|]. intros Hin. apply Hout', elem_of_union. by right.
      * intros ->. apply Hout', elem_of_union. left. by apply elem_of_singleton.
    + intros e [-> | He]%elem_of_pq_push; apply elem_of_union;
        [left; by apply elem_of_singleton | right; by apply Hpq].
    + intros u' Hu'. apply elem_of_union. right. by apply Hcur.
    + intros v [->%elem_of_singleton | Hv]%elem_of_union.
      * left. exists (alt + h vid). apply elem_of_pq_push. by left.
      * destruct (Hclosed v Hv) as [[k Hk] | [Hc' | Hc']].
        -- left. exists k. apply elem_of_pq_push. by right.
        -- right. by left.
        -- right. right. eapply closed_in_mono; [|done]. apply union_subseteq_r.
    + intros [Heq%elem_of_singleton | Hg]%elem_of_union.
      * exists (alt + h vid). apply elem_of_pq_push. left. by rewrite Heq.
      * destruct (Hgoal Hg) as [k Hk]. exists k. apply elem_of_pq_push. by right.
Qed.

Lemma pq_fold u dirs : forall st reached,
  pq_inv m (Some u) st reached -> (forall d, d ∈ dirs -> d ∈ directions) ->
  exists reached',
    pq_inv m (Some u) (foldl (relaxDir m h u (cellPt u (mazeW m))) st dirs) reached' /\
    reached ⊆ reached' /\
    pq_measure m (foldl (relaxDir m h u (cellPt u (mazeW m))) st dirs) <= pq_measure m st /\
    forall dir, dir ∈ dirs ->
      inBounds (mazeW m) (mazeH m) (nextX (px (cellPt u (mazeW m))) dir)
        (nextY (py (cellPt u (mazeW m))) dir) = true ->
      canMove m (px (cellPt u (mazeW m))) (py (cellPt u (mazeW m))) dir = true ->
      cellId (nextX (px (cellPt u (mazeW m))) dir)
             (nextY (py (cellPt u (mazeW m))) dir) (mazeW m) ∈ reached'.
Proof.
  induction dirs as [|d dirs IH]; intros st reached Hinv Hdirs.
  - exists reached. simpl. split; [done|]. split; [done|]. split; [lia|].
    intros dir Hd. by apply elem_of_nil in Hd.
  - destruct (relaxDir_step u st reached d Hinv) as (r1 & Hinv1 & Hsub1 & Hmeas1 & Hhit1);
      [apply Hdirs, list_elem_of_here|].
    destruct (IH _ r1 Hinv1) as (r2 & Hinv2 & Hsub2 & Hmeas2 & Hhit2);
      [intros d' Hd'; by apply Hdirs, list_elem_of_further|].
    exists r2. simpl. split; [done|]. split; [by etrans|]. split; [lia|].
    intros dir [-> | Hd]%elem_of_cons Hb Hc; [|by apply Hhit2].
    by apply Hsub2, Hhit1.
Qed.

(** After the inner [for] the popped cell is closed. *)
Lemma pq_expand u st reached :
  pq_inv m (Some u) st reached ->
  exists reached',
    pq_inv m None (foldl (relaxDir m h u (cellPt u (mazeW m))) st directions) reached' /\
    pq_measure m (foldl (relaxDir m h u (cellPt u (mazeW m))) st directions)
      <= pq_measure m st.
Proof.
  intros Hinv.
  destruct (pq_fold u directions st reached Hinv) as (r' & Hinv' & Hsub & Hmeas & Hhit); [done|].
  exists r'. split; [|done]. destruct Hinv' as [Hlen Htree Hstart Hfar Hpq Hcur Hclosed Hgoal].
  split; try done. intros v Hv.
  destruct (Hclosed v Hv) as [Hf | [[= ->] | Hcl]]; [by left | | by (right; right)].
  right. right. intros w (Hu & dir & Hdir & Hb & Hc & ->). by apply Hhit.
Qed.

Lemma pq_measure_nonneg cur st reached : pq_inv m cur st reached -> 0 <= pq_measure m st.
Proof.
  intros Hinv. unfold pq_measure.
  pose proof (sumOver_bounds (capDist N (dist st)) (seqZ 0 N) N) as Hb.
  destruct Hb as [Hb _]; [|lia].
  intros v Hv%elem_of_seqZ. unfold capDist.
  assert (0 <= vget 0 (dist st) v); [|lia].
  destruct (decide (v ∈ reached)) as [Hin | Hout].
  - pose proof (ti_rank _ _ _ _ (pi_tree _ _ _ _ Hinv) v Hin) as Hr. cbv beta in Hr. lia.
  - pose proof (pi_far _ _ _ _ Hinv v ltac:(unfold cellIn; lia) Hout). unfold INT_MAX in *. lia.
Qed.

Lemma pqLoop_S fuel st :
  pqLoop (S fuel) m h st =
  match pq st with
  | [] => Some (FrontierEmpty, st)
  | top :: rest =>
      if top.2 =? goalCell m
      then Some (GoalReached, mkPQSearch (dist st) (pqParentOf st) rest)
      else pqLoop fuel m h
             (foldl (relaxDir m h top.2 (cellPt top.2 (mazeW m)))
                    (mkPQSearch (dist st) (pqParentOf st) rest) directions)
  end.
Proof. done. Qed.

(** The loop ends within [pq_measure] iterations. *)
Lemma pqLoop_spec fuel : forall st reached,
  pq_inv m None st reached -> pq_measure m st < Z.of_nat fuel ->
  exists exit st', pqLoop fuel m h st = Some (exit, st') /\
                   search_outcome m exit (pqParentOf st').
Proof.
  induction fuel as [|fuel IH]; intros st reached Hinv Hfuel.
  { pose proof (pq_measure_nonneg _ _ _ Hinv). lia. }
  pose proof Hinv as [Hlen Htree Hstart Hfar Hpq Hcur Hclosed Hgoal].
  rewrite pqLoop_S. destruct st as [d par q]. cbn [dist pqParentOf pq] in *.
  destruct q as [|[k u] rest]; cbn [snd].
  - exists FrontierEmpty, (mkPQSearch d par []). split; [done|].
    exists reached, (fun v => vget 0 d v). split; [done|]. split.
    + intros Hg. destruct (Hgoal Hg) as [k Hk]. by apply elem_of_nil in Hk.
    + intros v Hv. destruct (Hclosed v Hv) as [[k Hk] | [Hc | Hc]];
        [by apply elem_of_nil in Hk | done | done].
  - assert (u ∈ reached) as Hu by apply (Hpq (k, u)), list_elem_of_here.
    destruct (Z.eqb_spec u (goalCell m)) as [-> | Hne].
    + exists GoalReached, (mkPQSearch d par rest). split; [done|].
      exists reached, (fun v => vget 0 d v). split; done.
    + assert (pq_inv m (Some u) (mkPQSearch d par rest) reached) as Hmid.
      { split; cbn [dist pqParentOf pq]; try done.
        - intros e He. by apply Hpq, list_elem_of_further.
        - by intros u' [= <-].
        - intros v Hv. destruct (Hclosed v Hv) as [[k' Hk] | [Hc | Hc]]; [|done|auto].
          apply elem_of_cons in Hk as [[= _ ->] | Hk]; [right; by left | left; by exists k'].
        - intros Hg. destruct (Hgoal Hg) as [k' Hk].
          apply elem_of_cons in Hk as [[= _ Heq] | Hk]; [congruence | by exists k']. }
      destruct (pq_expand u _ reached Hmid) as (r' & Hinv' & Hmeas).
      destruct (IH _ r' Hinv') as (exit & st' & Hrun & Hout).
      { unfold pq_measure in Hfuel, Hmeas |- *. cbn [dist pq length] in *. lia. }
      exists exit, st'. split; [exact Hrun | done].
Qed.

Lemma pq_inv_init : pq_inv m None (pqInit m h) {[startCell]}.
Proof.
  assert (0 < N) as HN by nia.
  unfold pqInit. split; cbn [dist pqParentOf pq].
  - rewrite zlen_vset, zlen_replicate. lia.
  - eapply tree_inv_rank_ext; [|by apply tree_inv_init].
    intros v ->%elem_of_singleton. cbv beta.
    apply vget_vset_eq. rewrite zlen_replicate. unfold startCell. lia.
  - apply vget_vset_eq. rewrite zlen_replicate. unfold startCell. lia.
  - intros v Hv Hout. rewrite vget_vset_ne.
    + rewrite vget_replicate; [done | unfold cellIn in Hv; lia].
    + intros <-. apply Hout. by apply elem_of_singleton.
  - intros e ->%list_elem_of_singleton. by apply elem_of_singleton.
  - done.
  - intros v ->%elem_of_singleton. left. exists (h 0). by apply list_elem_of_singleton.
  - intros Hg%elem_of_singleton. exists (h 0). rewrite Hg. by apply list_elem_of_singleton.
Qed.

(** [runPQ]'s loop ends within [2*(W*H)^2 + 2] iterations. *)
Lemma pqLoop_total fuel :
  2 * N * N + 2 <= Z.of_nat fuel ->
  exists exit st', pqLoop fuel m h (pqInit m h) = Some (exit, st') /\
                   search_outcome m exit (pqParentOf st').
Proof.
  intros Hfuel. apply (pqLoop_spec fuel _ _ pq_inv_init).
  unfold pq_measure, pqInit. cbn [dist pq pq_push length].
  pose proof (sumOver_bounds
    (capDist N (vset (replicate (Z.to_nat N) INT_MAX) 0 0)) (seqZ 0 N) N) as Hb.
  destruct Hb as [_ Hb].
  - intros v Hv%elem_of_seqZ. unfold capDist.
    destruct (decide (v = 0)) as [-> | Hne].
    + rewrite vget_vset_eq by (rewrite zlen_replicate; lia). lia.
    + rewrite vget_vset_ne by done. rewrite vget_replicate by lia. unfold INT_MAX. lia.
  - rewrite length_seqZ in Hb. nia.
Qed.

End PQ.

(** * The four strategies together *)

Section Strategies.
Variable m : Maze.
Hypothesis HW : 0 < mazeW m.
Hypothesis HH : 0 < mazeH m.
Hypothesis Hint : mazeW m * mazeH m <= INT_MAX.
Local Abbreviation N := (mazeW m * mazeH m).

Lemma run_searchLoop s fuel :
  run s fuel m = r ← searchLoop s fuel m; drawFinalPath fuel r.2 (goalCell m).
Proof.
  destruct s; simpl;
    unfold runDFS, runBFS, runDijkstra, runAStar, runPQ;
    match goal with |- context [?l ≫= _] => destruct l as [[e st]|] end; done.
Qed.

(** Every loop ends, within [2*(W*H)^2 + 2] iterations at most. *)
Lemma searchLoop_total s fuel :
  2 * N * N + 2 <= Z.of_nat fuel ->
  exists exit par, searchLoop s fuel m = Some (exit, par) /\ search_outcome m exit par.
Proof.
  intros Hfuel. assert (0 < N) by nia. destruct s; simpl.
  - destruct (dfsLoop_total m HW HH fuel) as (exit & st & Hrun & Hout); [nia|].
    rewrite Hrun. by exists exit, (parentOf st).
  - destruct (bfsLoop_total m HW HH fuel) as (exit & st & Hrun & Hout); [nia|].
    rewrite Hrun. by exists exit, (parentOf st).
  - destruct (pqLoop_total m zeroH HW HH Hint fuel) as (exit & st & Hrun & Hout); [done|].
    rewrite Hrun. by exists exit, (pqParentOf st).
  - destruct (pqLoop_total m (manH (mazeW m) (mazeH m)) HW HH Hint fuel)
      as (exit & st & Hrun & Hout); [done|].
    rewrite Hrun. by exists exit, (pqParentOf st).
Qed.

(** Every run ends and shows a final frame. *)
Lemma run_total s fuel :
  2 * N * N + 2 <= Z.of_nat fuel ->
  exists exit par f, searchLoop s fuel m = Some (exit, par) /\ run s fuel m = Some f.
Proof.
  intros Hfuel. assert (0 < N) by nia.
  destruct (searchLoop_total s fuel Hfuel) as (exit & par & Hloop & Hout).
  exists exit, par. rewrite run_searchLoop, Hloop. simpl.
  destruct exit.
  - destruct (outcome_path m HW HH par fuel Hout) as (f & Hf & _); [nia|]. by exists f.
  - rewrite (outcome_unreached m HW HH par fuel Hout) by lia. by eexists.
Qed.

(** With the frontier run empty, the frame announces an exit and marks the
    goal cell alone. *)
Lemma run_frontier_empty s fuel par :
  2 * N * N + 2 <= Z.of_nat fuel ->
  searchLoop s fuel m = Some (FrontierEmpty, par) ->
  run s fuel m = Some (mkFinalFrame "FINAL (exit found) - displaying path" [goalCell m]).
Proof.
  intros Hfuel Hloop.
  destruct (searchLoop_total s fuel Hfuel) as (exit & par' & Hloop' & Hout).
  rewrite Hloop in Hloop'. simplify_eq.
  rewrite run_searchLoop, Hloop. simpl.
  apply (outcome_unreached m HW HH); [done | lia].
Qed.

(** When the goal can be reached from the start, the marked cells are a
    simple path from the start to the goal. *)
Lemma run_simple_path s fuel :
  rtc (passage m) startCell (goalCell m) ->
  2 * N * N + 2 <= Z.of_nat fuel ->
  exists f, run s fuel m = Some f /\
            simple_path (passage m) startCell (goalCell m) (finalPath f).
Proof.
  intros Hreach Hfuel. assert (0 < N) by nia.
  destruct (searchLoop_total s fuel Hfuel) as (exit & par & Hloop & Hout).
  rewrite run_searchLoop, Hloop. simpl. destruct exit.
  - destruct (outcome_path m HW HH par fuel Hout) as (f & Hf & _ & Hpath); [nia|].
    by exists f.
  - by apply outcome_reachable in Hout.
Qed.

End Strategies.

(** * Union by size *)

Section UnionBySize.
Implicit Types (p s : list Z) (x y r a b : Z).

Lemma roots_kept_iff p p' rho k x r :
  ranked p rho k -> roots_kept p p' -> (root_of p' x r <-> root_of p x r).
Proof.
  intros Hrk [Hlen Hk]. split; [|apply Hk].
  intros H. pose proof (root_of_range _ _ _ H) as Hx. rewrite Hlen in Hx.
  destruct (root_exists _ _ _ x Hrk Hx) as [r0 Hr0].
  by rewrite (root_of_inj _ _ _ _ H (Hk _ _ Hr0)).
Qed.

Lemma comp_size_inj p r n n' : comp_size p r n -> comp_size p r n' -> n = n'.
Proof.
  intros (l & Hnd & Hl & <-) (l' & Hnd' & Hl' & <-). f_equal.
  apply Permutation_length, NoDup_Permutation; try done.
  intros x. by rewrite Hl, Hl'.
Qed.

Lemma sized_kept p p' s rho k :
  ranked p rho k -> roots_kept p p' -> sized p s -> sized p' s.
Proof.
  intros Hrk Hk Hs r Hr.
  apply (roots_kept_iff p p' rho k r r Hrk Hk) in Hr.
  destruct (Hs r Hr) as (l & Hnd & Hl & Hlen).
  exists l. split; [done|]. split; [|done].
  intros x. rewrite Hl. symmetry. by eapply roots_kept_iff.
Qed.

Lemma link_root_iff p rho k ra rb x r :
  ranked p rho k -> ra <> rb -> root_of p ra ra -> root_of p rb rb ->
  (root_of (vset p rb ra) x r <->
   exists t, root_of p x t /\ r = if decide (t = rb) then ra else t).
Proof.
  intros Hrk Hne Hra Hrb. split.
  - intros H. pose proof (root_of_range _ _ _ H) as Hx. rewrite zlen_vset in Hx.
    destruct (root_exists _ _ _ x Hrk Hx) as [t Ht]. exists t. split; [done|].
    eapply root_of_inj; [exact H|]. by apply link_root.
  - intros (t & Ht & ->). by apply link_root.
Qed.

Lemma sized_link p s rho k ra rb :
  ranked p rho k -> ra <> rb -> root_of p ra ra -> root_of p rb rb ->
  0 <= ra < zlen s ->
  sized p s ->
  sized (vset p rb ra) (vset s ra (vget 0 s ra + vget 0 s rb)).
Proof.
  intros Hrk Hne Hra Hrb Hin Hs r Hr.
  apply (link_root_iff p rho k ra rb r r Hrk Hne Hra Hrb) in Hr as (t & Ht & Hrt).
  assert (forall z, root_of p z z -> forall x, root_of p x z -> root_of p z z) as _ by auto.
  destruct (decide (r = ra)) as [-> | Hra'].
  - rewrite vget_vset_eq by done.
    destruct (Hs ra Hra) as (la & Hnda & Hla & Hlena).
    destruct (Hs rb Hrb) as (lb & Hndb & Hlb & Hlenb).
    exists (la ++ lb). split; [|split].
    + apply NoDup_app. split; [done|]. split; [|done].
      intros x Hxa Hxb. apply Hla in Hxa. apply Hlb in Hxb.
      apply Hne. by eapply root_of_inj.
    + intros x. rewrite elem_of_app, Hla, Hlb.
      rewrite (link_root_iff p rho k ra rb x ra Hrk Hne Hra Hrb). split.
      * intros [H | H].
        -- exists ra. split; [done|]. by rewrite decide_False.
        -- exists rb. split; [done|]. by rewrite decide_True.
      * intros (t' & Ht' & Heq). destruct (decide (t' = rb)) as [-> | Hn]; [by right|].
        subst t'. by left.
    + rewrite length_app. lia.
  - assert (r = t /\ t <> rb) as [<- Htb] by (destruct (decide (t = rb)); subst; done).
    assert (root_of p r r) as Hrr.
    { destruct (root_of_is_root _ _ _ Ht). by apply root_here. }
    rewrite vget_vset_ne by done.
    destruct (Hs r Hrr) as (l & Hnd & Hl & Hlen).
    exists l. split; [done|]. split; [|done].
    intros x. rewrite Hl.
    rewrite (link_root_iff p rho k ra rb x r Hrk Hne Hra Hrb). split.
    + intros H. exists r. split; [done|]. by rewrite decide_False.
    + intros (t' & Ht' & Heq). destruct (decide (t' = rb)); subst; done.
Qed.

Lemma ds_inv_new n : 0 <= n -> ds_inv n (DisjointSet_new n).
Proof.
  intros Hn. unfold DisjointSet_new. split; simpl.
  - by apply zlen_seqZ.
  - rewrite zlen_replicate. lia.
  - exists (fun _ => 0). rewrite rootCount_init by done.
    replace (n - n) with 0 by lia. by apply ranked_init.
  - intros r Hr. apply root_of_init in Hr as [Hr _]; [|done].
    rewrite vget_replicate by lia. exists [r]. split; [apply NoDup_singleton|].
    split; [|done]. intros x. rewrite list_elem_of_singleton, root_of_init by done.
    split; [intros ->; done | by intros [_ ->]].
Qed.

Lemma ds_inv_fuel n ds x :
  ds_inv n ds -> 0 <= x < n -> n - rootCount (parent ds) < n.
Proof.
  intros [Hlen _ [rho Hrk] _] Hx.
  destruct (root_exists _ _ _ x Hrk) as [r Hr]; [lia|].
  pose proof (rootCount_pos _ _ _ Hr). lia.
Qed.

End UnionBySize.

Section UnionFindOps.
Implicit Types (p s : list Z) (x y r a b : Z).

(** [findRoot] on a well-formed structure. *)
Lemma findRoot_ok n ds fuel x :
  ds_inv n ds -> 0 <= x < n -> n <= Z.of_nat fuel ->
  exists r ds',
    findRoot fuel x ds = Some (r, ds') /\
    root_of (parent ds) x r /\
    compressed (parent ds) x r (parent ds') /\
    sz ds' = sz ds /\ ds_inv n ds'.
Proof.
  intros Hinv Hx Hfuel. pose proof (ds_inv_fuel n ds x Hinv Hx) as Hk.
  destruct Hinv as [Hlen Hszlen [rho Hrk] Hsized]. destruct ds as [p s]. simpl in *.
  destruct (Hrk x ltac:(lia)) as (Hrho & _).
  destruct (findRoot_spec fuel p s rho _ x Hrk) as (r & p' & Hrun & Hr & Hc); [lia | lia |].
  exists r, (mkDisjointSet p' s). simpl. repeat (split; [done|]).
  pose proof (compressed_roots_kept _ _ _ _ _ _ Hrk Hr Hc) as Hkept.
  pose proof (rootCount_compressed _ _ _ _ _ _ Hrk Hr Hc) as Hcnt.
  split; simpl.
  - destruct Hkept. lia.
  - done.
  - exists rho. rewrite Hcnt. by eapply compressed_ranked.
  - apply (sized_kept p p' s rho _ Hrk Hkept Hsized).
Qed.

(** [unite] on a well-formed structure: [na] and [nb] are the sizes of the
    two components. *)
Lemma unite_ok n ds fuel a b :
  ds_inv n ds -> 0 <= a < n -> 0 <= b < n -> n <= Z.of_nat fuel ->
  exists ra rb na nb ds',
    root_of (parent ds) a ra /\ root_of (parent ds) b rb /\
    comp_size (parent ds) ra na /\ comp_size (parent ds) rb nb /\
    unite fuel a b ds = Some (tt, ds') /\ ds_inv n ds' /\
    (ra = rb ->
       sz ds' = sz ds /\
       forall x y, same (parent ds') x y <-> same (parent ds) x y) /\
    (ra <> rb ->
       let big := if na <? nb then rb else ra in
       let small := if na <? nb then ra else rb in
       vget 0 (parent ds') small = big /\ vget 0 (parent ds') big = big /\
       comp_size (parent ds') big (na + nb) /\
       forall x y, 0 <= x < n -> 0 <= y < n ->
         (same (parent ds') x y <->
          same (parent ds) x y \/
          (same (parent ds) x a /\ same (parent ds) b y) \/
          (same (parent ds) x b /\ same (parent ds) a y))).
Proof.
  intros Hinv Ha Hb Hfuel. pose proof (ds_inv_fuel n ds a Hinv Ha) as Hk.
  destruct Hinv as [Hlen Hszlen [rho Hrk] Hsized]. destruct ds as [p s]. simpl in *.
  set (k := n - rootCount p) in *.
  destruct (unite_spec fuel p s rho k a b Hrk)
    as (ra & rb & p1 & p2 & Hra & Hrb & Hc1 & Hc2 & Hrun); [lia | lia | lia |].
  pose proof (compressed_ranked _ _ _ _ _ _ Hrk Hra Hc1) as Hrk1.
  pose proof (compressed_roots_kept _ _ _ _ _ _ Hrk Hra Hc1) as Hk1.
  assert (root_of p1 b rb) as Hrb1 by by apply Hk1.
  pose proof (compressed_ranked _ _ _ _ _ _ Hrk1 Hrb1 Hc2) as Hrk2.
  pose proof (compressed_roots_kept _ _ _ _ _ _ Hrk1 Hrb1 Hc2) as Hk2.
  pose proof (roots_kept_trans _ _ _ Hk1 Hk2) as Hkept.
  assert (rootCount p2 = rootCount p) as Hcount.
  { rewrite (rootCount_compressed p1 rho k b rb p2) by done.
    by apply (rootCount_compressed p rho k a ra p1). }
  pose proof (sized_kept p p2 s rho k Hrk Hkept Hsized) as Hsized2.
  destruct (root_of_is_root _ _ _ Hra) as [Hrain Hrae].
  destruct (root_of_is_root _ _ _ Hrb) as [Hrbin Hrbe].
  assert (root_of p ra ra) as Hraa by by apply root_here.
  assert (root_of p rb rb) as Hrbb by by apply root_here.
  assert (root_of p2 ra ra) as Hraa2 by by apply Hkept.
  assert (root_of p2 rb rb) as Hrbb2 by by apply Hkept.
  destruct (root_of_is_root _ _ _ Hraa2) as [_ Hrae2].
  destruct (root_of_is_root _ _ _ Hrbb2) as [_ Hrbe2].
  assert (forall x y, same p2 x y <-> same p x y) as Hsame.
  { intros x y. unfold same. split; intros (r & H1 & H2); exists r;
      (split; [by apply (roots_kept_iff p p2 rho k _ r Hrk Hkept)
              | by apply (roots_kept_iff p p2 rho k _ r Hrk Hkept)]). }
  destruct Hkept as [Hlen2 Hkeep].
  exists ra, rb, (vget 0 s ra), (vget 0 s rb), (united s p2 ra rb).
  split; [done|]. split; [done|]. split; [by apply Hsized|]. split; [by apply Hsized|].
  split; [done|]. unfold united.
  destruct (decide (ra = rb)) as [Heq | Hne].
  - split; [|split; [done | done]].
    split; simpl; [lia | done | exists rho; rewrite Hcount; exact Hrk2 | done].
  - destruct (Z.ltb_spec (vget 0 s ra) (vget 0 s rb)) as [Hlt | Hge]; simpl.
    + assert (rb <> ra) as Hne' by by apply not_eq_sym.
      pose proof (sized_link p2 s rho k rb ra Hrk2 Hne' Hrbb2 Hraa2 ltac:(lia) Hsized2)
        as Hsized'.
      assert (root_of (vset p2 ra rb) rb rb) as Hroot'.
      { apply root_here; [rewrite zlen_vset; lia | by rewrite vget_vset_ne by done]. }
      split; [|split; [done|]].
      * split; simpl.
        -- rewrite zlen_vset. lia.
        -- rewrite zlen_vset. lia.
        -- eexists. rewrite rootCount_link by done.
           replace (n - (rootCount p2 - 1)) with (k + 1) by (unfold k; lia).
           by apply link_ranked.
        -- done.
      * intros _. split; [apply vget_vset_eq; lia|].
        split; [by rewrite vget_vset_ne by done|].
        split.
        -- pose proof (Hsized' rb Hroot') as Hcs. rewrite vget_vset_eq in Hcs by lia.
           by rewrite Z.add_comm.
        -- intros x y Hx Hy.
           rewrite (same_link p2 rho k rb ra a b x y Hrk2) by first [lia | done | by right; split; apply Hkeep].
           rewrite !Hsame. done.
    + pose proof (sized_link p2 s rho k ra rb Hrk2 Hne Hraa2 Hrbb2 ltac:(lia) Hsized2)
        as Hsized'.
      assert (root_of (vset p2 rb ra) ra ra) as Hroot'.
      { apply root_here; [rewrite zlen_vset; lia | by rewrite vget_vset_ne by done]. }
      split; [|split; [done|]].
      * split; simpl.
        -- rewrite zlen_vset. lia.
        -- rewrite zlen_vset. lia.
        -- eexists. rewrite rootCount_link by done.
           replace (n - (rootCount p2 - 1)) with (k + 1) by (unfold k; lia).
           by apply link_ranked.
        -- done.
      * intros _. split; [apply vget_vset_eq; lia|].
        split; [by rewrite vget_vset_ne by done|].
        split.
        -- pose proof (Hsized' ra Hroot') as Hcs. by rewrite vget_vset_eq in Hcs by lia.
        -- intros x y Hx Hy.
           rewrite (same_link p2 rho k ra rb a b x y Hrk2) by first [lia | done | by left; split; apply Hkeep].
           rewrite !Hsame. done.
Qed.

End UnionFindOps.

(** * The claims *)

Section Adjacency.

(** C3: for an in-bounds cell and a direction in 0..3 whose neighbour is in
    bounds, [canMove] from the cell towards the neighbour equals [canMove]
    from the neighbour in the opposite direction. *)
Theorem canMove_symmetric (m : Maze) (x y dir : Z) :
  0 <= x < mazeW m -> 0 <= y < mazeH m ->
  0 <= dir <= 3 ->
  inBounds (mazeW m) (mazeH m) (nextX x dir) (nextY y dir) = true ->
  canMove m x y dir = canMove m (nextX x dir) (nextY y dir) (opposite dir).
Proof.
  intros Hx Hy Hd Hb. apply inBounds_spec in Hb.
  assert (dir = 0 \/ dir = 1 \/ dir = 2 \/ dir = 3) as Hcase by lia.
  destruct Hcase as [-> | [-> | [-> | ->]]];
    unfold canMove, nextX, nextY, opposite, b2z in *; simpl in *;
    repeat match goal with
      | |- context [?a =? ?b] => destruct (Z.eqb_spec a b); try lia
      | |- context [?a >=? ?b] => destruct (Z.geb_spec a b); try lia
      end;
    try (f_equal; f_equal; lia); try reflexivity.
Qed.

Lemma canMove_symmetric_witness :
  canMove sampleMaze 0 0 1 = canMove sampleMaze (nextX 0 1) (nextY 0 1) (opposite 1).
Proof. apply canMove_symmetric; simpl; first [lia | reflexivity]. Defined.

(** C10: for an in-bounds cell, a direction code outside 0..3 makes
    [canMove] answer [false]. *)
Theorem canMove_bad_dir (m : Maze) (x y dir : Z) :
  0 <= x < mazeW m -> 0 <= y < mazeH m ->
  ~ (0 <= dir <= 3) ->
  canMove m x y dir = false.
Proof.
  intros _ _ Hd. unfold canMove.
  repeat match goal with
    | |- context [?a =? ?b] => destruct (Z.eqb_spec a b); try lia
    end; reflexivity.
Qed.

Lemma canMove_bad_dir_witness : canMove sampleMaze 1 1 7 = false.
Proof. apply canMove_bad_dir; simpl; lia. Defined.

End Adjacency.

Section Generation.
Variable shuffle : Z -> list Edge -> list Edge.
Hypothesis shuffle_perm : forall seed l, shuffle seed l ≡ₚ l.

(** C1: for every width and height above zero (whose product, the number
    of cells, fits an [int]), generation returns a maze of these dimensions
    whose passages form a spanning tree of the cells: connected, without a
    cycle, with exactly W*H - 1 removed walls (each of them between two
    cells), and with exactly one simple path between any two cells. *)
Theorem generate_spanning_tree (fuel : nat) (now W H : Z) :
  0 < W -> 0 < H -> W * H <= INT_MAX -> W * H <= Z.of_nat fuel ->
  exists m, generate shuffle fuel now W H = Some m /\
            mazeW m = W /\ mazeH m = H /\
            maze_ok m /\ walls_inner m /\
            connected m /\ acyclic m /\
            removedWalls m = W * H - 1 /\
            unique_paths m.
Proof.
  intros HW HH _ Hfuel.
  destruct (generate_tree shuffle shuffle_perm fuel now W H HW HH Hfuel)
    as (m & Hrun & HmW & HmH & Htree).
  exists m. destruct Htree. rewrite HmW, HmH in *. done.
Qed.

(** C7: on every generated maze each strategy marks a simple path: its
    consecutive cells are joined by a passage [canMove] allows, no cell
    occurs twice, it starts at the start cell and ends at the goal cell. *)
Theorem final_path_simple (fuelG fuel : nat) (now W H : Z) (m : Maze) (s : Strategy) :
  0 < W -> 0 < H -> W * H <= INT_MAX ->
  W * H <= Z.of_nat fuelG ->
  2 * (W * H) * (W * H) + 2 <= Z.of_nat fuel ->
  generate shuffle fuelG now W H = Some m ->
  exists f, run s fuel m = Some f /\
            is_path (passage m) (finalPath f) /\
            NoDup (finalPath f) /\
            head (finalPath f) = Some startCell /\
            last (finalPath f) = Some (goalCell m).
Proof.
  intros HW HH Hint HfuelG Hfuel Hgen.
  destruct (generate_tree shuffle shuffle_perm fuelG now W H HW HH HfuelG)
    as (m' & Hrun & HmW & HmH & Htree).
  rewrite Hgen in Hrun. simplify_eq.
  destruct (run_simple_path m' HW HH Hint s fuel) as (f & Hf & (Hp & Hh & Hl) & Hnd).
  - apply (st_connected _ Htree); [by apply start_cellIn | by apply goal_cellIn].
  - lia.
  - by exists f.
Qed.

(** C2: on every generated maze each of the four strategies marks a path
    through passages from the start cell to the goal cell; the paths of
    BFS, Dijkstra and A* walk through the same number of passages, no walk
    from the start to the goal gets by with fewer, and the path of DFS has
    at least as many. *)
Theorem shortest_paths_agree (fuelG fuel : nat) (now W H : Z) (m : Maze) :
  0 < W -> 0 < H -> W * H <= INT_MAX ->
  W * H <= Z.of_nat fuelG ->
  2 * (W * H) * (W * H) + 2 <= Z.of_nat fuel ->
  generate shuffle fuelG now W H = Some m ->
  exists fB fD fA fDFS,
    run BFS fuel m = Some fB /\ run Dijkstra fuel m = Some fD /\
    run AStar fuel m = Some fA /\ run DFS fuel m = Some fDFS /\
    path_between (passage m) startCell (goalCell m) (finalPath fB) /\
    path_between (passage m) startCell (goalCell m) (finalPath fD) /\
    path_between (passage m) startCell (goalCell m) (finalPath fA) /\
    path_between (passage m) startCell (goalCell m) (finalPath fDFS) /\
    edgeCount (finalPath fB) = edgeCount (finalPath fD) /\
    edgeCount (finalPath fD) = edgeCount (finalPath fA) /\
    (forall w, path_between (passage m) startCell (goalCell m) w ->
               (edgeCount (finalPath fB) <= edgeCount w)%nat) /\
    (edgeCount (finalPath fB) <= edgeCount (finalPath fDFS))%nat.
Proof.
  intros HW HH Hint HfuelG Hfuel Hgen.
  destruct (generate_tree shuffle shuffle_perm fuelG now W H HW HH HfuelG)
    as (m' & Hrun & HmW & HmH & Htree).
  rewrite Hgen in Hrun. simplify_eq.
  assert (rtc (passage m') startCell (goalCell m')) as Hreach.
  { apply (st_connected _ Htree); [by apply start_cellIn | by apply goal_cellIn]. }
  destruct (st_unique _ Htree startCell (goalCell m')) as (p & Hp & Huniq);
    [by apply start_cellIn | by apply goal_cellIn |].
  destruct (run_simple_path m' HW HH Hint BFS fuel Hreach) as (fB & HfB & HpB); [lia|].
  destruct (run_simple_path m' HW HH Hint Dijkstra fuel Hreach) as (fD & HfD & HpD); [lia|].
  destruct (run_simple_path m' HW HH Hint AStar fuel Hreach) as (fA & HfA & HpA); [lia|].
  destruct (run_simple_path m' HW HH Hint DFS fuel Hreach) as (fS & HfS & HpS); [lia|].
  exists fB, fD, fA, fS. repeat (split; [done|]).
  split; [apply HpB|]. split; [apply HpD|]. split; [apply HpA|]. split; [apply HpS|].
  rewrite (Huniq _ HpB), (Huniq _ HpD), (Huniq _ HpA), (Huniq _ HpS).
  split; [done|]. split; [done|]. split; [|done].
  intros w Hw. destruct (walk_simplify _ _ _ _ Hw) as (q & Hq & Hlen).
  rewrite <- (Huniq _ Hq). unfold edgeCount. lia.
Qed.

(** C5, amended: there is no dimension check.  A negative width makes the
    construction fail, whatever the height, and no maze is produced; with a
    width or height of zero and neither negative, construction succeeds and
    generation returns the grid it was given: a maze without cells and
    without a removed wall.  Of a negative height with a width that is not
    negative nothing is said. *)
Theorem nonpositive_dimensions (fuel : nat) (now w h : Z) :
  w <= 0 \/ h <= 0 ->
  (w < 0 -> Maze_new w h = None /\ generate shuffle fuel now w h = None) /\
  (0 <= w -> 0 <= h ->
   exists m, generate shuffle fuel now w h = Some m /\
             Maze_new w h = Some m /\
             mazeW m = w /\ mazeH m = h /\
             removedWalls m = 0 /\ forall c, ~ cellIn m c).
Proof.
  intros Hdim. unfold generate, Maze_new. split.
  - intros Hneg. destruct (Z.ltb_spec w 0); [done | lia].
  - intros Hw Hh.
    destruct (Z.ltb_spec w 0); [lia|]. destruct (Z.ltb_spec h 0); [lia|].
    simpl. unfold generateRandom. simpl.
    assert (allEdges w h = []) as ->.
    { destruct (allEdges w h) as [|e l] eqn:He; [done|].
      assert (e ∈ allEdges w h) as Hin by (rewrite He; apply list_elem_of_here).
      apply elem_of_allEdges in Hin. lia. }
    pose proof (shuffle_perm (now mod 2 ^ 32) []) as Hnil.
    apply Permutation_nil_r in Hnil. rewrite Hnil. simpl.
    eexists. split; [done|]. split; [done|]. simpl.
    split; [done|]. split; [done|]. split.
    + unfold removedWalls. simpl. by rewrite countFalse_fresh.
    + intros c Hc. unfold cellIn in Hc. simpl in Hc. nia.
Qed.

End Generation.

Lemma keepOrder_perm seed l : keepOrder seed l ≡ₚ l.
Proof. done. Qed.

Lemma generate_sample : generate keepOrder 6 0 3 2 = Some sampleMaze.
Proof. vm_compute. reflexivity. Qed.

Lemma generate_spanning_tree_witness :
  exists m, generate keepOrder 6 0 3 2 = Some m /\
            mazeW m = 3 /\ mazeH m = 2 /\
            maze_ok m /\ walls_inner m /\
            connected m /\ acyclic m /\ removedWalls m = 3 * 2 - 1 /\ unique_paths m.
Proof.
  apply (generate_spanning_tree keepOrder keepOrder_perm 6 0 3 2);
    unfold INT_MAX; simpl; lia.
Defined.

Lemma final_path_simple_witness :
  exists f, run AStar 74 sampleMaze = Some f /\
            is_path (passage sampleMaze) (finalPath f) /\
            NoDup (finalPath f) /\
            head (finalPath f) = Some startCell /\
            last (finalPath f) = Some (goalCell sampleMaze).
Proof.
  apply (final_path_simple keepOrder keepOrder_perm 6 74 0 3 2 sampleMaze AStar);
    first [exact generate_sample | unfold INT_MAX; simpl; lia].
Defined.

Lemma shortest_paths_agree_witness :
  exists fB fD fA fDFS,
    run BFS 74 sampleMaze = Some fB /\ run Dijkstra 74 sampleMaze = Some fD /\
    run AStar 74 sampleMaze = Some fA /\ run DFS 74 sampleMaze = Some fDFS /\
    path_between (passage sampleMaze) startCell (goalCell sampleMaze) (finalPath fB) /\
    path_between (passage sampleMaze) startCell (goalCell sampleMaze) (finalPath fD) /\
    path_between (passage sampleMaze) startCell (goalCell sampleMaze) (finalPath fA) /\
    path_between (passage sampleMaze) startCell (goalCell sampleMaze) (finalPath fDFS) /\
    edgeCount (finalPath fB) = edgeCount (finalPath fD) /\
    edgeCount (finalPath fD) = edgeCount (finalPath fA) /\
    (forall w, path_between (passage sampleMaze) startCell (goalCell sampleMaze) w ->
               (edgeCount (finalPath fB) <= edgeCount w)%nat) /\
    (edgeCount (finalPath fB) <= edgeCount (finalPath fDFS))%nat.
Proof.
  apply (shortest_paths_agree keepOrder keepOrder_perm 6 74 0 3 2 sampleMaze);
    first [exact generate_sample | unfold INT_MAX; simpl; lia].
Defined.

(** C5 as stated fails: a width or a height of zero builds a maze, and so
    does the width zero with the height -2. *)
Lemma nonpositive_dimensions_build_a_maze :
  generate keepOrder 0 0 0 0 = Some (mkMaze 0 0 [] []) /\
  generate keepOrder 0 0 3 0 = Some (mkMaze 3 0 [[]; []; []] [[]; []; []]) /\
  generate keepOrder 0 0 0 (-2) = Some (mkMaze 0 (-2) [] []).
Proof. repeat split; vm_compute; reflexivity. Qed.

Lemma nonpositive_dimensions_witness :
  (0 < 0 -> Maze_new 0 5 = None /\ generate keepOrder 0 0 0 5 = None) /\
  (0 <= 0 -> 0 <= 5 ->
   exists m, generate keepOrder 0 0 0 5 = Some m /\
             Maze_new 0 5 = Some m /\
             mazeW m = 0 /\ mazeH m = 5 /\
             removedWalls m = 0 /\ forall c, ~ cellIn m c).
Proof. apply (nonpositive_dimensions keepOrder keepOrder_perm 0 0 0 5). lia. Defined.

Section Searches.

(** C9: on every maze with positive dimensions (whose cell count fits an
    [int]) the loop of each strategy ends, within [2*(W*H)^2 + 2] iterations,
    in one of two ways, and the run shows its final frame.  Either the loop
    is left by its [break], and then the goal cell is among the cells the
    search has reached, each of them but the start with a parent one passage
    away; or the frontier has run empty, and then the goal cell is not among
    the cells reached and no passage leads from a reached cell to one that
    is not. *)
Theorem search_terminates (m : Maze) (s : Strategy) (fuel : nat) :
  0 < mazeW m -> 0 < mazeH m -> mazeW m * mazeH m <= INT_MAX ->
  2 * (mazeW m * mazeH m) * (mazeW m * mazeH m) + 2 <= Z.of_nat fuel ->
  exists exit par f,
    searchLoop s fuel m = Some (exit, par) /\ run s fuel m = Some f /\
    search_outcome m exit par.
Proof.
  intros HW HH Hint Hfuel.
  destruct (searchLoop_total m HW HH Hint s fuel) as (exit & par & Hloop & Hout);
    [lia|].
  destruct (run_total m HW HH Hint s fuel) as (exit' & par' & f & Hloop' & Hrun);
    [lia|].
  rewrite Hloop in Hloop'. injection Hloop' as <- <-.
  by exists exit, par, f.
Qed.

Lemma search_terminates_witness :
  exists exit par f,
    searchLoop Dijkstra 10 walledMaze = Some (exit, par) /\
    run Dijkstra 10 walledMaze = Some f /\
    search_outcome walledMaze exit par.
Proof. apply search_terminates; unfold INT_MAX; simpl; lia. Defined.

(** C4 as stated fails: with every wall standing the frontier of each
    strategy runs empty before the goal is reached, and the run still shows
    the frame that announces an exit, marking the goal cell alone, which is
    no path from the start. *)
Lemma frontier_empty_announces_exit :
  (searchLoop DFS 10 walledMaze = Some (FrontierEmpty, [-1; -1]) /\
   searchLoop BFS 10 walledMaze = Some (FrontierEmpty, [-1; -1]) /\
   searchLoop Dijkstra 10 walledMaze = Some (FrontierEmpty, [-1; -1]) /\
   searchLoop AStar 10 walledMaze = Some (FrontierEmpty, [-1; -1])) /\
  (run DFS 10 walledMaze =
     Some (mkFinalFrame "FINAL (exit found) - displaying path" [1]) /\
   run BFS 10 walledMaze =
     Some (mkFinalFrame "FINAL (exit found) - displaying path" [1]) /\
   run Dijkstra 10 walledMaze =
     Some (mkFinalFrame "FINAL (exit found) - displaying path" [1]) /\
   run AStar 10 walledMaze =
     Some (mkFinalFrame "FINAL (exit found) - displaying path" [1])) /\
  ~ path_between (passage walledMaze) startCell (goalCell walledMaze)
      (finalPath (mkFinalFrame "FINAL (exit found) - displaying path" [1])).
Proof.
  split; [repeat split; vm_compute; reflexivity|].
  split; [repeat split; vm_compute; reflexivity|].
  intros (_ & Hh & _). vm_compute in Hh. discriminate.
Qed.

(** C4, amended: there is no unreachable-goal report.  When the loop of a
    strategy ends with its frontier empty, the run shows the frame
    "FINAL (exit found) - displaying path" with the goal cell as the only
    marked cell. *)
Theorem frontier_empty_frame (m : Maze) (s : Strategy) (fuel : nat) (par : list Z) :
  0 < mazeW m -> 0 < mazeH m -> mazeW m * mazeH m <= INT_MAX ->
  2 * (mazeW m * mazeH m) * (mazeW m * mazeH m) + 2 <= Z.of_nat fuel ->
  searchLoop s fuel m = Some (FrontierEmpty, par) ->
  run s fuel m =
    Some (mkFinalFrame "FINAL (exit found) - displaying path" [goalCell m]).
Proof.
  intros HW HH Hint Hfuel Hloop.
  apply (run_frontier_empty m HW HH Hint s fuel par); first [done | lia].
Qed.

Lemma frontier_empty_frame_witness :
  run BFS 10 walledMaze =
    Some (mkFinalFrame "FINAL (exit found) - displaying path" [goalCell walledMaze]).
Proof.
  apply (frontier_empty_frame walledMaze BFS 10 [-1; -1]);
    first [reflexivity | unfold INT_MAX; simpl; lia].
Defined.

End Searches.

Section UnionFind.

Lemma chainSet_built :
  (let* _ := unite 4 0 1 in let* _ := unite 4 2 3 in unite 4 0 2) (DisjointSet_new 4)
  = Some (tt, chainSet).
Proof. vm_compute. reflexivity. Qed.

(** C8 as stated fails: [unite] returns nothing, so a call that merges and a
    call that does not hand back the same value; and on two elements of one
    component it still re-parents the nodes it visits. *)
Lemma unite_returns_nothing :
  unite 2 0 1 (DisjointSet_new 2) = Some (tt, mkDisjointSet [0; 0] [2; 1]) /\
  unite 2 0 0 (DisjointSet_new 2) = Some (tt, DisjointSet_new 2) /\
  unite 4 3 1 chainSet = Some (tt, mkDisjointSet [0; 0; 0; 0] [4; 1; 2; 1]).
Proof. repeat split; vm_compute; reflexivity. Qed.

(** C8, amended: on a structure over [n] elements built by the three
    operations, with fuel [n]: [findRoot x] returns the representative of
    the component of [x] and re-parents the nodes it visited to it;
    [unite a b] returns nothing; when the two representatives are equal it
    leaves the sizes and the components as they are; otherwise the
    representative of the smaller component (the second on a tie) is put
    under the other, whose component then has both sizes together, and the
    two components become one. *)
Theorem union_find_operations (n : Z) (ds : DisjointSet) (fuel : nat) :
  ds_inv n ds -> n <= Z.of_nat fuel ->
  (forall x, 0 <= x < n ->
     exists r ds',
       findRoot fuel x ds = Some (r, ds') /\
       root_of (parent ds) x r /\
       compressed (parent ds) x r (parent ds') /\
       sz ds' = sz ds /\ ds_inv n ds') /\
  (forall a b, 0 <= a < n -> 0 <= b < n ->
     exists ra rb na nb ds',
       root_of (parent ds) a ra /\ root_of (parent ds) b rb /\
       comp_size (parent ds) ra na /\ comp_size (parent ds) rb nb /\
       unite fuel a b ds = Some (tt, ds') /\ ds_inv n ds' /\
       (ra = rb ->
          sz ds' = sz ds /\
          forall x y, same (parent ds') x y <-> same (parent ds) x y) /\
       (ra <> rb ->
          let big := if na <? nb then rb else ra in
          let small := if na <? nb then ra else rb in
          vget 0 (parent ds') small = big /\ vget 0 (parent ds') big = big /\
          comp_size (parent ds') big (na + nb) /\
          forall x y, 0 <= x < n -> 0 <= y < n ->
            (same (parent ds') x y <->
             same (parent ds) x y \/
             (same (parent ds) x a /\ same (parent ds) b y) \/
             (same (parent ds) x b /\ same (parent ds) a y)))).
Proof.
  intros Hinv Hfuel. split.
  - intros x Hx. by apply findRoot_ok.
  - intros a b Ha Hb. by apply unite_ok.
Qed.

Lemma union_find_operations_witness :
  exists ra rb na nb ds',
    root_of (parent (DisjointSet_new 2)) 0 ra /\
    root_of (parent (DisjointSet_new 2)) 1 rb /\
    comp_size (parent (DisjointSet_new 2)) ra na /\
    comp_size (parent (DisjointSet_new 2)) rb nb /\
    unite 2 0 1 (DisjointSet_new 2) = Some (tt, ds') /\ ds_inv 2 ds' /\
    (ra = rb ->
       sz ds' = sz (DisjointSet_new 2) /\
       forall x y, same (parent ds') x y <-> same (parent (DisjointSet_new 2)) x y) /\
    (ra <> rb ->
       let big := if na <? nb then rb else ra in
       let small := if na <? nb then ra else rb in
       vget 0 (parent ds') small = big /\ vget 0 (parent ds') big = big /\
       comp_size (parent ds') big (na + nb) /\
       forall x y, 0 <= x < 2 -> 0 <= y < 2 ->
         (same (parent ds') x y <->
          same (parent (DisjointSet_new 2)) x y \/
          (same (parent (DisjointSet_new 2)) x 0 /\ same (parent (DisjointSet_new 2)) 1 y) \/
          (same (parent (DisjointSet_new 2)) x 1 /\ same (parent (DisjointSet_new 2)) 0 y))).
Proof.
  destruct (union_find_operations 2 (DisjointSet_new 2) 2) as [_ Hunite];
    [apply ds_inv_new; lia | simpl; lia | apply Hunite; lia].
Defined.

End UnionFind.

(** * Further properties *)

(** ** Union-find *)

Section UnionFindMore.
Implicit Types (p s : list Z) (x y r a b : Z).

Lemma vset_same {A} (d : A) (v : list A) i :
  0 <= i < zlen v -> vset v i (vget d v i) = v.
Proof.
  intros Hi. unfold vset. destruct (Z.leb_spec 0 i); [|lia].
  apply list_insert_id. by apply vget_lookup.
Qed.

Lemma ds_inv_ranked n ds :
  ds_inv n ds -> exists rho, ranked (parent ds) rho (n - rootCount (parent ds)).
Proof. by intros []. Qed.

(** X1: [findRoot] is idempotent.  On a structure over [n] elements built by
    the three operations, with fuel [n], a second [findRoot x] returns the
    representative the first one returned and changes nothing any more: the
    first call has already put [x] directly under its representative. *)
Theorem findRoot_idempotent n ds fuel x :
  ds_inv n ds -> 0 <= x < n -> n <= Z.of_nat fuel ->
  exists r ds',
    findRoot fuel x ds = Some (r, ds') /\ findRoot fuel x ds' = Some (r, ds') /\
    0 <= r < n /\ vget 0 (parent ds') r = r.
Proof.
  intros Hinv Hx Hfuel.
  destruct (findRoot_ok n ds fuel x Hinv Hx Hfuel) as (r & ds' & Hrun & Hroot & Hc & Hsz & Hinv').
  exists r, ds'. split; [done|].
  destruct Hc as [Hlen Hc].
  destruct (root_of_is_root _ _ _ Hroot) as [Hr Her].
  pose proof (dsi_len _ _ Hinv) as Hn.
  assert (vget 0 (parent ds') x = r) as Hpx by (apply Hc; constructor).
  assert (vget 0 (parent ds') r = r) as Hpr by (apply Hc; by apply root_of_on_path).
  split; [|split; [lia | done]].
  destruct ds' as [p' s']. simpl in *.
  destruct fuel as [|fuel]; [lia|]. simpl. rewrite Hpx.
  destruct (Z.eqb_spec r x) as [-> | Hne]; [done|].
  destruct fuel as [|fuel]; [lia|]. unfold ds_bind. simpl. rewrite Hpr, Z.eqb_refl.
  unfold ds_ret, set_parent. simpl.
  assert (vset p' x r = p') as ->; [|done].
  rewrite <- Hpx at 1. apply vset_same. lia.
Qed.

Lemma findRoot_idempotent_witness :
  exists r ds',
    findRoot 3 1 (DisjointSet_new 3) = Some (r, ds') /\
    findRoot 3 1 ds' = Some (r, ds') /\
    0 <= r < 3 /\ vget 0 (parent ds') r = r.
Proof.
  apply (findRoot_idempotent 3 (DisjointSet_new 3) 3 1);
    [apply ds_inv_new; lia | lia | simpl; lia].
Defined.

(** X2: after [unite a b] the two elements are in one component: the
    [findRoot a] and the [findRoot b] that follow return the same
    representative. *)
Theorem unite_joins n ds fuel a b :
  ds_inv n ds -> 0 <= a < n -> 0 <= b < n -> n <= Z.of_nat fuel ->
  exists ds1 r ds2 ds3,
    unite fuel a b ds = Some (tt, ds1) /\
    findRoot fuel a ds1 = Some (r, ds2) /\
    findRoot fuel b ds2 = Some (r, ds3).
Proof.
  intros Hinv Ha Hb Hfuel.
  destruct (unite_ok n ds fuel a b Hinv Ha Hb Hfuel)
    as (ra & rb & na & nb & ds1 & Hra & Hrb & _ & _ & Hrun & Hinv1 & Heq & Hne).
  assert (same (parent ds1) a b) as (r & Har & Hbr).
  { destruct (decide (ra = rb)) as [-> | Hd].
    - apply (Heq eq_refl). by exists rb.
    - destruct (Hne Hd) as (_ & _ & _ & Hs). apply Hs; [done | done |].
      right. left. split; [by exists ra | by exists rb]. }
  destruct (findRoot_ok n ds1 fuel a Hinv1 Ha Hfuel) as (r1 & ds2 & Hrun1 & Hr1 & Hc1 & _ & Hinv2).
  destruct (findRoot_ok n ds2 fuel b Hinv2 Hb Hfuel) as (r2 & ds3 & Hrun2 & Hr2 & _).
  destruct (ds_inv_ranked _ _ Hinv1) as [rho Hrk].
  pose proof (compressed_roots_kept _ _ _ _ _ _ Hrk Hr1 Hc1) as [_ Hk].
  assert (r1 = r) as -> by by eapply root_of_inj.
  assert (r2 = r) as -> by (eapply root_of_inj; [done | by apply Hk]).
  by exists ds1, r, ds2, ds3.
Qed.

Lemma unite_joins_witness :
  exists ds1 r ds2 ds3,
    unite 3 0 2 (DisjointSet_new 3) = Some (tt, ds1) /\
    findRoot 3 0 ds1 = Some (r, ds2) /\
    findRoot 3 2 ds2 = Some (r, ds3).
Proof.
  apply (unite_joins 3 (DisjointSet_new 3) 3 0 2);
    [apply ds_inv_new; lia | lia | lia | simpl; lia].
Defined.

(** X3: the order of the two arguments of [unite] does not matter for the
    components: after [unite a b] and after [unite b a] the same pairs of
    elements share a representative (the parent arrays themselves may
    differ). *)
Theorem unite_commutes n ds fuel a b :
  ds_inv n ds -> 0 <= a < n -> 0 <= b < n -> n <= Z.of_nat fuel ->
  exists ds1 ds2,
    unite fuel a b ds = Some (tt, ds1) /\
    unite fuel b a ds = Some (tt, ds2) /\
    forall x y, 0 <= x < n -> 0 <= y < n ->
      (same (parent ds1) x y <-> same (parent ds2) x y).
Proof.
  intros Hinv Ha Hb Hfuel.
  destruct (unite_ok n ds fuel a b Hinv Ha Hb Hfuel)
    as (ra & rb & na & nb & ds1 & Hra & Hrb & _ & _ & Hrun1 & _ & Heq1 & Hne1).
  destruct (unite_ok n ds fuel b a Hinv Hb Ha Hfuel)
    as (rb' & ra' & nb' & na' & ds2 & Hrb' & Hra' & _ & _ & Hrun2 & _ & Heq2 & Hne2).
  assert (ra' = ra) as -> by by eapply root_of_inj.
  assert (rb' = rb) as -> by by eapply root_of_inj.
  exists ds1, ds2. split; [done|]. split; [done|]. intros x y Hx Hy.
  destruct (decide (ra = rb)) as [He | Hd].
  - destruct (Heq1 He) as [_ H1]. destruct (Heq2 (eq_sym He)) as [_ H2].
    by rewrite H1, H2.
  - destruct (Hne1 Hd) as (_ & _ & _ & H1).
    destruct (Hne2 (fun e => Hd (eq_sym e))) as (_ & _ & _ & H2).
    rewrite (H1 x y Hx Hy), (H2 x y Hx Hy). tauto.
Qed.

Lemma unite_commutes_witness :
  exists ds1 ds2,
    unite 3 0 2 (DisjointSet_new 3) = Some (tt, ds1) /\
    unite 3 2 0 (DisjointSet_new 3) = Some (tt, ds2) /\
    forall x y, 0 <= x < 3 -> 0 <= y < 3 ->
      (same (parent ds1) x y <-> same (parent ds2) x y).
Proof.
  apply (unite_commutes 3 (DisjointSet_new 3) 3 0 2);
    [apply ds_inv_new; lia | lia | lia | simpl; lia].
Defined.

(** X4: [unite] lowers the number of components (of self-parented
    elements) by exactly one when its arguments were in two components, and
    leaves it as it is when they were in one. *)
Theorem unite_count n ds fuel a b :
  ds_inv n ds -> 0 <= a < n -> 0 <= b < n -> n <= Z.of_nat fuel ->
  exists ds',
    unite fuel a b ds = Some (tt, ds') /\
    (same (parent ds) a b -> rootCount (parent ds') = rootCount (parent ds)) /\
    (~ same (parent ds) a b -> rootCount (parent ds') = rootCount (parent ds) - 1).
Proof.
  intros Hinv Ha Hb Hfuel.
  destruct (ds_inv_ranked _ _ Hinv) as [rho Hrk].
  pose proof (dsi_len _ _ Hinv) as Hn.
  destruct ds as [p s]. simpl in *.
  destruct (root_exists _ _ _ a Hrk ltac:(lia)) as [ra Hra].
  destruct (root_exists _ _ _ b Hrk ltac:(lia)) as [rb Hrb].
  pose proof (rootCount_pos _ _ _ Hra) as Hpos.
  destruct (decide (ra = rb)) as [-> | Hd].
  - destruct (unite_noop fuel p s rho _ a b Hrk) as (p' & Hrun & _ & _ & Hcnt);
      [lia | lia | lia | by exists rb |].
    exists (mkDisjointSet p' s). split; [done|]. split; [done|].
    intros Hns. destruct Hns. by exists rb.
  - assert (~ same p a b) as Hns.
    { intros (r & H1 & H2). apply Hd.
      rewrite (root_of_inj _ _ _ _ Hra H1). by apply (root_of_inj _ _ _ _ H2 Hrb). }
    destruct (unite_merge fuel p s rho _ a b Hrk) as (p' & s' & rho' & Hrun & _ & _ & Hcnt & _);
      [lia | lia | lia | done |].
    exists (mkDisjointSet p' s'). split; [done|]. split; [done | done].
Qed.

Lemma unite_count_witness :
  exists ds',
    unite 3 0 2 (DisjointSet_new 3) = Some (tt, ds') /\
    (same (parent (DisjointSet_new 3)) 0 2 ->
       rootCount (parent ds') = rootCount (parent (DisjointSet_new 3))) /\
    (~ same (parent (DisjointSet_new 3)) 0 2 ->
       rootCount (parent ds') = rootCount (parent (DisjointSet_new 3)) - 1).
Proof.
  apply (unite_count 3 (DisjointSet_new 3) 3 0 2);
    [apply ds_inv_new; lia | lia | lia | simpl; lia].
Defined.

End UnionFindMore.

(** ** Union by size keeps the trees shallow *)

Section Balanced.
Implicit Types (p s : list Z) (x y r a b : Z).

Lemma ranked_mono p rho k k' : k <= k' -> ranked p rho k -> ranked p rho k'.
Proof.
  intros Hk Hrk x Hx. destruct (Hrk x Hx) as (Hrho & Hp & Hup).
  split; [lia|]. by split.
Qed.

Lemma comp_size_le p r n : comp_size p r n -> n <= zlen p.
Proof.
  intros (l & Hnd & Hl & <-).
  assert (l ⊆+ seqZ 0 (zlen p)) as Hsub.
  { apply NoDup_submseteq; [done|]. intros x Hx%Hl%root_of_range.
    apply elem_of_seqZ. lia. }
  apply submseteq_length in Hsub. rewrite length_seqZ in Hsub. unfold zlen in *. lia.
Qed.

Lemma comp_size_pos p r n : root_of p r r -> comp_size p r n -> 1 <= n.
Proof.
  intros Hr (l & _ & Hl & <-). apply Hl in Hr.
  destruct l as [|z l]; [by apply elem_of_nil in Hr|]. rewrite length_cons. lia.
Qed.

(** Linking the root [S] under the root [B], whose height becomes [hB]. *)
Lemma link_ranked_hgt p hgt k B S hB :
  ranked p hgt k -> B <> S -> root_of p B B -> root_of p S S ->
  hgt B <= hB -> hgt S < hB -> hB <= k ->
  ranked (vset p S B) (fun z => if decide (z = B) then hB else hgt z) k.
Proof.
  intros Hrk Hne HB HS HhB HhS HhBk x Hx. rewrite zlen_vset in *.
  destruct (root_of_is_root _ _ _ HB) as [HBin HBe].
  destruct (root_of_is_root _ _ _ HS) as [HSin HSe].
  destruct (Hrk x Hx) as (Hrho & Hp & Hup).
  destruct (Hrk B HBin) as (HrhoB & _).
  split; [case_decide; lia|].
  destruct (decide (x = S)) as [-> | HxS].
  - rewrite vget_vset_eq by done. split; [done|]. intros _.
    rewrite (decide_False (P := S = B)) by done. rewrite decide_True by done. lia.
  - rewrite vget_vset_ne by done. split; [done|]. intros Hn.
    specialize (Hup Hn).
    rewrite (decide_False (P := x = B)) by congruence.
    case_decide as Hd; [rewrite Hd in Hup|]; lia.
Qed.

Lemma balanced_new n : 0 <= n -> ds_balanced n (DisjointSet_new n) (fun _ => 0).
Proof.
  intros Hn. pose proof (ds_inv_new n Hn) as [Hlen Hszlen _ Hsized].
  split; [done | done | | done |].
  - apply (ranked_mono _ _ 0); [apply Z.log2_nonneg | by apply ranked_init].
  - intros r Hr. apply root_of_range in Hr. simpl in Hr. rewrite zlen_seqZ in Hr by done.
    simpl. rewrite vget_replicate by lia. done.
Qed.

(** [findRoot] returns within [log2 n + 1] levels of recursion. *)
Lemma findRoot_balanced n ds hgt fuel x :
  ds_balanced n ds hgt -> 0 <= x < n -> Z.log2 n < Z.of_nat fuel ->
  exists r ds',
    findRoot fuel x ds = Some (r, ds') /\ root_of (parent ds) x r /\
    ds_balanced n ds' hgt.
Proof.
  intros [Hlen Hszlen Hrk Hsized Hpow] Hx Hfuel. destruct ds as [p s]. simpl in *.
  destruct (Hrk x ltac:(lia)) as (Hrho & _).
  destruct (findRoot_spec fuel p s hgt _ x Hrk) as (r & p' & Hrun & Hr & Hc); [lia | lia |].
  exists r, (mkDisjointSet p' s). split; [done|]. split; [done|].
  pose proof (compressed_roots_kept _ _ _ _ _ _ Hrk Hr Hc) as Hkept.
  split; simpl.
  - destruct Hc. lia.
  - done.
  - by eapply compressed_ranked.
  - by eapply sized_kept.
  - intros r' Hr'. apply Hpow. by apply (roots_kept_iff p p' hgt (Z.log2 n)).
Qed.

(** Linking the smaller root under the larger one. *)
Lemma link_balanced n p s hgt B S :
  ds_balanced n (mkDisjointSet p s) hgt ->
  B <> S -> root_of p B B -> root_of p S S -> vget 0 s S <= vget 0 s B ->
  exists hgt',
    ds_balanced n (mkDisjointSet (vset p S B) (vset s B (vget 0 s B + vget 0 s S))) hgt'.
Proof.
  intros [Hlen Hszlen Hrk Hsized Hpow] Hne HB HS Hle. simpl in *.
  destruct (root_of_is_root _ _ _ HB) as [HBin HBe].
  destruct (root_of_is_root _ _ _ HS) as [HSin HSe].
  destruct (Hrk B HBin) as (HhB & _). destruct (Hrk S HSin) as (HhS & _).
  pose proof (Hpow B HB) as HpB. pose proof (Hpow S HS) as HpS.
  pose proof (sized_link p s hgt _ B S Hrk Hne HB HS ltac:(lia) Hsized) as Hsized'.
  assert (root_of (vset p S B) B B) as HB'.
  { apply root_of_self; [by rewrite zlen_vset | by rewrite vget_vset_ne]. }
  pose proof (Hsized' B HB') as Hcs. rewrite vget_vset_eq in Hcs by lia.
  pose proof (comp_size_le _ _ _ Hcs) as Hcn. rewrite zlen_vset in Hcn.
  set (hB := Z.max (hgt B) (hgt S + 1)).
  assert (2 ^ hB <= vget 0 s B + vget 0 s S) as HpowB.
  { unfold hB. destruct (Z.max_spec (hgt B) (hgt S + 1)) as [[_ ->] | [_ ->]].
    - rewrite Z.pow_add_r by lia. change (2 ^ 1) with 2. lia.
    - assert (0 < 2 ^ hgt S) by (apply Z.pow_pos_nonneg; lia). lia. }
  assert (hB <= Z.log2 n) as HhBn.
  { apply Z.log2_le_pow2; [|lia]. assert (0 < 2 ^ hB) by (apply Z.pow_pos_nonneg; lia). lia. }
  exists (fun z => if decide (z = B) then hB else hgt z).
  split; simpl.
  - by rewrite zlen_vset.
  - by rewrite zlen_vset.
  - apply link_ranked_hgt; try done; unfold hB; lia.
  - done.
  - intros r Hr. destruct (root_of_is_root _ _ _ Hr) as [Hrin Hre].
    rewrite zlen_vset in Hrin.
    assert (r <> S) as HrS.
    { intros ->. rewrite vget_vset_eq in Hre by done. done. }
    rewrite vget_vset_ne in Hre by done.
    destruct (decide (r = B)) as [-> | HrB].
    + by rewrite vget_vset_eq by lia.
    + rewrite vget_vset_ne by done. apply Hpow. by apply root_of_self.
Qed.

(** [unite] returns within [log2 n + 1] levels of recursion and keeps
    the trees shallow. *)
Lemma unite_balanced n ds hgt fuel a b :
  ds_balanced n ds hgt -> 0 <= a < n -> 0 <= b < n -> Z.log2 n < Z.of_nat fuel ->
  exists ds' hgt', unite fuel a b ds = Some (tt, ds') /\ ds_balanced n ds' hgt'.
Proof.
  intros Hbal Ha Hb Hfuel. pose proof Hbal as [Hlen Hszlen Hrk Hsized Hpow].
  destruct ds as [p s]. simpl in *.
  destruct (unite_spec fuel p s hgt _ a b Hrk)
    as (ra & rb & p1 & p2 & Hra & Hrb & Hc1 & Hc2 & Hrun); [lia | lia | lia |].
  pose proof (compressed_ranked _ _ _ _ _ _ Hrk Hra Hc1) as Hrk1.
  pose proof (compressed_roots_kept _ _ _ _ _ _ Hrk Hra Hc1) as Hk1.
  assert (root_of p1 b rb) as Hrb1 by (by apply Hk1).
  pose proof (compressed_ranked _ _ _ _ _ _ Hrk1 Hrb1 Hc2) as Hrk2.
  pose proof (compressed_roots_kept _ _ _ _ _ _ Hrk1 Hrb1 Hc2) as Hk2.
  pose proof (roots_kept_trans _ _ _ Hk1 Hk2) as Hkept.
  assert (ds_balanced n (mkDisjointSet p2 s) hgt) as Hbal2.
  { split; simpl.
    - destruct Hkept as [Hl _]. lia.
    - done.
    - done.
    - by apply (sized_kept p p2 s hgt (Z.log2 n)).
    - intros r Hr. apply Hpow. by apply (roots_kept_iff p p2 hgt (Z.log2 n)). }
  rewrite Hrun. unfold united.
  assert (root_of p2 ra ra) as Hra2.
  { destruct Hkept as [_ Hk]. apply Hk. destruct (root_of_is_root _ _ _ Hra).
    by apply root_of_self. }
  assert (root_of p2 rb rb) as Hrb2.
  { destruct Hkept as [_ Hk]. apply Hk. destruct (root_of_is_root _ _ _ Hrb).
    by apply root_of_self. }
  destruct (decide (ra = rb)) as [Heq | Hne]; [by exists (mkDisjointSet p2 s), hgt|].
  destruct (Z.ltb_spec (vget 0 s ra) (vget 0 s rb)) as [Hlt | Hge].
  - destruct (link_balanced n p2 s hgt rb ra Hbal2) as [hgt' Hb']; [done.. | lia |].
    eexists _, hgt'. split; [done|]. done.
  - destruct (link_balanced n p2 s hgt ra rb Hbal2) as [hgt' Hb']; [done.. | lia |].
    eexists _, hgt'. split; [done|]. done.
Qed.

End Balanced.

(** X5: union by size keeps the trees shallow.  A structure over [n]
    elements is balanced when every node has a height of [log2 n] at most
    that grows strictly towards its parent, and every root of height [k]
    has a recorded size of [2^k] at least.  The new structure is balanced;
    on a balanced structure [findRoot] and [unite] return within
    [log2 n + 1] levels of recursion of [findRoot], and leave a balanced
    structure behind. *)
Theorem union_by_size_log_depth (n : Z) (fuel : nat) :
  0 <= n -> Z.log2 n < Z.of_nat fuel ->
  balanced n (DisjointSet_new n) /\
  forall ds, balanced n ds ->
    (forall x, 0 <= x < n ->
       exists r ds', findRoot fuel x ds = Some (r, ds') /\
                     root_of (parent ds) x r /\ balanced n ds') /\
    (forall a b, 0 <= a < n -> 0 <= b < n ->
       exists ds', unite fuel a b ds = Some (tt, ds') /\ balanced n ds').
Proof.
  intros Hn Hfuel. split; [eexists; by apply balanced_new|].
  intros ds [hgt Hbal]. split.
  - intros x Hx.
    destruct (findRoot_balanced n ds hgt fuel x Hbal Hx Hfuel) as (r & ds' & Hrun & Hr & Hb').
    exists r, ds'. split; [done|]. split; [done|]. by exists hgt.
  - intros a b Ha Hb.
    destruct (unite_balanced n ds hgt fuel a b Hbal Ha Hb Hfuel) as (ds' & hgt' & Hrun & Hb').
    exists ds'. split; [done|]. by exists hgt'.
Qed.

Lemma union_by_size_log_depth_witness :
  balanced 8 (DisjointSet_new 8) /\
  forall ds, balanced 8 ds ->
    (forall x, 0 <= x < 8 ->
       exists r ds', findRoot 4 x ds = Some (r, ds') /\
                     root_of (parent ds) x r /\ balanced 8 ds') /\
    (forall a b, 0 <= a < 8 -> 0 <= b < 8 ->
       exists ds', unite 4 a b ds = Some (tt, ds') /\ balanced 8 ds').
Proof. apply (union_by_size_log_depth 8 4); [lia | vm_compute; reflexivity]. Defined.

(** ** Cells, moves and candidate walls *)

Section GridMore.

(** X6: on a [W] x [H] grid whose number of cells fits an [int], [cellId]
    and [cellPt] are inverse to each other: the id of an in-bounds cell lies
    in [0, W*H) and [cellPt] gives its coordinates back; the coordinates of
    an id in [0, W*H) are in bounds and [cellId] gives the id back. *)
Theorem cell_round_trip W H :
  0 < W -> 0 < H -> W * H <= INT_MAX ->
  (forall x y, 0 <= x < W -> 0 <= y < H ->
     0 <= cellId x y W < W * H /\ cellPt (cellId x y W) W = mkPoint x y) /\
  (forall c, 0 <= c < W * H ->
     0 <= px (cellPt c W) < W /\ 0 <= py (cellPt c W) < H /\
     cellId (px (cellPt c W)) (py (cellPt c W)) W = c).
Proof.
  intros HW HH _. split.
  - intros x y Hx Hy. split; [by apply cellId_range | apply cellPt_cellId; lia].
  - intros c Hc. destruct (cellPt_range W H c HW Hc) as [Hx Hy].
    split; [done|]. split; [done|]. apply cellId_cellPt; lia.
Qed.

Lemma cell_round_trip_witness :
  (forall x y, 0 <= x < 3 -> 0 <= y < 2 ->
     0 <= cellId x y 3 < 3 * 2 /\ cellPt (cellId x y 3) 3 = mkPoint x y) /\
  (forall c, 0 <= c < 3 * 2 ->
     0 <= px (cellPt c 3) < 3 /\ 0 <= py (cellPt c 3) < 2 /\
     cellId (px (cellPt c 3)) (py (cellPt c 3)) 3 = c).
Proof. apply (cell_round_trip 3 2); unfold INT_MAX; lia. Defined.

(** X7: [canMove] never lets a move leave the grid: from an in-bounds cell
    it returns true only for a direction in 0..3 whose neighbour is in
    bounds, whatever the wall grids hold. *)
Theorem canMove_stays_inside m x y dir :
  0 <= x < mazeW m -> 0 <= y < mazeH m -> canMove m x y dir = true ->
  dir ∈ directions /\ inBounds (mazeW m) (mazeH m) (nextX x dir) (nextY y dir) = true.
Proof.
  intros Hx Hy. unfold canMove, nextX, nextY. rewrite directions_spec, inBounds_spec.
  destruct (Z.eqb_spec dir 0) as [-> | H0].
  { destruct (Z.eqb_spec y 0); [done|]. intros _. simpl. lia. }
  destruct (Z.eqb_spec dir 1) as [-> | H1].
  { destruct (Z.geb_spec (x + 1) (mazeW m)); [done|]. intros _. simpl. lia. }
  destruct (Z.eqb_spec dir 2) as [-> | H2].
  { destruct (Z.geb_spec (y + 1) (mazeH m)); [done|]. intros _. simpl. lia. }
  destruct (Z.eqb_spec dir 3) as [-> | H3]; [|done].
  destruct (Z.eqb_spec x 0); [done|]. intros _. simpl. lia.
Qed.

Lemma canMove_stays_inside_witness :
  1 ∈ directions /\ inBounds (mazeW sampleMaze) (mazeH sampleMaze) (nextX 0 1) (nextY 0 1) = true.
Proof.
  apply (canMove_stays_inside sampleMaze 0 0 1); [simpl; lia | simpl; lia | reflexivity].
Defined.

Lemma Maze_new_Some w h m :
  Maze_new w h = Some m ->
  0 <= w /\
  m = mkMaze w h (replicate (Z.to_nat w) (replicate (Z.to_nat h) true))
                 (replicate (Z.to_nat w) (replicate (Z.to_nat h) true)).
Proof.
  unfold Maze_new. destruct (Z.ltb_spec w 0); [done|].
  destruct (_ && _); [done|]. by intros [= <-].
Qed.

Lemma fresh_maze_walled w h m x y dir :
  Maze_new w h = Some m -> 0 <= x < w -> 0 <= y < h -> canMove m x y dir = false.
Proof.
  intros Hm Hx Hy. apply Maze_new_Some in Hm as [_ ->].
  unfold canMove. cbn [mazeW mazeH hasRightWall hasDownWall].
  destruct (Z.eqb_spec dir 0).
  { destruct (Z.eqb_spec y 0); [done|]. rewrite wallAt_fresh by lia. done. }
  destruct (Z.eqb_spec dir 1).
  { destruct (x + 1 >=? w); [done|]. rewrite wallAt_fresh by lia. done. }
  destruct (Z.eqb_spec dir 2).
  { destruct (y + 1 >=? h); [done|]. rewrite wallAt_fresh by lia. done. }
  destruct (Z.eqb_spec dir 3); [|done].
  destruct (Z.eqb_spec x 0); [done|]. rewrite wallAt_fresh by lia. done.
Qed.

(** X8: a maze fresh from its constructor has every wall standing:
    [canMove] is false for every in-bounds cell and every direction, and no
    two cells are joined by a passage. *)
Theorem fresh_maze_closed w h m :
  Maze_new w h = Some m ->
  mazeW m = w /\ mazeH m = h /\
  (forall x y dir, 0 <= x < w -> 0 <= y < h -> canMove m x y dir = false) /\
  (forall u v, ~ passage m u v).
Proof.
  intros Hm.
  assert (mazeW m = w /\ mazeH m = h) as [HmW HmH].
  { by apply Maze_new_Some in Hm as [_ ->]. }
  split; [done|]. split; [done|]. split.
  { intros x y dir. by apply fresh_maze_walled. }
  intros u v (Hu & dir & _ & _ & Hmove & _).
  assert (mazeW m = w /\ mazeH m = h /\ 0 <= w) as (HW & HH & Hw).
  { by apply Maze_new_Some in Hm as [? ->]. }
  unfold cellIn in Hu. rewrite HW, HH in Hu.
  assert (0 < w) as Hw' by (destruct (decide (w = 0)) as [-> |]; lia).
  destruct (cellPt_range w h u Hw' Hu) as [Hx Hy].
  rewrite (fresh_maze_walled w h m _ _ dir Hm) in Hmove; [done | by rewrite HW ..].
Qed.

Lemma fresh_maze_closed_witness :
  mazeW walledMaze = 2 /\ mazeH walledMaze = 1 /\
  (forall x y dir, 0 <= x < 2 -> 0 <= y < 1 -> canMove walledMaze x y dir = false) /\
  (forall u v, ~ passage walledMaze u v).
Proof. apply (fresh_maze_closed 2 1 walledMaze). reflexivity. Defined.

(** *** The candidate walls of [generateRandom] *)

Lemma length_bind_const {A} (f : Z -> list A) (k : nat) (n : nat) :
  (forall x, 0 <= x < Z.of_nat n -> length (f x) = k) ->
  length (seqZ 0 (Z.of_nat n) ≫= f) = (n * k)%nat.
Proof.
  induction n as [|n IH]; intros Hf; [done|].
  rewrite seqZ_S, bind_app, length_app, bind_singleton, IH by (intros; apply Hf; lia).
  rewrite (Hf (0 + Z.of_nat n)) by lia. lia.
Qed.

Lemma length_row_edges W H y (n : nat) :
  Z.of_nat n <= W ->
  Z.of_nat (length (seqZ 0 (Z.of_nat n) ≫= fun x => cellEdges W H x y)) =
    Z.min (Z.of_nat n) (Z.max (W - 1) 0) + (if y + 1 <? H then Z.of_nat n else 0).
Proof.
  induction n as [|n IH]; intros Hn.
  { simpl. destruct (y + 1 <? H); lia. }
  rewrite seqZ_S, bind_app, length_app, bind_singleton, Nat2Z.inj_add, IH by lia.
  unfold cellEdges. rewrite length_app, Z.add_0_l.
  destruct (Z.ltb_spec (Z.of_nat n + 1) W); destruct (Z.ltb_spec (y + 1) H); simpl; lia.
Qed.

Lemma length_allEdges_rows W H (n : nat) :
  0 < W -> Z.of_nat n <= H ->
  Z.of_nat (length (seqZ 0 (Z.of_nat n) ≫= fun y => seqZ 0 W ≫= fun x => cellEdges W H x y)) =
    Z.of_nat n * (W - 1) + Z.min (Z.of_nat n) (Z.max (H - 1) 0) * W.
Proof.
  intros HW. induction n as [|n IH]; intros Hn; [simpl; lia|].
  rewrite seqZ_S, bind_app, length_app, bind_singleton, Nat2Z.inj_add, IH by lia.
  pose proof (length_row_edges W H (0 + Z.of_nat n) (Z.to_nat W)) as Hrow.
  rewrite Z2Nat.id in Hrow by lia. rewrite Hrow by lia. rewrite Z.add_0_l.
  destruct (Z.ltb_spec (Z.of_nat n + 1) H); nia.
Qed.

Lemma NoDup_cellEdges W H x y : NoDup (cellEdges W H x y).
Proof.
  unfold cellEdges. destruct (x + 1 <? W); destruct (y + 1 <? H); simpl;
    repeat constructor; try by apply not_elem_of_nil.
  by intros [= ]%list_elem_of_singleton.
Qed.

Lemma elem_of_cellEdges W H x y e :
  e ∈ cellEdges W H x y -> ex e = x /\ ey e = y.
Proof.
  unfold cellEdges. rewrite elem_of_app.
  destruct (x + 1 <? W); destruct (y + 1 <? H);
    rewrite ?list_elem_of_singleton, ?elem_of_nil; intros [H1 | H1]; by subst.
Qed.

(** X9: the candidate list of [generateRandom] names every wall between
    two neighbouring cells exactly once.  Its entries are the triples
    [(x, y, 1)] of an in-bounds cell that has a right neighbour and the
    triples [(x, y, 2)] of an in-bounds cell that has a lower neighbour, and
    nothing else; it has no duplicates, and so [(W-1)*H + W*(H-1)]
    entries. *)
Theorem allEdges_once W H :
  0 < W -> 0 < H ->
  (forall e, e ∈ allEdges W H <->
     0 <= ex e < W /\ 0 <= ey e < H /\
     ((edir e = 1 /\ ex e + 1 < W) \/ (edir e = 2 /\ ey e + 1 < H))) /\
  NoDup (allEdges W H) /\
  Z.of_nat (length (allEdges W H)) = (W - 1) * H + W * (H - 1).
Proof.
  intros HW HH. split; [intros e; apply elem_of_allEdges|]. split.
  - unfold allEdges. apply NoDup_bind; [| |apply NoDup_seqZ].
    + intros y1 y2 e _ _ (x1 & He1 & _)%list_elem_of_bind (x2 & He2 & _)%list_elem_of_bind.
      apply elem_of_cellEdges in He1, He2. lia.
    + intros y _. apply NoDup_bind; [| |apply NoDup_seqZ].
      * intros x1 x2 e _ _ He1 He2. apply elem_of_cellEdges in He1, He2. lia.
      * intros x _. apply NoDup_cellEdges.
  - pose proof (length_allEdges_rows W H (Z.to_nat H) HW) as Hl.
    rewrite Z2Nat.id in Hl by lia. unfold allEdges. rewrite Hl by lia. nia.
Qed.

Lemma allEdges_once_witness :
  (forall e, e ∈ allEdges 3 2 <->
     0 <= ex e < 3 /\ 0 <= ey e < 2 /\
     ((edir e = 1 /\ ex e + 1 < 3) \/ (edir e = 2 /\ ey e + 1 < 2))) /\
  NoDup (allEdges 3 2) /\ Z.of_nat (length (allEdges 3 2)) = (3 - 1) * 2 + 3 * (2 - 1).
Proof. apply (allEdges_once 3 2); lia. Defined.

(** *** The heuristic of A* *)

Lemma manH_goal m :
  0 < mazeW m -> 0 < mazeH m -> manH (mazeW m) (mazeH m) (goalCell m) = 0.
Proof.
  intros HW HH. unfold manH, goalCell. rewrite cellPt_cellId by lia. simpl. lia.
Qed.

Lemma manH_step m u v :
  0 < mazeW m -> passage m u v ->
  manH (mazeW m) (mazeH m) u <= manH (mazeW m) (mazeH m) v + 1.
Proof.
  intros HW (Hu & dir & Hdir & Hin & _ & ->).
  apply inBounds_spec in Hin. apply directions_spec in Hdir.
  unfold manH. rewrite cellPt_cellId by lia. cbn [px py].
  unfold nextX, nextY.
  destruct Hdir as [-> | [-> | [-> | ->]]]; simpl; lia.
Qed.

(** X10: the heuristic of A* never overestimates: along every walk through
    passages from a cell to the goal, the Manhattan distance [manH] of the
    cell is at most the number of passages walked. *)
Theorem manH_admissible m p u :
  0 < mazeW m -> 0 < mazeH m ->
  path_between (passage m) u (goalCell m) p ->
  manH (mazeW m) (mazeH m) u <= Z.of_nat (edgeCount p).
Proof.
  intros HW HH. revert u. induction p as [|x p IH]; intros u (Hp & Hh & Hl); [done|].
  simpl in Hh. injection Hh as ->.
  destruct p as [|y p].
  - simpl in Hl. injection Hl as ->. rewrite manH_goal by done. simpl. lia.
  - destruct Hp as [Hxy Hp].
    pose proof (manH_step m u y HW Hxy) as Hs.
    assert (path_between (passage m) y (goalCell m) (y :: p)) as Hpb.
    { split; [done|]. split; [done|]. by rewrite last_cons_cons in Hl. }
    specialize (IH y Hpb). unfold edgeCount in *. simpl in *. lia.
Qed.

Lemma manH_admissible_witness :
  manH (mazeW sampleMaze) (mazeH sampleMaze) 2 <= Z.of_nat (edgeCount [2; 5]).
Proof.
  apply (manH_admissible sampleMaze [2; 5] 2); [simpl; lia | simpl; lia |].
  split; [|by split]. split; [|done]. split; [vm_compute; by split|].
  exists 2. split; [by apply directions_spec; auto|]. by vm_compute.
Defined.

End GridMore.

(** ** One edge of the generation loop *)

Lemma processEdge_branch fuel m ds e m' ds' :
  processEdge fuel (m, ds) e = Some (m', ds') ->
  exists ra rb ds1 ds2,
    findRoot fuel (edgeSrc (mazeW m) e) ds = Some (ra, ds1) /\
    findRoot fuel (edgeDst (mazeW m) e) ds1 = Some (rb, ds2) /\
    m' = if ra =? rb then m else removeWall m e.
Proof.
  unfold processEdge.
  change (ey e * mazeW m + ex e) with (edgeSrc (mazeW m) e).
  change (if edir e =? 1 then edgeSrc (mazeW m) e + 1
          else edgeSrc (mazeW m) e + mazeW m) with (edgeDst (mazeW m) e).
  unfold ds_bind at 1.
  destruct (findRoot fuel (edgeSrc (mazeW m) e) ds) as [[ra ds1]|] eqn:Hrun1; [|done].
  unfold ds_bind at 1.
  destruct (findRoot fuel (edgeDst (mazeW m) e) ds1) as [[rb ds2]|] eqn:Hrun2; [|done].
  unfold ds_ret. intros Hrun. exists ra, rb, ds1, ds2. split; [done|]. split; [done|].
  destruct (ra =? rb); simpl in Hrun.
  - by injection Hrun as <- _.
  - destruct (unite _ _ _ _) as [[u ds3]|]; [|done]. by injection Hrun as <- _.
Qed.

(** X11: one step of the generation loop.  In a state reached by the loop
    (after the candidate walls [done]), handling the candidate wall [e]
    leaves the maze as it is when the two cells of [e] are already joined
    by passages, and removes exactly the wall of [e] when they are not. *)
Theorem processEdge_wall (W H : Z) (fuel : nat) (done : list Edge) (m : Maze)
    (ds : DisjointSet) (rho : Z -> Z) (k : Z) (e : Edge) :
  0 < W -> 0 < H ->
  kruskal_inv W H done m ds rho k ->
  e ∈ allEdges W H ->
  W * H <= Z.of_nat fuel ->
  exists m' ds',
    processEdge fuel (m, ds) e = Some (m', ds') /\
    (rtc (passage m) (edgeSrc W e) (edgeDst W e) -> m' = m) /\
    (~ rtc (passage m) (edgeSrc W e) (edgeDst W e) -> m' = removeWall m e).
Proof.
  intros HW HH Hinv He Hfuel.
  destruct (processEdge_inv W H HW HH fuel done m ds rho k e Hinv He Hfuel)
    as (m' & ds' & _ & _ & Hrun & _).
  exists m', ds'. split; [done|].
  destruct (processEdge_branch _ _ _ _ _ _ Hrun) as (ra & rb & ds1 & ds2 & Hrun1 & Hrun2 & ->).
  pose proof (kruskal_inv_bound W H HW HH _ _ _ _ _ Hinv) as Hk.
  destruct Hinv as [ki_W0 ki_H0 _ _ ki_len0 ki_ranked0 _ _ _ ki_same0 _ _].
  destruct ds as [p s]. simpl in *.
  destruct (edge_cells W H e He) as (Hsrc & Ha & Hb).
  rewrite ki_W0 in Hrun1, Hrun2.
  destruct (findRoot_keeps fuel p s rho k (edgeSrc W e) ki_ranked0)
    as (ra' & p1 & Hrun1' & Hra & Hk1 & Hrk1 & _); [lia | lia |].
  rewrite Hrun1 in Hrun1'. injection Hrun1' as <- ->.
  destruct (findRoot_keeps fuel p1 s rho k (edgeDst W e) Hrk1)
    as (rb' & p2 & Hrun2' & Hrb & _); [destruct Hk1; lia | lia |].
  rewrite Hrun2 in Hrun2'. injection Hrun2' as <- _.
  assert (rtc (passage m) (edgeSrc W e) (edgeDst W e) <-> ra = rb) as Hab.
  { rewrite <- ki_same0 by done. destruct Hk1 as [_ Hk1]. split.
    - intros (r & Har & Hbr).
      assert (r = ra) by (by apply (root_of_inj p (edgeSrc W e))).
      assert (r = rb) by (apply (root_of_inj p1 (edgeDst W e)); [by apply Hk1 | done]).
      congruence.
    - intros Heq. destruct (root_exists _ _ _ (edgeDst W e) ki_ranked0) as [r Hr]; [lia|].
      assert (r = rb) by (apply (root_of_inj p1 (edgeDst W e)); [by apply Hk1 | done]).
      exists ra. split; [done | congruence]. }
  destruct (Z.eqb_spec ra rb) as [Heq | Hne]; split; intros Hr; tauto.
Qed.

Lemma processEdge_wall_witness :
  exists m' ds',
    processEdge 2 (walledMaze, DisjointSet_new (2 * 1)) (mkEdge 0 0 1) = Some (m', ds') /\
    (rtc (passage walledMaze) (edgeSrc 2 (mkEdge 0 0 1)) (edgeDst 2 (mkEdge 0 0 1)) ->
       m' = walledMaze) /\
    (~ rtc (passage walledMaze) (edgeSrc 2 (mkEdge 0 0 1)) (edgeDst 2 (mkEdge 0 0 1)) ->
       m' = removeWall walledMaze (mkEdge 0 0 1)).
Proof.
  apply (processEdge_wall 2 1 2 [] walledMaze
           (DisjointSet_new (2 * 1)) (fun _ => 0) 0 (mkEdge 0 0 1)).
  - lia.
  - lia.
  - apply (kruskal_inv_init 2 1); lia.
  - apply elem_of_allEdges. simpl. lia.
  - simpl. lia.
Defined.

(** ** Searches on any maze *)

Section SearchMore.
Variable m : Maze.
Hypothesis HW : 0 < mazeW m.
Hypothesis HH : 0 < mazeH m.
Local Abbreviation N := (mazeW m * mazeH m).

(** Every reached cell is joined to the start. *)
Lemma tree_inv_rtc par reached rank v :
  tree_inv m par reached rank -> v ∈ reached -> rtc (passage m) startCell v.
Proof.
  intros Htree Hv.
  pose proof (ti_rank _ _ _ _ Htree v Hv) as Hrk.
  destruct (markPath_tree m HW par reached rank (Z.to_nat (rank v + 2)) v Htree Hv)
    as (l & _ & [Hp _] & _); [lia|].
  apply (symmetric_rtc _ (passage_symmetric m HW)). by eapply path_rtc.
Qed.

Lemma tree_inv_closed par reached rank v :
  tree_inv m par reached rank ->
  (forall u, u ∈ reached -> closed_in m reached u) ->
  rtc (passage m) startCell v -> v ∈ reached.
Proof.
  intros Htree Hclosed Hrtc.
  assert (forall u w, rtc (passage m) u w -> u ∈ reached -> w ∈ reached) as Hstay.
  { intros u w H. induction H as [|u x w Hux _ IH]; [done|].
    intros Hu. apply IH. by apply (Hclosed u). }
  eapply Hstay; [done|]. apply (ti_start _ _ _ _ Htree).
Qed.

Lemma outcome_goal_reached par :
  search_outcome m GoalReached par -> rtc (passage m) startCell (goalCell m).
Proof. intros (reached & rank & Htree & Hgoal). by eapply tree_inv_rtc. Qed.

(** What the parent array says once a loop has ended. *)
Lemma outcome_parents exit par :
  search_outcome m exit par ->
  (forall v, cellIn m v -> vget 0 par v <> -1 ->
     passage m (vget 0 par v) v /\ rtc (passage m) startCell v) /\
  (exit = FrontierEmpty ->
     forall v, rtc (passage m) startCell v -> v = startCell \/ vget 0 par v <> -1).
Proof.
  intros (reached & rank & Htree & Hexit). split.
  - intros v Hv Hpar.
    destruct (decide (v ∈ reached)) as [Hin | Hout];
      [|by rewrite (ti_fresh _ _ _ _ Htree v Hv Hout) in Hpar].
    destruct (decide (v = startCell)) as [-> | Hne];
      [by rewrite (ti_start_par _ _ _ _ Htree) in Hpar|].
    destruct (ti_parent _ _ _ _ Htree v Hin Hne) as (_ & Hp & _).
    split; [done | by eapply tree_inv_rtc].
  - intros ->. destruct Hexit as [_ Hclosed]. intros v Hrtc.
    pose proof (tree_inv_closed par reached rank v Htree Hclosed Hrtc) as Hin.
    destruct (decide (v = startCell)) as [| Hne]; [by left | right].
    destruct (ti_parent _ _ _ _ Htree v Hin Hne) as (Hp & _ & _).
    pose proof (ti_cells _ _ _ _ Htree _ Hp) as Hc. unfold cellIn in Hc. lia.
Qed.

(** *** The stack of the depth-first search *)

Lemma stack_chain_ext par par' stk :
  (forall v, v ∈ stk -> vget 0 par' v = vget 0 par v) ->
  stack_chain par stk -> stack_chain par' stk.
Proof.
  induction stk as [|v below IH]; [done|]. intros Hext (Hv & Hp & Hc).
  split; [done|]. split.
  - rewrite Hext by apply list_elem_of_here. done.
  - apply IH; [|done]. intros w Hw. apply Hext. by apply list_elem_of_further.
Qed.

Lemma stack_chain_markPath par fuel : forall v below l,
  stack_chain par (v :: below) -> markPath fuel par v = Some l -> l = v :: below.
Proof.
  induction fuel as [|fuel IH]; intros v below l (Hv & Hp & Hc) Hrun; [done|].
  simpl in Hrun. destruct (Z.eqb_spec v (-1)); [done|].
  rewrite Hp in Hrun. destruct below as [|w below].
  - destruct fuel as [|fuel]; [done|]. simpl in Hrun. by injection Hrun as <-.
  - destruct (markPath fuel par w) as [l'|] eqn:Hrec; [|done].
    simpl in Hrun. injection Hrun as <-. f_equal. by apply IH.
Qed.

Lemma dfsLoop_stack fuel : forall st exit st',
  zlen (parentOf st) = N ->
  (forall v, v ∈ frontier st -> cellIn m v /\ v ∈ visitedSet st) ->
  stack_chain (parentOf st) (frontier st) ->
  dfsLoop fuel m st = Some (exit, st') ->
  stack_chain (parentOf st') (frontier st').
Proof.
  induction fuel as [|fuel IH]; intros st exit st' Hlen Hstk Hchain Hrun; [done|].
  rewrite dfsLoop_S in Hrun. destruct st as [par vis stk].
  cbn [parentOf visitedSet frontier] in *.
  destruct stk as [|u below]; [by injection Hrun as _ <-|].
  destruct (Z.eqb_spec u (goalCell m)) as [-> | Hne]; [by injection Hrun as _ <-|].
  destruct (Hstk u (list_elem_of_here _ _)) as [Hu Huv].
  cbv zeta in Hrun.
  pose proof (dfsScan_spec m HW vis u directions (fun d H => H) Hu) as Hspec.
  cbv zeta in Hspec.
  set (w := dfsScan m vis (cellPt u (mazeW m)) directions) in *.
  destruct Hspec as [[Hn _] | (Hn & Hfresh & Hpass)].
  - rewrite Hn in Hrun. cbn [Z.eqb Pos.eqb negb] in Hrun.
    apply IH in Hrun; [done | done | |]; cbn [parentOf visitedSet frontier].
    + intros v Hv. apply Hstk. by apply list_elem_of_further.
    + by destruct Hchain as (_ & _ & Hc).
  - destruct (Z.eqb_spec w (-1)) as [|_]; [done|]. cbn [negb] in Hrun.
    pose proof (passage_cellIn_r m HW u w Hpass) as Hw.
    apply IH in Hrun; [done | | |]; cbn [parentOf visitedSet frontier].
    + by rewrite zlen_vset.
    + intros v [-> | Hv]%elem_of_cons.
      * split; [done|]. apply elem_of_union_l. by apply elem_of_singleton.
      * destruct (Hstk v Hv). split; [done|]. by apply elem_of_union_r.
    + split; [done|]. split.
      * apply vget_vset_eq. unfold cellIn in Hw. lia.
      * apply (stack_chain_ext par); [|done].
        intros v Hv. apply vget_vset_ne. intros ->. apply Hfresh. by apply Hstk.
Qed.

Lemma dfs_stack_init :
  stack_chain (parentOf (searchInit m)) (frontier (searchInit m)).
Proof.
  unfold searchInit. cbn [parentOf frontier stack_chain]. split; [done|]. split; [|done].
  apply vget_replicate. unfold startCell. nia.
Qed.

Lemma dfs_break_stack fuel st :
  dfsLoop fuel m (searchInit m) = Some (GoalReached, st) ->
  exists below, frontier st = goalCell m :: below /\
                stack_chain (parentOf st) (frontier st).
Proof.
  intros Hrun.
  assert (forall fuel st0, dfsLoop fuel m st0 = Some (GoalReached, st) ->
            exists below, frontier st = goalCell m :: below) as Htop.
  { clear. intros fuel. induction fuel as [|fuel IH]; intros st0 Hrun; [done|].
    rewrite dfsLoop_S in Hrun. destruct (frontier st0) as [|u below] eqn:Hf; [done|].
    destruct (Z.eqb_spec u (goalCell m)) as [-> | Hne].
    - injection Hrun as <-. by exists below.
    - cbv zeta in Hrun. destruct (negb _); by apply IH in Hrun. }
  destruct (Htop _ _ Hrun) as [below Hb]. exists below. split; [done|].
  apply (dfsLoop_stack fuel (searchInit m) GoalReached st); [| | apply dfs_stack_init | done].
  - unfold searchInit. cbn [parentOf]. rewrite zlen_replicate. nia.
  - unfold searchInit. cbn [frontier visitedSet]. intros v ->%list_elem_of_singleton.
    split; [apply (start_cellIn m HW HH) | by apply elem_of_singleton].
Qed.

End SearchMore.

Section SearchTheorems.

(** X12: every strategy decides reachability, on any maze (generated or
    not) with positive dimensions whose cell count fits an [int]: its loop
    is left by the [break] exactly when the goal cell can be reached from
    the start cell through passages, and then the cells the final frame
    marks, read from the start, form a simple path from the start to the
    goal. *)
Theorem search_decides_reachability (m : Maze) (s : Strategy) (fuel : nat) :
  0 < mazeW m -> 0 < mazeH m -> mazeW m * mazeH m <= INT_MAX ->
  2 * (mazeW m * mazeH m) * (mazeW m * mazeH m) + 2 <= Z.of_nat fuel ->
  exists exit par,
    searchLoop s fuel m = Some (exit, par) /\
    (exit = GoalReached <-> rtc (passage m) startCell (goalCell m)) /\
    (exit = GoalReached ->
       exists f, run s fuel m = Some f /\
                 simple_path (passage m) startCell (goalCell m) (finalPath f)).
Proof.
  intros HW HH Hint Hfuel.
  destruct (searchLoop_total m HW HH Hint s fuel Hfuel) as (exit & par & Hloop & Hout).
  exists exit, par. split; [done|]. split; [split|].
  - intros ->. by apply (outcome_goal_reached m HW par).
  - intros Hreach. destruct exit; [done|]. by apply outcome_reachable in Hout.
  - intros ->. rewrite run_searchLoop, Hloop. simpl.
    destruct (outcome_path m HW HH par fuel Hout) as (f & Hf & _ & Hpath); [nia|].
    by exists f.
Qed.

Lemma search_decides_reachability_witness :
  exists exit par,
    searchLoop BFS 74 sampleMaze = Some (exit, par) /\
    (exit = GoalReached <-> rtc (passage sampleMaze) startCell (goalCell sampleMaze)) /\
    (exit = GoalReached ->
       exists f, run BFS 74 sampleMaze = Some f /\
                 simple_path (passage sampleMaze) startCell (goalCell sampleMaze) (finalPath f)).
Proof.
  apply (search_decides_reachability sampleMaze BFS 74);
    [simpl; lia | simpl; lia | vm_compute; discriminate | simpl; lia].
Defined.

(** X13: what the parent array holds when a loop has ended, on any such
    maze: whenever [parentOf[v]] is not [-1] for a cell [v], it is a cell
    one passage away from [v] (no parent link crosses a wall), and [v] can
    be reached from the start; and when the frontier ran empty, every cell
    that can be reached from the start, other than the start itself, has a
    parent. *)
Theorem search_parents (m : Maze) (s : Strategy) (fuel : nat) :
  0 < mazeW m -> 0 < mazeH m -> mazeW m * mazeH m <= INT_MAX ->
  2 * (mazeW m * mazeH m) * (mazeW m * mazeH m) + 2 <= Z.of_nat fuel ->
  exists exit par,
    searchLoop s fuel m = Some (exit, par) /\
    (forall v, cellIn m v -> vget 0 par v <> -1 ->
       passage m (vget 0 par v) v /\ rtc (passage m) startCell v) /\
    (exit = FrontierEmpty ->
       forall v, rtc (passage m) startCell v -> v = startCell \/ vget 0 par v <> -1).
Proof.
  intros HW HH Hint Hfuel.
  destruct (searchLoop_total m HW HH Hint s fuel Hfuel) as (exit & par & Hloop & Hout).
  exists exit, par. split; [done|]. by apply outcome_parents.
Qed.

Lemma search_parents_witness :
  exists exit par,
    searchLoop DFS 74 sampleMaze = Some (exit, par) /\
    (forall v, cellIn sampleMaze v -> vget 0 par v <> -1 ->
       passage sampleMaze (vget 0 par v) v /\ rtc (passage sampleMaze) startCell v) /\
    (exit = FrontierEmpty ->
       forall v, rtc (passage sampleMaze) startCell v -> v = startCell \/ vget 0 par v <> -1).
Proof.
  apply (search_parents sampleMaze DFS 74);
    [simpl; lia | simpl; lia | vm_compute; discriminate | simpl; lia].
Defined.

(** X14: the two uninformed searches are linear in the number of cells, on
    every maze whose number of cells fits an [int]: the loop of [runDFS]
    ends within [2*W*H] iterations and that of [runBFS] within [W*H + 1],
    with the goal among the reached cells after the [break] and with no
    passage left that leads out of the reached cells after the frontier ran
    empty, and each run then shows its final frame. *)
Theorem dfs_bfs_linear (m : Maze) (fuelD fuelB : nat) :
  0 < mazeW m -> 0 < mazeH m -> mazeW m * mazeH m <= INT_MAX ->
  2 * (mazeW m * mazeH m) <= Z.of_nat fuelD ->
  mazeW m * mazeH m < Z.of_nat fuelB ->
  (exists exit st f,
     dfsLoop fuelD m (searchInit m) = Some (exit, st) /\ runDFS fuelD m = Some f /\
     search_outcome m exit (parentOf st)) /\
  (exists exit st f,
     bfsLoop fuelB m (searchInit m) = Some (exit, st) /\ runBFS fuelB m = Some f /\
     search_outcome m exit (parentOf st)).
Proof.
  intros HW HH _ HD HB. assert (0 < mazeW m * mazeH m) as HN by nia. split.
  - destruct (dfsLoop_total m HW HH fuelD HD) as (exit & st & Hrun & Hout).
    exists exit, st. unfold runDFS. rewrite Hrun. simpl. destruct exit.
    + destruct (outcome_path m HW HH _ fuelD Hout) as (f & Hf & _); [lia|]. by exists f.
    + rewrite (outcome_unreached m HW HH _ fuelD Hout) by lia. by eexists.
  - destruct (bfsLoop_total m HW HH fuelB HB) as (exit & st & Hrun & Hout).
    exists exit, st. unfold runBFS. rewrite Hrun. simpl. destruct exit.
    + destruct (outcome_path m HW HH _ fuelB Hout) as (f & Hf & _); [lia|]. by exists f.
    + rewrite (outcome_unreached m HW HH _ fuelB Hout) by lia. by eexists.
Qed.

Lemma dfs_bfs_linear_witness :
  (exists exit st f,
     dfsLoop 12 sampleMaze (searchInit sampleMaze) = Some (exit, st) /\
     runDFS 12 sampleMaze = Some f /\
     search_outcome sampleMaze exit (parentOf st)) /\
  (exists exit st f,
     bfsLoop 7 sampleMaze (searchInit sampleMaze) = Some (exit, st) /\
     runBFS 7 sampleMaze = Some f /\
     search_outcome sampleMaze exit (parentOf st)).
Proof. apply (dfs_bfs_linear sampleMaze 12 7); unfold INT_MAX; simpl; lia. Defined.

(** X15: when the loop of [runDFS] breaks at the goal, its stack is the
    path: read from the top it holds the goal cell, then the parent of
    each entry, down to the start cell, and these are exactly the cells,
    in this order, that [drawFinalPath] marks. *)
Theorem dfs_stack_is_path (m : Maze) (fuel : nat) (st : Search) :
  0 < mazeW m -> 0 < mazeH m ->
  2 * (mazeW m * mazeH m) <= Z.of_nat fuel ->
  dfsLoop fuel m (searchInit m) = Some (GoalReached, st) ->
  runDFS fuel m =
    Some (mkFinalFrame "FINAL (exit found) - displaying path" (frontier st)).
Proof.
  intros HW HH Hfuel Hrun. assert (0 < mazeW m * mazeH m) as HN by nia.
  destruct (dfsLoop_total m HW HH fuel Hfuel) as (exit & st' & Hrun' & Hout).
  rewrite Hrun in Hrun'. injection Hrun' as <- <-.
  destruct (outcome_path m HW HH _ fuel Hout) as (f & Hf & _); [lia|].
  unfold runDFS. rewrite Hrun. simpl. rewrite Hf.
  destruct (dfs_break_stack m HW HH fuel st Hrun) as (below & Hstk & Hchain).
  unfold drawFinalPath in Hf |- *.
  destruct (markPath fuel (parentOf st) (goalCell m)) as [l|] eqn:Hl; [|done].
  rewrite Hstk in Hchain. apply (stack_chain_markPath _ _ _ _ _ Hchain) in Hl.
  simpl in Hf. injection Hf as <-. simpl. by rewrite Hl, Hstk.
Qed.

Lemma dfs_stack_is_path_witness :
  exists st,
    dfsLoop 12 sampleMaze (searchInit sampleMaze) = Some (GoalReached, st) /\
    runDFS 12 sampleMaze =
      Some (mkFinalFrame "FINAL (exit found) - displaying path" (frontier st)).
Proof.
  assert (exists st, dfsLoop 12 sampleMaze (searchInit sampleMaze) = Some (GoalReached, st))
    as [st Hst] by (vm_compute; eexists; reflexivity).
  exists st. split; [exact Hst|].
  apply (dfs_stack_is_path sampleMaze 12 st); [simpl; lia | simpl; lia | simpl; lia | exact Hst].
Defined.

End SearchTheorems.

(** ** Shortest paths on any maze *)

(** *** Breadth-first search *)

Section BFSLevels.
Variable m : Maze.
Hypothesis HW : 0 < mazeW m.
Hypothesis HH : 0 < mazeH m.
Local Abbreviation N := (mazeW m * mazeH m).

Lemma level_sorted_ext d d' l :
  (forall x, x ∈ l -> d' x = d x) -> level_sorted d l -> level_sorted d' l.
Proof.
  induction l as [|x t IH]; [done|]. intros Hext [Hx Ht]. split.
  - intros y Hy. rewrite (Hext x), (Hext y);
      [by apply Hx | by apply list_elem_of_further | apply list_elem_of_here].
  - apply IH; [|done]. intros y Hy. apply Hext. by apply list_elem_of_further.
Qed.

Lemma level_sorted_snoc d l w :
  (forall x, x ∈ l -> d x <= d w) -> level_sorted d l -> level_sorted d (l ++ [w]).
Proof.
  induction l as [|x t IH]; intros Hle Hs.
  - split; [|done]. by intros y ?%elem_of_nil.
  - destruct Hs as [Hx Ht]. split.
    + intros y [Hy | ->%list_elem_of_singleton]%elem_of_app; [by apply Hx|].
      apply Hle, list_elem_of_here.
    + apply IH; [|done]. intros y Hy. by apply Hle, list_elem_of_further.
Qed.

Lemma bfs_levels_init : bfs_levels m (fun _ => 0) 0 None (searchInit m).
Proof.
  unfold searchInit. split; cbn [parentOf visitedSet frontier].
  - rewrite zlen_replicate. nia.
  - intros v ->%elem_of_singleton. by apply start_cellIn.
  - split; [by apply elem_of_singleton|]. split; [done|].
    apply vget_replicate. unfold startCell. nia.
  - by intros v ->%elem_of_singleton.
  - intros x ->%list_elem_of_singleton. split; [by apply elem_of_singleton | lia].
  - split; [|done]. by intros y ?%elem_of_nil.
  - intros v ->%elem_of_singleton Hn. destruct Hn. by apply list_elem_of_singleton.
  - done.
  - intros v ->%elem_of_singleton. left. by apply list_elem_of_singleton.
Qed.

(** Dequeuing the head [u]: the level becomes that of [u]. *)
Lemma bfs_levels_pop d L par vis u rest :
  bfs_levels m d L None (mkSearch par vis (u :: rest)) ->
  bfs_levels m d (d u) (Some u) (mkSearch par vis rest).
Proof.
  intros [Hlen Hcells Hstart Hpar Hq [Hu Hs] Hexp Hcur Hrel].
  cbn [parentOf visitedSet frontier] in *.
  destruct (Hq u (list_elem_of_here _ _)) as [Huv HuL].
  split; cbn [parentOf visitedSet frontier]; try done.
  - intros x Hx. destruct (Hq x (list_elem_of_further _ _ _ Hx)) as [Hxv HxL].
    split; [done|]. specialize (Hu x Hx). lia.
  - intros v Hv Hn. destruct (decide (v = u)) as [-> | Hne]; [lia|].
    assert (d v <= L); [|lia]. apply Hexp; [done|].
    by intros [-> | Hin]%elem_of_cons.
  - by intros u' [= <-].
  - intros v Hv. destruct (Hrel v Hv) as [[-> | Hin]%elem_of_cons | [Hc | Hc]];
      [by right; left | by left | done | by right; right].
Qed.

(** One direction of the inner [for]. *)
Lemma bfsVisit_levels d u st dir :
  bfs_levels m d (d u) (Some u) st -> dir ∈ directions ->
  exists d',
    bfs_levels m d' (d' u) (Some u) (bfsVisit m u (cellPt u (mazeW m)) st dir) /\
    (forall v, v ∈ visitedSet st -> d' v = d v) /\
    visitedSet st ⊆ visitedSet (bfsVisit m u (cellPt u (mazeW m)) st dir) /\
    (inBounds (mazeW m) (mazeH m) (nextX (px (cellPt u (mazeW m))) dir)
       (nextY (py (cellPt u (mazeW m))) dir) = true ->
     canMove m (px (cellPt u (mazeW m))) (py (cellPt u (mazeW m))) dir = true ->
     cellId (nextX (px (cellPt u (mazeW m))) dir)
            (nextY (py (cellPt u (mazeW m))) dir) (mazeW m)
       ∈ visitedSet (bfsVisit m u (cellPt u (mazeW m)) st dir) /\
     d' (cellId (nextX (px (cellPt u (mazeW m))) dir)
                (nextY (py (cellPt u (mazeW m))) dir) (mazeW m)) <= d' u + 1).
Proof.
  intros Hlv Hdir. unfold bfsVisit.
  set (nx := nextX _ dir). set (ny := nextY _ dir). set (vid := cellId nx ny (mazeW m)).
  destruct (inBounds (mazeW m) (mazeH m) nx ny) eqn:Hb; simpl;
    [|exists d; split; [done|]; split; [done|]; split; [done|]; intros; congruence].
  destruct (canMove m _ _ dir) eqn:Hc; simpl;
    [|exists d; split; [done|]; split; [done|]; split; [done|]; intros; congruence].
  pose proof Hlv as [Hlen Hcells Hstart Hpar Hq Hs Hexp Hcur Hrel].
  destruct (Hcur u eq_refl) as [Huv _].
  destruct (bool_decide (vid ∈ visitedSet st)) eqn:Hvis; simpl.
  { apply bool_decide_eq_true in Hvis. exists d. split; [done|]. split; [done|].
    split; [done|]. intros _ _. split; [done|].
    destruct (decide (vid ∈ frontier st)) as [Hf | Hf].
    - destruct (Hq vid Hf). lia.
    - specialize (Hexp vid Hvis Hf). lia. }
  apply bool_decide_eq_false in Hvis.
  assert (passage m u vid) as Hpass by (apply scan_passage; [by apply Hcells | done..]).
  pose proof (passage_cellIn_r m HW u vid Hpass) as Hvid.
  clearbody vid nx ny.
  assert (u <> vid) as Huvid by (by intros ->).
  exists (fun z => if decide (z = vid) then d u + 1 else d z).
  assert (forall v, v ∈ visitedSet st ->
            (if decide (v = vid) then d u + 1 else d v) = d v) as Hsame.
  { intros v Hv. destruct (decide (v = vid)) as [-> | _]; done. }
  rewrite (decide_False (P := u = vid)) by done.
  rewrite (decide_True (P := vid = vid)) by done.
  split; [|split; [done|]; split; [apply union_subseteq_r|]].
  - destruct Hstart as (Hs0 & Hd0 & Hp0).
    split; cbn [parentOf visitedSet frontier].
    + by rewrite zlen_vset.
    + intros v [->%elem_of_singleton | Hv]%elem_of_union; [done | by apply Hcells].
    + split; [by apply elem_of_union_r|]. split; [by rewrite Hsame|].
      rewrite vget_vset_ne; [done|]. intros Heq. apply Hvis. by rewrite Heq.
    + intros v [->%elem_of_singleton | Hv]%elem_of_union Hne.
      * rewrite vget_vset_eq by (unfold cellIn in Hvid; lia).
        split; [by apply elem_of_union_r|].
        rewrite (decide_False (P := u = vid)) by done.
        rewrite (decide_True (P := vid = vid)) by done. lia.
      * assert (v <> vid) as Hvv by (by intros ->).
        rewrite vget_vset_ne by done.
        destruct (Hpar v Hv Hne) as [Hpv Hpd].
        split; [by apply elem_of_union_r|]. by rewrite !Hsame.
    + intros x [Hx | ->%list_elem_of_singleton]%elem_of_app.
      * destruct (Hq x Hx) as [Hxv HxL]. split; [by apply elem_of_union_r|].
        by rewrite Hsame.
      * split; [apply elem_of_union_l; by apply elem_of_singleton|].
        rewrite (decide_True (P := vid = vid)) by done. lia.
    + apply level_sorted_snoc.
      * intros x Hx. destruct (Hq x Hx) as [Hxv HxL]. rewrite Hsame by done.
        rewrite (decide_True (P := vid = vid)) by done. lia.
      * apply (level_sorted_ext d); [|done]. intros x Hx. apply Hsame. by apply Hq.
    + intros v [->%elem_of_singleton | Hv]%elem_of_union Hn.
      * destruct Hn. apply elem_of_app. right. by apply list_elem_of_singleton.
      * rewrite Hsame by done. apply Hexp; [done|]. intros Hin. apply Hn.
        apply elem_of_app. by left.
    + intros u' [= <-]. split; [by apply elem_of_union_r | by rewrite Hsame].
    + intros v [->%elem_of_singleton | Hv]%elem_of_union.
      * left. apply elem_of_app. right. by apply list_elem_of_singleton.
      * destruct (Hrel v Hv) as [Hf | [Hc' | Hcl]].
        -- left. apply elem_of_app. by left.
        -- right. by left.
        -- right. right. intros w Hw. destruct (Hcl w Hw) as [Hwv Hwd].
           split; [by apply elem_of_union_r|]. by rewrite !Hsame.
  - intros _ _. split; [apply elem_of_union_l; by apply elem_of_singleton | lia].
Qed.

Lemma bfs_fold_levels u dirs : forall d st,
  bfs_levels m d (d u) (Some u) st -> (forall x, x ∈ dirs -> x ∈ directions) ->
  exists d',
    bfs_levels m d' (d' u) (Some u) (foldl (bfsVisit m u (cellPt u (mazeW m))) st dirs) /\
    (forall v, v ∈ visitedSet st -> d' v = d v) /\
    visitedSet st ⊆ visitedSet (foldl (bfsVisit m u (cellPt u (mazeW m))) st dirs) /\
    forall dir, dir ∈ dirs ->
      inBounds (mazeW m) (mazeH m) (nextX (px (cellPt u (mazeW m))) dir)
        (nextY (py (cellPt u (mazeW m))) dir) = true ->
      canMove m (px (cellPt u (mazeW m))) (py (cellPt u (mazeW m))) dir = true ->
      cellId (nextX (px (cellPt u (mazeW m))) dir)
             (nextY (py (cellPt u (mazeW m))) dir) (mazeW m)
        ∈ visitedSet (foldl (bfsVisit m u (cellPt u (mazeW m))) st dirs) /\
      d' (cellId (nextX (px (cellPt u (mazeW m))) dir)
                 (nextY (py (cellPt u (mazeW m))) dir) (mazeW m)) <= d' u + 1.
Proof.
  induction dirs as [|x dirs IH]; intros d st Hlv Hdirs.
  - exists d. simpl. split; [done|]. split; [done|]. split; [done|].
    intros dir Hd. by apply elem_of_nil in Hd.
  - destruct (bfsVisit_levels d u st x Hlv) as (d1 & Hlv1 & Hsame1 & Hsub1 & Hhit1);
      [apply Hdirs, list_elem_of_here|].
    destruct (IH d1 _ Hlv1) as (d2 & Hlv2 & Hsame2 & Hsub2 & Hhit2);
      [intros x' Hx'; by apply Hdirs, list_elem_of_further|].
    destruct (bl_cur _ _ _ _ _ Hlv u eq_refl) as [Huv _].
    exists d2. cbn [foldl]. split; [done|]. split; [|split].
    + intros v Hv. rewrite Hsame2 by (by apply Hsub1). by apply Hsame1.
    + etrans; done.
    + intros dir [-> | Hd]%elem_of_cons Hb Hc; [|by apply Hhit2].
      destruct (Hhit1 Hb Hc) as [Hin Hle]. split; [by apply Hsub2|].
      rewrite (Hsame2 _ Hin). rewrite (Hsame2 u) by (by apply Hsub1). done.
Qed.

(** After the inner [for] the dequeued cell is closed. *)
Lemma bfs_expand_levels d u st :
  bfs_levels m d (d u) (Some u) st ->
  exists d' L,
    bfs_levels m d' L None (foldl (bfsVisit m u (cellPt u (mazeW m))) st directions).
Proof.
  intros Hlv.
  destruct (bfs_fold_levels u directions d st Hlv) as (d' & Hlv' & _ & _ & Hhit); [done|].
  exists d', (d' u).
  destruct Hlv' as [Hlen Hcells Hstart Hpar Hq Hs Hexp Hcur Hrel].
  split; try done. intros v Hv.
  destruct (Hrel v Hv) as [Hf | [[= ->] | Hcl]]; [by left | | by right; right].
  right. right. intros w (Hu & dir & Hdir & Hb & Hc & ->). by apply Hhit.
Qed.

(** When the loop breaks, the invariant holds with the goal at the head of
    the queue. *)
Lemma bfsLoop_levels fuel : forall st d L st',
  bfs_levels m d L None st ->
  bfsLoop fuel m st = Some (GoalReached, st') ->
  exists d' L',
    bfs_levels m d' L' None
      (mkSearch (parentOf st') (visitedSet st') (goalCell m :: frontier st')).
Proof.
  induction fuel as [|fuel IH]; intros st d L st' Hlv Hrun; [done|].
  destruct st as [par vis fr]. simpl in Hrun. destruct fr as [|u rest]; [done|].
  destruct (Z.eqb_spec u (goalCell m)) as [-> | Hne].
  - injection Hrun as <-. by exists d, L.
  - pose proof (bfs_levels_pop d L par vis u rest Hlv) as Hmid.
    destruct (bfs_expand_levels d u _ Hmid) as (d' & L' & Hlv').
    by apply (IH _ d' L' st' Hlv').
Qed.

(** The level of the head of the queue is at most the length of any walk
    that leads to it. *)
Lemma level_walk d L par vis g rest :
  bfs_levels m d L None (mkSearch par vis (g :: rest)) ->
  forall t x i,
    is_path (passage m) (x :: t) -> last (x :: t) = Some g -> x ∈ vis -> d x <= i ->
    d g <= i + Z.of_nat (length t).
Proof.
  intros [Hlen Hcells Hstart Hpar Hq [Hg Hs] Hexp Hcur Hrel].
  cbn [parentOf visitedSet frontier] in *.
  induction t as [|y t IH]; intros x i Hp Hl Hx Hd.
  - simpl in Hl. injection Hl as ->. simpl. lia.
  - destruct (Hrel x Hx) as [[-> | Hin]%elem_of_cons | [Hc | Hcl]]; [lia | | done |].
    + specialize (Hg x Hin). lia.
    + destruct Hp as [Hxy Hp]. destruct (Hcl y Hxy) as [Hy Hdy].
      rewrite last_cons_cons in Hl.
      specialize (IH y (i + 1) Hp Hl Hy ltac:(lia)).
      rewrite length_cons. lia.
Qed.

(** The parent chain of a visited cell is no longer than its level. *)
Lemma level_markPath d L cur st fuel : forall v l,
  bfs_levels m d L cur st -> v ∈ visitedSet st ->
  markPath fuel (parentOf st) v = Some l -> Z.of_nat (length l) <= d v + 1.
Proof.
  induction fuel as [|fuel IH]; intros v l Hlv Hv Hrun; [done|].
  pose proof Hlv as [Hlen Hcells (Hs0 & Hd0 & Hp0) Hpar _ _ _ _ _].
  pose proof (Hcells v Hv) as Hc. unfold cellIn in Hc.
  simpl in Hrun. destruct (Z.eqb_spec v (-1)); [lia|].
  destruct (markPath fuel (parentOf st) (vget 0 (parentOf st) v)) as [l'|] eqn:Hrec; [|done].
  simpl in Hrun. injection Hrun as <-.
  destruct (decide (v = startCell)) as [-> | Hne].
  - rewrite Hp0 in Hrec. destruct fuel as [|fuel]; [done|]. simpl in Hrec.
    injection Hrec as <-. simpl. lia.
  - destruct (Hpar v Hv Hne) as [Hpv Hpd].
    specialize (IH _ l' Hlv Hpv Hrec). rewrite length_cons. lia.
Qed.

End BFSLevels.

(** X16: breadth-first search finds a shortest path, on any maze (with
    loops or without): on a maze with positive dimensions whose number of
    cells fits an [int] the run shows its final frame, and when the goal
    cell can be reached from the start cell at all, the marked cells, read
    from the start, are a path from the start to the goal through at most
    as many passages as any walk from the start to the goal. *)
Theorem bfs_shortest (m : Maze) (fuel : nat) :
  0 < mazeW m -> 0 < mazeH m -> mazeW m * mazeH m <= INT_MAX ->
  mazeW m * mazeH m < Z.of_nat fuel ->
  exists f,
    runBFS fuel m = Some f /\
    forall q, path_between (passage m) startCell (goalCell m) q ->
      simple_path (passage m) startCell (goalCell m) (finalPath f) /\
      (edgeCount (finalPath f) <= edgeCount q)%nat.
Proof.
  intros HW HH _ Hfuel. assert (0 < mazeW m * mazeH m) as HN by nia.
  destruct (bfsLoop_total m HW HH fuel Hfuel) as (exit & st & Hrun & Hout).
  unfold runBFS. rewrite Hrun. simpl. destruct exit.
  - destruct (outcome_path m HW HH _ fuel Hout) as (f & Hf & _ & Hsimple); [lia|].
    exists f. split; [done|]. intros q (Hq & Hhd & Hlast). split; [done|].
    destruct (bfsLoop_levels m HW fuel _ _ _ _ (bfs_levels_init m HW HH) Hrun)
      as (d & L & Hlv).
    cbn [parentOf visitedSet frontier] in Hlv.
    unfold drawFinalPath in Hf.
    destruct (markPath fuel (parentOf st) (goalCell m)) as [l|] eqn:Hl; [|done].
    simpl in Hf. injection Hf as <-.
    pose proof (level_markPath m d L None _ fuel (goalCell m) l Hlv) as Hlen.
    cbn [parentOf visitedSet] in Hlen.
    specialize (Hlen (proj1 (bl_queue _ _ _ _ _ Hlv _ (list_elem_of_here _ _))) Hl).
    destruct q as [|x t]; [done|]. simpl in Hhd. injection Hhd as ->.
    destruct (bl_start _ _ _ _ _ Hlv) as (Hs0 & Hd0 & _).
    pose proof (level_walk m d L _ _ _ _ Hlv t startCell 0 Hq Hlast Hs0 ltac:(lia)) as Hw.
    unfold edgeCount, finalPath. cbn [marked]. rewrite length_reverse, length_cons.
    simpl. lia.
  - rewrite (outcome_unreached m HW HH _ fuel Hout) by lia.
    eexists. split; [done|]. intros q Hq.
    apply path_rtc in Hq. by apply outcome_reachable in Hout.
Qed.

Lemma bfs_shortest_witness :
  exists f,
    runBFS 7 sampleMaze = Some f /\
    forall q, path_between (passage sampleMaze) startCell (goalCell sampleMaze) q ->
      simple_path (passage sampleMaze) startCell (goalCell sampleMaze) (finalPath f) /\
      (edgeCount (finalPath f) <= edgeCount q)%nat.
Proof. apply (bfs_shortest sampleMaze 7); unfold INT_MAX; simpl; lia. Defined.

(** *** Dijkstra and A* *)

Lemma pair_le_spec p q :
  pair_le p q = true <-> p.1 < q.1 \/ (p.1 = q.1 /\ p.2 <= q.2).
Proof.
  unfold pair_le. rewrite orb_true_iff, andb_true_iff, Z.ltb_lt, Z.eqb_eq, Z.leb_le. done.
Qed.

Lemma pair_le_fst p q : pair_le p q = true -> p.1 <= q.1.
Proof. rewrite pair_le_spec. lia. Qed.

Lemma pair_le_total p q : pair_le p q = false -> pair_le q p = true.
Proof.
  intros Hf. apply pair_le_spec.
  destruct (pair_le p q) eqn:Hle; [done|]. clear Hf.
  assert (~ (p.1 < q.1 \/ (p.1 = q.1 /\ p.2 <= q.2))) as Hn.
  { intros Hp%pair_le_spec. congruence. }
  lia.
Qed.

Lemma pair_le_trans p q r : pair_le p q = true -> pair_le q r = true -> pair_le p r = true.
Proof. rewrite !pair_le_spec. lia. Qed.

Lemma pq_sorted_push e q : pq_sorted q -> pq_sorted (pq_push e q).
Proof.
  induction q as [|e' q IH]; intros Hs.
  - split; [|done]. by intros x ?%elem_of_nil.
  - destruct Hs as [He' Hs]. simpl. destruct (pair_le e e') eqn:Hle.
    + split; [|by split]. intros x [-> | Hx]%elem_of_cons; [done|].
      eapply pair_le_trans; [done | by apply He'].
    + split; [|by apply IH]. intros x [-> | Hx]%elem_of_pq_push.
      * by apply pair_le_total.
      * by apply He'.
Qed.

Section PQOpt.
Variable m : Maze.
Variable h : Z -> Z.
Hypothesis HW : 0 < mazeW m.
Hypothesis HH : 0 < mazeH m.
Hypothesis Hint : mazeW m * mazeH m <= INT_MAX.
Hypothesis Hcons : consistent m h.
Local Abbreviation N := (mazeW m * mazeH m).

Lemma pq_opt_init : pq_opt m h None (pqInit m h).
Proof.
  assert (0 < N) as HN by nia.
  assert (forall v, cellIn m v ->
            vget 0 (vset (replicate (Z.to_nat N) INT_MAX) 0 0) v =
            if decide (0 = v) then 0 else INT_MAX) as Hd.
  { intros v Hv. rewrite vget_vset by (rewrite zlen_replicate; lia).
    destruct (decide (0 = v)); [done|]. apply vget_replicate. unfold cellIn in Hv. lia. }
  unfold pqInit. split; cbn [dist pqParentOf pq pq_push].
  - intros v Hv. rewrite Hd by done. destruct (decide (0 = v)); unfold INT_MAX; lia.
  - intros e ->%list_elem_of_singleton. cbn [fst snd].
    rewrite Hd by (unfold cellIn; lia). simpl. lia.
  - split; [|done]. by intros x ?%elem_of_nil.
  - intros v Hv. rewrite Hd by done. destruct (decide (0 = v)) as [<- | Hne]; [|lia].
    intros _. left. rewrite Z.add_0_l. by apply list_elem_of_singleton.
Qed.

(** Popping the head [(k, u)]. *)
Lemma pq_opt_pop d par k u rest :
  pq_opt m h None (mkPQSearch d par ((k, u) :: rest)) ->
  pq_opt m h (Some u) (mkPQSearch d par rest).
Proof.
  intros [Hmax Hkeys [Hhd Hs] Hrel]. cbn [dist pqParentOf pq] in *.
  split; cbn [dist pqParentOf pq]; [done | | done |].
  - intros e He. by apply Hkeys, list_elem_of_further.
  - intros v Hv Hdv. destruct (Hrel v Hv Hdv) as [[Heq | Hin]%elem_of_cons | [Hc | Hr]].
    + right. left. by injection Heq as _ ->.
    + by left.
    + done.
    + by right; right.
Qed.

(** One direction of the inner [for]. *)
Lemma relaxDir_opt u st reached dir :
  pq_inv m (Some u) st reached -> pq_opt m h (Some u) st -> dir ∈ directions ->
  pq_opt m h (Some u) (relaxDir m h u (cellPt u (mazeW m)) st dir) /\
  vget 0 (dist (relaxDir m h u (cellPt u (mazeW m)) st dir)) u = vget 0 (dist st) u /\
  (forall v, vget 0 (dist (relaxDir m h u (cellPt u (mazeW m)) st dir)) v
             <= vget 0 (dist st) v) /\
  (inBounds (mazeW m) (mazeH m) (nextX (px (cellPt u (mazeW m))) dir)
     (nextY (py (cellPt u (mazeW m))) dir) = true ->
   canMove m (px (cellPt u (mazeW m))) (py (cellPt u (mazeW m))) dir = true ->
   vget 0 (dist (relaxDir m h u (cellPt u (mazeW m)) st dir))
        (cellId (nextX (px (cellPt u (mazeW m))) dir)
                (nextY (py (cellPt u (mazeW m))) dir) (mazeW m))
   <= vget 0 (dist st) u + 1).
Proof.
  intros Hinv Hopt Hdir. unfold relaxDir.
  set (nx := nextX _ dir). set (ny := nextY _ dir). set (vid := cellId nx ny (mazeW m)).
  destruct (inBounds (mazeW m) (mazeH m) nx ny) eqn:Hb; simpl;
    [|split; [done|]; split; [done|]; split; [done|]; intros; congruence].
  destruct (canMove m _ _ dir) eqn:Hc; simpl;
    [|split; [done|]; split; [done|]; split; [done|]; intros; congruence].
  destruct (Z.ltb_spec (vget 0 (dist st) u + 1) (vget 0 (dist st) vid)) as [Hlt | Hge].
  2:{ split; [done|]. split; [done|]. split; [done|]. intros _ _. lia. }
  pose proof Hinv as [Hlen Htree _ _ _ Hcur _ _].
  pose proof (ti_cells _ _ _ _ Htree u (Hcur u eq_refl)) as Hu.
  assert (passage m u vid) as Hpass by (by apply scan_passage).
  pose proof (passage_cellIn_r m HW u vid Hpass) as Hvid.
  clearbody vid nx ny.
  assert (u <> vid) as Huvid by (intros ->; lia).
  destruct Hopt as [Hmax Hkeys Hs Hrel].
  assert (forall v, vget 0 (vset (dist st) vid (vget 0 (dist st) u + 1)) v =
                    if decide (vid = v) then vget 0 (dist st) u + 1 else vget 0 (dist st) v)
    as Hd.
  { intros v. apply vget_vset. unfold cellIn in Hvid. lia. }
  cbn [dist pqParentOf pq].
  assert (forall v, vget 0 (vset (dist st) vid (vget 0 (dist st) u + 1)) v
                    <= vget 0 (dist st) v) as Hmono.
  { intros v. rewrite Hd. destruct (decide (vid = v)) as [<- | _]; lia. }
  split; [|split; [|split]].
  - split; cbn [dist pqParentOf pq].
    + intros v Hv. specialize (Hmax v Hv). specialize (Hmono v). lia.
    + intros e [-> | He]%elem_of_pq_push; cbn [fst snd].
      * rewrite Hd, decide_True by done. lia.
      * specialize (Hkeys e He). specialize (Hmono e.2). lia.
    + by apply pq_sorted_push.
    + intros v Hv. rewrite Hd. destruct (decide (vid = v)) as [<- | Hne].
      * intros _. left. apply elem_of_pq_push. by left.
      * intros Hdv. destruct (Hrel v Hv Hdv) as [Hin | [Hc' | Hr]].
        -- left. apply elem_of_pq_push. by right.
        -- right. by left.
        -- right. right. intros w Hw. specialize (Hr w Hw). specialize (Hmono w).
           rewrite (Hd v), decide_False by done. lia.
  - rewrite Hd. by rewrite decide_False by done.
  - done.
  - intros _ _. rewrite Hd, decide_True by done. lia.
Qed.

Lemma pq_fold_opt u dirs : forall st reached,
  pq_inv m (Some u) st reached -> pq_opt m h (Some u) st ->
  (forall x, x ∈ dirs -> x ∈ directions) ->
  pq_opt m h (Some u) (foldl (relaxDir m h u (cellPt u (mazeW m))) st dirs) /\
  vget 0 (dist (foldl (relaxDir m h u (cellPt u (mazeW m))) st dirs)) u
    = vget 0 (dist st) u /\
  (forall v, vget 0 (dist (foldl (relaxDir m h u (cellPt u (mazeW m))) st dirs)) v
             <= vget 0 (dist st) v) /\
  forall dir, dir ∈ dirs ->
    inBounds (mazeW m) (mazeH m) (nextX (px (cellPt u (mazeW m))) dir)
      (nextY (py (cellPt u (mazeW m))) dir) = true ->
    canMove m (px (cellPt u (mazeW m))) (py (cellPt u (mazeW m))) dir = true ->
    vget 0 (dist (foldl (relaxDir m h u (cellPt u (mazeW m))) st dirs))
         (cellId (nextX (px (cellPt u (mazeW m))) dir)
                 (nextY (py (cellPt u (mazeW m))) dir) (mazeW m))
    <= vget 0 (dist st) u + 1.
Proof.
  induction dirs as [|x dirs IH]; intros st reached Hinv Hopt Hdirs.
  - cbn [foldl]. split; [done|]. split; [done|]. split; [done|].
    intros dir Hd. by apply elem_of_nil in Hd.
  - assert (x ∈ directions) as Hx by apply Hdirs, list_elem_of_here.
    destruct (relaxDir_step m h HW HH Hint u st reached x Hinv Hx) as (r1 & Hinv1 & _).
    destruct (relaxDir_opt u st reached x Hinv Hopt Hx) as (Hopt1 & Hu1 & Hmono1 & Hhit1).
    destruct (IH _ r1 Hinv1 Hopt1) as (Hopt2 & Hu2 & Hmono2 & Hhit2);
      [intros x' Hx'; by apply Hdirs, list_elem_of_further|].
    cbn [foldl]. split; [done|]. split; [by rewrite Hu2|]. split.
    + intros v. specialize (Hmono1 v). specialize (Hmono2 v). lia.
    + intros dir [-> | Hd]%elem_of_cons Hb Hc.
      * specialize (Hhit1 Hb Hc).
        specialize (Hmono2 (cellId (nextX (px (cellPt u (mazeW m))) x)
                                   (nextY (py (cellPt u (mazeW m))) x) (mazeW m))).
        lia.
      * specialize (Hhit2 dir Hd Hb Hc). lia.
Qed.

(** After the inner [for] the popped cell is relaxed. *)
Lemma pq_expand_opt u st reached :
  pq_inv m (Some u) st reached -> pq_opt m h (Some u) st ->
  pq_opt m h None (foldl (relaxDir m h u (cellPt u (mazeW m))) st directions).
Proof.
  intros Hinv Hopt.
  destruct (pq_fold_opt u directions st reached Hinv Hopt) as (Hopt' & Hu & _ & Hhit); [done|].
  destruct Hopt' as [Hmax Hkeys Hs Hrel]. split; try done.
  intros v Hv Hdv. destruct (Hrel v Hv Hdv) as [Hin | [[= ->] | Hr]];
    [by left | | by right; right].
  right. right. intros w (_ & dir & Hdir & Hb & Hc & ->). rewrite Hu. by apply Hhit.
Qed.

(** When the loop breaks, both invariants hold with the goal at the head
    of the queue. *)
Lemma pqLoop_opt fuel : forall st reached st',
  pq_inv m None st reached -> pq_opt m h None st ->
  pqLoop fuel m h st = Some (GoalReached, st') ->
  exists reached' key,
    pq_inv m None
      (mkPQSearch (dist st') (pqParentOf st') ((key, goalCell m) :: pq st')) reached' /\
    pq_opt m h None
      (mkPQSearch (dist st') (pqParentOf st') ((key, goalCell m) :: pq st')).
Proof.
  induction fuel as [|fuel IH]; intros st reached st' Hinv Hopt Hrun; [done|].
  rewrite pqLoop_S in Hrun. destruct st as [d par q]. cbn [dist pqParentOf pq] in *.
  destruct q as [|[k u] rest]; [done|]. cbn [snd] in Hrun.
  destruct (Z.eqb_spec u (goalCell m)) as [-> | Hne].
  - injection Hrun as <-. by exists reached, k.
  - pose proof Hinv as [Hlen Htree Hstart Hfar Hpq Hcur Hclosed Hgoal].
    cbn [dist pqParentOf pq] in *.
    assert (pq_inv m (Some u) (mkPQSearch d par rest) reached) as Hmid.
    { split; cbn [dist pqParentOf pq]; try done.
      - intros e He. by apply Hpq, list_elem_of_further.
      - intros u' [= <-]. apply (Hpq (k, u)), list_elem_of_here.
      - intros v Hv. destruct (Hclosed v Hv) as [[k' Hk] | [Hc | Hc]]; [|done|auto].
        apply elem_of_cons in Hk as [[= _ ->] | Hk]; [right; by left | left; by exists k'].
      - intros Hg. destruct (Hgoal Hg) as [k' Hk].
        apply elem_of_cons in Hk as [[= _ Heq] | Hk]; [congruence | by exists k']. }
    pose proof (pq_opt_pop d par k u rest Hopt) as Hoptm.
    destruct (pq_expand m h HW HH Hint u _ reached Hmid) as (r' & Hinv' & _).
    pose proof (pq_expand_opt u _ reached Hmid Hoptm) as Hopt'.
    by apply (IH _ r' st' Hinv' Hopt').
Qed.

(** The heuristic along a walk. *)
Lemma consistent_walk g t : forall x,
  is_path (passage m) (x :: t) -> last (x :: t) = Some g ->
  h x <= Z.of_nat (length t) + h g.
Proof.
  induction t as [|y t IH]; intros x Hp Hl.
  - simpl in Hl. injection Hl as ->. simpl. lia.
  - destruct Hp as [Hxy Hp]. rewrite last_cons_cons in Hl.
    specialize (IH y Hp Hl). specialize (Hcons x y Hxy). rewrite length_cons. lia.
Qed.

(** The distance of the head of the queue is at most the length of any
    walk that leads to it. *)
Lemma opt_walk d par key g rest :
  pq_opt m h None (mkPQSearch d par ((key, g) :: rest)) -> cellIn m g ->
  forall t x i,
    is_path (passage m) (x :: t) -> last (x :: t) = Some g -> cellIn m x ->
    vget 0 d x <= i -> vget 0 d g <= i + Z.of_nat (length t).
Proof.
  intros [Hmax Hkeys [Hhd Hs] Hrel] Hg. cbn [dist pqParentOf pq] in *.
  pose proof (Hkeys (key, g) (list_elem_of_here _ _)) as Hkey. cbn [fst snd] in Hkey.
  induction t as [|y t IH]; intros x i Hp Hl Hx Hd.
  - simpl in Hl. injection Hl as ->. simpl. lia.
  - destruct (decide (vget 0 d x < INT_MAX)) as [Hlt | Hge];
      [|specialize (Hmax g Hg); lia].
    pose proof (consistent_walk g (y :: t) x Hp Hl) as Hh.
    destruct (Hrel x Hx Hlt) as [[Heq | Hin]%elem_of_cons | [Hc | Hr]]; [| | done |].
    + injection Heq as Hk _. lia.
    + apply Hhd, pair_le_fst in Hin. cbn [fst] in Hin. lia.
    + destruct Hp as [Hxy Hp]. rewrite last_cons_cons in Hl.
      pose proof (passage_cellIn_r m HW x y Hxy) as Hy.
      specialize (Hr y Hxy).
      specialize (IH y (i + 1) Hp Hl Hy ltac:(lia)). rewrite length_cons. lia.
Qed.

(** The parent chain of a reached cell is no longer than its rank. *)
Lemma tree_markPath_len par reached rank fuel : forall v l,
  tree_inv m par reached rank -> v ∈ reached ->
  markPath fuel par v = Some l -> Z.of_nat (length l) <= rank v + 1.
Proof.
  induction fuel as [|fuel IH]; intros v l Htree Hv Hrun; [done|].
  pose proof (ti_cells _ _ _ _ Htree v Hv) as Hc. unfold cellIn in Hc.
  pose proof (ti_rank _ _ _ _ Htree v Hv) as Hrk.
  simpl in Hrun. destruct (Z.eqb_spec v (-1)); [lia|].
  destruct (markPath fuel par (vget 0 par v)) as [l'|] eqn:Hrec; [|done].
  simpl in Hrun. injection Hrun as <-.
  destruct (decide (v = startCell)) as [-> | Hne].
  - rewrite (ti_start_par _ _ _ _ Htree) in Hrec.
    destruct fuel as [|fuel]; [done|]. simpl in Hrec. injection Hrec as <-. simpl. lia.
  - destruct (ti_parent _ _ _ _ Htree v Hv Hne) as (Hpv & _ & Hpr).
    specialize (IH _ l' Htree Hpv Hrec). rewrite length_cons. lia.
Qed.

(** [runPQ] with a consistent heuristic marks a shortest path. *)
Lemma runPQ_shortest fuel :
  2 * N * N + 2 <= Z.of_nat fuel ->
  exists f,
    runPQ fuel m h = Some f /\
    forall q, path_between (passage m) startCell (goalCell m) q ->
      simple_path (passage m) startCell (goalCell m) (finalPath f) /\
      (edgeCount (finalPath f) <= edgeCount q)%nat.
Proof.
  intros Hfuel. assert (0 < N) as HN by nia.
  destruct (pqLoop_total m h HW HH Hint fuel Hfuel) as (exit & st & Hrun & Hout).
  unfold runPQ. rewrite Hrun. simpl. destruct exit.
  - destruct (outcome_path m HW HH _ fuel Hout) as (f & Hf & _ & Hsimple); [nia|].
    exists f. split; [done|]. intros q (Hq & Hhd & Hlast). split; [done|].
    destruct (pqLoop_opt fuel _ _ _ (pq_inv_init m h HW HH) pq_opt_init Hrun)
      as (reached & key & Hinv & Hopt).
    pose proof Hinv as [_ Htree Hstart _ Hpq _ _ _]. cbn [dist pqParentOf pq] in *.
    unfold drawFinalPath in Hf.
    destruct (markPath fuel (pqParentOf st) (goalCell m)) as [l|] eqn:Hl; [|done].
    simpl in Hf. injection Hf as <-.
    pose proof (tree_markPath_len _ _ _ fuel (goalCell m) l Htree
                  (Hpq (key, goalCell m) (list_elem_of_here _ _)) Hl) as Hlen.
    cbv beta in Hlen.
    destruct q as [|x t]; [done|]. simpl in Hhd. injection Hhd as ->.
    pose proof (opt_walk _ _ _ _ _ Hopt (goal_cellIn m HW HH) t startCell 0 Hq Hlast
                  (start_cellIn m HW HH) ltac:(lia)) as Hw.
    unfold edgeCount, finalPath. cbn [marked]. rewrite length_reverse, length_cons.
    simpl. lia.
  - rewrite (outcome_unreached m HW HH _ fuel Hout) by lia.
    eexists. split; [done|]. intros q Hq.
    apply path_rtc in Hq. by apply outcome_reachable in Hout.
Qed.

End PQOpt.

Lemma zeroH_consistent m : consistent m zeroH.
Proof. intros u v _. unfold zeroH. lia. Qed.

Lemma manH_consistent m : 0 < mazeW m -> consistent m (manH (mazeW m) (mazeH m)).
Proof. intros HW u v Huv. by apply manH_step. Qed.

(** X17: Dijkstra and A* find a shortest path, on any maze (with loops or
    without) with positive dimensions whose cell count fits an [int]: the
    run shows its final frame, and when the goal cell can be reached from
    the start cell at all, the marked cells, read from the start, are a
    path from the start to the goal through at most as many passages as any
    walk from the start to the goal.  For A* this rests on the Manhattan
    distance changing by at most one along a passage. *)
Theorem dijkstra_astar_shortest (m : Maze) (s : Strategy) (fuel : nat) :
  s = Dijkstra \/ s = AStar ->
  0 < mazeW m -> 0 < mazeH m -> mazeW m * mazeH m <= INT_MAX ->
  2 * (mazeW m * mazeH m) * (mazeW m * mazeH m) + 2 <= Z.of_nat fuel ->
  exists f,
    run s fuel m = Some f /\
    forall q, path_between (passage m) startCell (goalCell m) q ->
      simple_path (passage m) startCell (goalCell m) (finalPath f) /\
      (edgeCount (finalPath f) <= edgeCount q)%nat.
Proof.
  intros [-> | ->] HW HH Hint Hfuel; simpl; unfold runDijkstra, runAStar.
  - by apply runPQ_shortest; [| | | apply zeroH_consistent |].
  - by apply runPQ_shortest; [| | | apply manH_consistent |].
Qed.

Lemma dijkstra_astar_shortest_witness :
  exists f,
    run AStar 74 sampleMaze = Some f /\
    forall q, path_between (passage sampleMaze) startCell (goalCell sampleMaze) q ->
      simple_path (passage sampleMaze) startCell (goalCell sampleMaze) (finalPath f) /\
      (edgeCount (finalPath f) <= edgeCount q)%nat.
Proof.
  apply (dijkstra_astar_shortest sampleMaze AStar 74);
    [by right | simpl; lia | simpl; lia | vm_compute; discriminate | simpl; lia].
Defined.

(** ** The values [runPQ] computes fit an [int] *)

Section PQRange.
Variable m : Maze.
Variable h : Z -> Z.
Variable B : Z.
Hypothesis HW : 0 < mazeW m.
Hypothesis HH : 0 < mazeH m.
Hypothesis Hh : forall v, cellIn m v -> 0 <= h v <= B.
Hypothesis Hint : mazeW m * mazeH m + B <= INT_MAX.
Local Abbreviation N := (mazeW m * mazeH m).

Lemma range_int : N <= INT_MAX.
Proof. pose proof (Hh 0 (start_cellIn m HW HH)). lia. Qed.

(** The loop of [pqAfter] is the loop of [pqLoop]. *)
Lemma pqLoop_after fuel : forall st exit st',
  pqLoop fuel m h st = Some (exit, st') -> pqAfter fuel m h st = st'.
Proof.
  induction fuel as [|fuel IH]; intros st exit st' Hrun; [done|].
  rewrite pqLoop_S in Hrun. cbn [pqAfter].
  destruct (pq st) as [|top rest]; [by injection Hrun as _ <-|].
  cbv zeta. destruct (top.2 =? goalCell m); [by injection Hrun as _ <-|].
  by apply (IH _ exit).
Qed.

Lemma reached_dist cur st reached u :
  pq_inv m cur st reached -> u ∈ reached -> 0 <= vget 0 (dist st) u < N.
Proof.
  intros Hinv Hu. pose proof (pi_tree _ _ _ _ Hinv) as Htree.
  pose proof (ti_rank _ _ _ _ Htree u Hu) as Hrk. cbv beta in Hrk.
  pose proof (cells_size m HW HH reached (ti_cells _ _ _ _ Htree)). lia.
Qed.

Lemma relaxDir_bounded u st reached dir :
  pq_inv m (Some u) st reached -> pq_bounded m B st -> dir ∈ directions ->
  pq_bounded m B (relaxDir m h u (cellPt u (mazeW m)) st dir).
Proof.
  intros Hinv Hbd Hdir. unfold relaxDir.
  set (nx := nextX _ dir). set (ny := nextY _ dir). set (vid := cellId nx ny (mazeW m)).
  destruct (inBounds (mazeW m) (mazeH m) nx ny) eqn:Hb; simpl; [|done].
  destruct (canMove m _ _ dir) eqn:Hc; simpl; [|done].
  destruct (_ <? _); [|done].
  pose proof (pi_cur _ _ _ _ Hinv u eq_refl) as Hu.
  pose proof (reached_dist _ _ _ u Hinv Hu) as Hdu.
  assert (cellIn m vid) as Hvid.
  { apply inBounds_spec in Hb. unfold cellIn, vid. apply cellId_range; lia. }
  intros e [-> | He]%elem_of_pq_push; [|by apply Hbd].
  cbn [fst]. specialize (Hh vid Hvid). lia.
Qed.

Lemma pq_fold_bounded u dirs : forall st reached,
  pq_inv m (Some u) st reached -> pq_bounded m B st ->
  (forall x, x ∈ dirs -> x ∈ directions) ->
  pq_bounded m B (foldl (relaxDir m h u (cellPt u (mazeW m))) st dirs).
Proof.
  pose proof range_int as HN.
  induction dirs as [|x dirs IH]; intros st reached Hinv Hbd Hdirs; [done|].
  assert (x ∈ directions) as Hx by apply Hdirs, list_elem_of_here.
  destruct (relaxDir_step m h HW HH HN u st reached x Hinv Hx) as (r1 & Hinv1 & _).
  cbn [foldl]. apply (IH _ r1 Hinv1).
  - by apply (relaxDir_bounded u st reached).
  - intros x' Hx'. by apply Hdirs, list_elem_of_further.
Qed.

(** What the three invariants say about the values held. *)
Lemma inv_range st reached :
  pq_inv m None st reached -> pq_opt m h None st -> pq_bounded m B st ->
  (forall v, cellIn m v -> 0 <= vget 0 (dist st) v <= INT_MAX) /\
  (forall e, e ∈ pq st ->
     cellIn m e.2 /\ 0 <= e.1 <= N + B /\ 0 <= vget 0 (dist st) e.2 < N).
Proof.
  intros Hinv Hopt Hbd. pose proof range_int as HN. split.
  - intros v Hv. split; [|by apply (po_max _ _ _ _ Hopt)].
    destruct (decide (v ∈ reached)) as [Hin | Hout].
    + pose proof (reached_dist _ _ _ v Hinv Hin). lia.
    + pose proof (pi_far _ _ _ _ Hinv v Hv Hout). unfold INT_MAX in *. lia.
  - intros e He. pose proof (pi_pq _ _ _ _ Hinv e He) as Hr.
    split; [by apply (ti_cells _ _ _ _ (pi_tree _ _ _ _ Hinv))|].
    split; [by apply Hbd | by apply (reached_dist None st reached)].
Qed.

(** The values after any number of iterations. *)
Lemma pqAfter_range n : forall st reached,
  pq_inv m None st reached -> pq_opt m h None st -> pq_bounded m B st ->
  (forall v, cellIn m v -> 0 <= vget 0 (dist (pqAfter n m h st)) v <= INT_MAX) /\
  (forall e, e ∈ pq (pqAfter n m h st) ->
     cellIn m e.2 /\ 0 <= e.1 <= N + B /\ 0 <= vget 0 (dist (pqAfter n m h st)) e.2 < N).
Proof.
  pose proof range_int as HN.
  induction n as [|n IH]; intros st reached Hinv Hopt Hbd; [by apply (inv_range st reached)|].
  pose proof (inv_range st reached Hinv Hopt Hbd) as [Hd Hq].
  cbn [pqAfter]. destruct st as [d par q]. cbn [dist pqParentOf pq] in *.
  destruct q as [|[k u] rest]; [done|]. cbn [snd].
  destruct (Z.eqb_spec u (goalCell m)) as [-> | Hne].
  - cbn [dist pq]. split; [done|]. intros e He. by apply Hq, list_elem_of_further.
  - pose proof Hinv as [Hlen Htree Hstart Hfar Hpq Hcur Hclosed Hgoal].
    cbn [dist pqParentOf pq] in *.
    assert (pq_inv m (Some u) (mkPQSearch d par rest) reached) as Hmid.
    { split; cbn [dist pqParentOf pq]; try done.
      - intros e He. by apply Hpq, list_elem_of_further.
      - intros u' [= <-]. apply (Hpq (k, u)), list_elem_of_here.
      - intros v Hv. destruct (Hclosed v Hv) as [[k' Hk] | [Hc | Hc]]; [|done|auto].
        apply elem_of_cons in Hk as [[= _ ->] | Hk]; [right; by left | left; by exists k'].
      - intros Hg. destruct (Hgoal Hg) as [k' Hk].
        apply elem_of_cons in Hk as [[= _ Heq] | Hk]; [congruence | by exists k']. }
    assert (pq_bounded m B (mkPQSearch d par rest)) as Hbd1.
    { intros e He. by apply Hbd, list_elem_of_further. }
    pose proof (pq_opt_pop m h d par k u rest Hopt) as Hoptm.
    destruct (pq_expand m h HW HH HN u _ reached Hmid) as (r' & Hinv' & _).
    pose proof (pq_expand_opt m h HW HH HN u _ reached Hmid Hoptm) as Hopt'.
    pose proof (pq_fold_bounded u directions _ reached Hmid Hbd1 (fun x Hx => Hx)) as Hbd'.
    by apply (IH _ r').
Qed.

Lemma pq_bounded_init : pq_bounded m B (pqInit m h).
Proof.
  unfold pqInit, pq_bounded. cbn [pq pq_push].
  intros e ->%list_elem_of_singleton. cbn [fst].
  pose proof (Hh 0 (start_cellIn m HW HH)). nia.
Qed.

End PQRange.

Lemma manH_range m v :
  0 < mazeW m -> cellIn m v ->
  0 <= manH (mazeW m) (mazeH m) v <= mazeW m + mazeH m.
Proof.
  intros HW Hv. destruct (cellPt_range _ _ v HW Hv) as [Hx Hy]. unfold manH. lia.
Qed.

(** X18: the values [runPQ] computes fit an [int].  On a maze with
    positive dimensions and [W*H + W + H <= INT_MAX], with either of the
    two heuristics of [main], after any number of iterations of the loop:
    every distance lies between [0] and [INT_MAX]; every key in the queue
    lies between [0] and [INT_MAX]; and for every cell [u] in the queue,
    the [alt = dist[u] + 1] and the key [alt + h(vid)] that popping it
    leads to lie between [0] and [INT_MAX] as well, so that no sum of the
    loop overflows.  The states meant are those of the loop itself: a loop
    that ends after [fuel] iterations at most ends in the state [fuel]
    iterations give. *)
Theorem runPQ_fits_int (m : Maze) (h : Z -> Z) (n : nat) :
  0 < mazeW m -> 0 < mazeH m ->
  h = zeroH \/ h = manH (mazeW m) (mazeH m) ->
  mazeW m * mazeH m + mazeW m + mazeH m <= INT_MAX ->
  (forall v, cellIn m v ->
     0 <= vget 0 (dist (pqAfter n m h (pqInit m h))) v <= INT_MAX) /\
  (forall k u, (k, u) ∈ pq (pqAfter n m h (pqInit m h)) ->
     cellIn m u /\ 0 <= k <= INT_MAX /\
     0 <= vget 0 (dist (pqAfter n m h (pqInit m h))) u + 1 <= INT_MAX /\
     forall w, cellIn m w ->
       0 <= vget 0 (dist (pqAfter n m h (pqInit m h))) u + 1 + h w <= INT_MAX) /\
  (forall fuel exit st, pqLoop fuel m h (pqInit m h) = Some (exit, st) ->
     pqAfter fuel m h (pqInit m h) = st).
Proof.
  intros HW HH Hh Hint.
  assert (forall v, cellIn m v -> 0 <= h v <= mazeW m + mazeH m) as Hb.
  { intros v Hv. destruct Hh as [-> | ->]; [unfold zeroH; lia | by apply manH_range]. }
  assert (mazeW m * mazeH m + (mazeW m + mazeH m) <= INT_MAX) as Hint' by lia.
  assert (mazeW m * mazeH m <= INT_MAX) as HN by lia.
  destruct (pqAfter_range m h (mazeW m + mazeH m) HW HH Hb Hint' n
              (pqInit m h) {[startCell]}) as [Hd Hq].
  - by apply pq_inv_init.
  - by apply pq_opt_init.
  - by apply pq_bounded_init.
  - split; [done|]. split.
    + intros k u Hk. destruct (Hq (k, u) Hk) as (Hu & Hkb & Hdu). cbn [fst snd] in *.
      split; [done|]. split; [lia|]. split; [lia|].
      intros w Hw. specialize (Hb w Hw). lia.
    + intros fuel exit st. apply pqLoop_after.
Qed.

Lemma runPQ_fits_int_witness :
  (forall v, cellIn sampleMaze v ->
     0 <= vget 0 (dist (pqAfter 3 sampleMaze (manH 3 2) (pqInit sampleMaze (manH 3 2)))) v
       <= INT_MAX) /\
  (forall k u, (k, u) ∈ pq (pqAfter 3 sampleMaze (manH 3 2) (pqInit sampleMaze (manH 3 2))) ->
     cellIn sampleMaze u /\ 0 <= k <= INT_MAX /\
     0 <= vget 0 (dist (pqAfter 3 sampleMaze (manH 3 2) (pqInit sampleMaze (manH 3 2)))) u + 1
       <= INT_MAX /\
     forall w, cellIn sampleMaze w ->
       0 <= vget 0 (dist (pqAfter 3 sampleMaze (manH 3 2)
                            (pqInit sampleMaze (manH 3 2)))) u + 1 + manH 3 2 w
         <= INT_MAX) /\
  (forall fuel exit st,
     pqLoop fuel sampleMaze (manH 3 2) (pqInit sampleMaze (manH 3 2)) = Some (exit, st) ->
     pqAfter fuel sampleMaze (manH 3 2) (pqInit sampleMaze (manH 3 2)) = st).
Proof.
  apply (runPQ_fits_int sampleMaze (manH 3 2) 3);
    [simpl; lia | simpl; lia | right; reflexivity | vm_compute; discriminate].
Defined.

(** ** The canvas *)

Section CharGrids.
Implicit Types (g : list (list ascii)) (ws : list (Z * Z * ascii)) (r c : Z) (ch : ascii).

Lemma vset_outside {A} (v : list A) i x : ~ (0 <= i < zlen v) -> vset v i x = v.
Proof.
  intros Hi. unfold vset. destruct (Z.leb_spec 0 i); [|done].
  apply list_insert_ge. unfold zlen in Hi. lia.
Qed.

Lemma vget_outside {A} (d : A) (v : list A) i : ~ (0 <= i < zlen v) -> vget d v i = d.
Proof.
  intros Hi. unfold vget. destruct (Z.leb_spec 0 i); [|done].
  rewrite lookup_ge_None_2; [done|]. unfold zlen in Hi. lia.
Qed.

Lemma charAt_setChar_ne g r0 c0 ch r c :
  (r, c) <> (r0, c0) -> charAt (setChar g r0 c0 ch) r c = charAt g r c.
Proof.
  intros Hne. unfold charAt, setChar.
  destruct (decide (r = r0)) as [-> | Hr]; [|by rewrite vget_vset_ne].
  assert (c <> c0) as Hc by congruence.
  destruct (decide (0 <= r0 < zlen g)) as [Hin | Hout].
  - rewrite vget_vset_eq by done. by rewrite vget_vset_ne.
  - by rewrite vset_outside.
Qed.

Lemma charAt_setChar_eq g r c ch :
  0 <= r < zlen g -> 0 <= c < zlen (vget [] g r) ->
  charAt (setChar g r c ch) r c = ch.
Proof.
  intros Hr Hc. unfold charAt, setChar. rewrite vget_vset_eq by done.
  by rewrite vget_vset_eq.
Qed.

Lemma char_grid_setChar R C g r c ch :
  char_grid R C g -> char_grid R C (setChar g r c ch).
Proof.
  intros [Hlen Hrows]. unfold setChar. split; [by rewrite zlen_vset|].
  intros r' Hr'. destruct (decide (r = r')) as [-> | Hne].
  - rewrite vget_vset_eq by lia. rewrite zlen_vset. by apply Hrows.
  - rewrite vget_vset_ne by done. by apply Hrows.
Qed.

Lemma char_grid_paint R C ws : forall g, char_grid R C g -> char_grid R C (paint g ws).
Proof.
  induction ws as [|w ws IH]; intros g Hg; [done|].
  apply IH. by apply char_grid_setChar.
Qed.

Lemma char_grid_blank (R C : Z) :
  0 <= R -> 0 <= C ->
  char_grid R C (replicate (Z.to_nat R) (replicate (Z.to_nat C) " "%char)).
Proof.
  intros HR HC. split; [rewrite zlen_replicate; lia|].
  intros r Hr. rewrite vget_replicate by lia. rewrite zlen_replicate. lia.
Qed.

Lemma charAt_blank (R C : Z) r c :
  0 <= r < R -> 0 <= c < C ->
  charAt (replicate (Z.to_nat R) (replicate (Z.to_nat C) " "%char)) r c = " "%char.
Proof.
  intros Hr Hc. unfold charAt. rewrite vget_replicate by lia.
  by rewrite vget_replicate by lia.
Qed.

Lemma paint_app g ws1 ws2 : paint g (ws1 ++ ws2) = paint (paint g ws1) ws2.
Proof. apply foldl_app. Qed.

(** No write at a position leaves it as it was. *)
Lemma paint_miss ws : forall g r c,
  (forall w, w ∈ ws -> (w.1.1, w.1.2) <> (r, c)) ->
  charAt (paint g ws) r c = charAt g r c.
Proof.
  induction ws as [|w ws IH]; intros g r c Hno; [done|].
  simpl. rewrite IH by (intros w' Hw'; apply Hno; by apply list_elem_of_further).
  apply charAt_setChar_ne. intros Heq. by apply (Hno w (list_elem_of_here _ _)).
Qed.

(** Writes of one character at a position, in whatever order they come
    among the others, leave that character there. *)
Lemma paint_hit R C ws g r c ch :
  char_grid R C g -> 0 <= r < R -> 0 <= c < C ->
  (exists w, w ∈ ws /\ (w.1.1, w.1.2) = (r, c)) ->
  (forall w, w ∈ ws -> (w.1.1, w.1.2) = (r, c) -> w.2 = ch) ->
  charAt (paint g ws) r c = ch.
Proof.
  intros Hg Hr Hc. induction ws as [|w ws IH] using rev_ind; intros (w0 & Hin & Hpos) Hall.
  { by apply elem_of_nil in Hin. }
  rewrite paint_app. simpl.
  pose proof (char_grid_paint R C ws g Hg) as [Hlen Hrows].
  destruct (decide ((w.1.1, w.1.2) = (r, c))) as [Heq | Hne].
  - pose proof Heq as Heq'. injection Heq' as E1 E2. rewrite E1, E2.
    rewrite charAt_setChar_eq by (rewrite ?Hrows; lia).
    apply Hall; [|done]. apply elem_of_app. right. apply list_elem_of_here.
  - rewrite charAt_setChar_ne by congruence.
    apply IH.
    + exists w0. split; [|done].
      apply elem_of_app in Hin as [Hin | Hin%list_elem_of_singleton]; [done | by subst].
    + intros w' Hw'. apply Hall. apply elem_of_app. by left.
Qed.

(** A loop whose body paints is one painting. *)
Lemma paint_bind {A} (k : A -> list (Z * Z * ascii)) (l : list A) : forall g,
  foldl (fun g x => paint g (k x)) g l = paint g (l ≫= k).
Proof.
  induction l as [|x l IH]; intros g; [done|].
  rewrite bind_cons, paint_app. simpl. apply IH.
Qed.

Lemma foldl_ext_in {A B} (f f' : A -> B -> A) (l : list B) : forall a,
  (forall a x, f a x = f' a x) -> foldl f a l = foldl f' a l.
Proof.
  induction l as [|x l IH]; intros a Hf; [done|]. simpl. rewrite Hf. by apply IH.
Qed.

Lemma latticeChar_paint g r c : latticeChar g r c = paint g (latticeWrites r c).
Proof.
  unfold latticeChar, latticeWrites.
  destruct (_ && _); [done|]. destruct (_ =? _); [done|]. by destruct (_ =? _).
Qed.

Lemma carveCell_paint mz g x y : carveCell mz g x y = paint g (carveWrites mz x y).
Proof.
  unfold carveCell, carveWrites.
  destruct (wallAt (hasRightWall mz) x y); destruct (wallAt (hasDownWall mz) x y); done.
Qed.

End CharGrids.

Ltac zdiv := Z.to_euclidean_division_equations; lia.

Section CanvasBase.
Variable m : Maze.
Hypothesis HW : 0 < mazeW m.
Hypothesis HH : 0 < mazeH m.
Local Abbreviation W := (mazeW m).
Local Abbreviation H := (mazeH m).
Local Abbreviation blank :=
  (replicate (Z.to_nat (2 * H + 1)) (replicate (Z.to_nat (2 * W + 1)) " "%char)).
Local Abbreviation lattice := (paint blank (allLatticeWrites (2 * H + 1) (2 * W + 1))).
Local Abbreviation carved := (paint lattice (allCarveWrites m)).

Lemma nested_paint {A B} (body : list (list ascii) -> A -> B -> list (list ascii))
    (k : A -> B -> list (Z * Z * ascii)) (la : list A) (lb : list B) g :
  (forall g a b, body g a b = paint g (k a b)) ->
  foldl (fun g a => foldl (fun g b => body g a b) g lb) g la =
  paint g (a ← la; b ← lb; k a b).
Proof.
  intros Hbody. rewrite <- paint_bind. apply foldl_ext_in.
  intros g' a. rewrite <- paint_bind. apply foldl_ext_in. intros g'' b. apply Hbody.
Qed.

Lemma baseGrid_paint :
  baseGrid (AsciiCanvas_new m) =
  setChar (setChar carved 1 0 " ") (2 * H - 1) (2 * W) " ".
Proof.
  unfold AsciiCanvas_new. cbn [baseGrid]. f_equal. f_equal.
  rewrite (nested_paint (fun g y x => carveCell m g x y) (fun y x => carveWrites m x y))
    by (intros; apply carveCell_paint).
  unfold allCarveWrites. f_equal.
  by rewrite (nested_paint latticeChar latticeWrites) by (intros; apply latticeChar_paint).
Qed.

Lemma elem_of_allLatticeWrites R C w :
  w ∈ allLatticeWrites R C <->
  0 <= w.1.1 < R /\ 0 <= w.1.2 < C /\ w.2 = latticeAt w.1.1 w.1.2 /\
  (Z.rem w.1.1 2 = 0 \/ Z.rem w.1.2 2 = 0).
Proof.
  unfold allLatticeWrites. rewrite list_elem_of_bind. split.
  - intros (r & (c & Hw & Hc%elem_of_seqZ)%list_elem_of_bind & Hr%elem_of_seqZ).
    unfold latticeWrites, latticeAt in *.
    destruct (Z.eqb_spec (Z.rem r 2) 0); destruct (Z.eqb_spec (Z.rem c 2) 0); simpl in *;
      try (by apply elem_of_nil in Hw);
      apply list_elem_of_singleton in Hw; subst w; simpl;
      destruct (Z.eqb_spec (Z.rem r 2) 0); destruct (Z.eqb_spec (Z.rem c 2) 0); simpl;
      (split; [lia|]); (split; [lia|]); (split; [done|]); tauto.
  - destruct w as [[r c] ch]. simpl. intros (Hr & Hc & -> & Heven).
    exists r. split; [|apply elem_of_seqZ; lia].
    apply list_elem_of_bind. exists c. split; [|apply elem_of_seqZ; lia].
    unfold latticeWrites, latticeAt.
    destruct (Z.eqb_spec (Z.rem r 2) 0); destruct (Z.eqb_spec (Z.rem c 2) 0); simpl;
      first [apply list_elem_of_singleton; done | lia].
Qed.

Lemma elem_of_allCarveWrites w :
  w ∈ allCarveWrites m <-> w.2 = " "%char /\ carvedAt m w.1.1 w.1.2.
Proof.
  unfold allCarveWrites, carvedAt. rewrite list_elem_of_bind. split.
  - intros (y & (x & Hw & Hx%elem_of_seqZ)%list_elem_of_bind & Hy%elem_of_seqZ).
    unfold carveWrites in Hw.
    apply elem_of_cons in Hw as [-> | Hw].
    { split; [done|]. exists x, y. simpl. split; [lia|]. split; [lia|]. by left. }
    apply elem_of_app in Hw as [Hw | Hw].
    + destruct (wallAt (hasRightWall m) x y) eqn:Hr; simpl in Hw; [by apply elem_of_nil in Hw|].
      apply list_elem_of_singleton in Hw as ->. split; [done|]. exists x, y. simpl.
      split; [lia|]. split; [lia|]. right. left. split; [done|]. split; [lia | done].
    + destruct (wallAt (hasDownWall m) x y) eqn:Hd; simpl in Hw; [by apply elem_of_nil in Hw|].
      apply list_elem_of_singleton in Hw as ->. split; [done|]. exists x, y. simpl.
      split; [lia|]. split; [lia|]. right. right. split; [lia|]. split; [done | done].
  - destruct w as [[r c] ch]. simpl. intros (-> & x & y & Hx & Hy & Hpos).
    exists y. split; [|apply elem_of_seqZ; lia].
    apply list_elem_of_bind. exists x. split; [|apply elem_of_seqZ; lia].
    unfold carveWrites. destruct Hpos as [[-> ->] | [(-> & -> & Hr) | (-> & -> & Hd)]].
    + apply list_elem_of_here.
    + apply list_elem_of_further, elem_of_app. left. rewrite Hr. simpl.
      apply list_elem_of_singleton. f_equal. f_equal. lia.
    + apply list_elem_of_further, elem_of_app. right. rewrite Hd. simpl.
      apply list_elem_of_singleton. f_equal. f_equal. lia.
Qed.

Lemma char_grid_lattice : char_grid (2 * H + 1) (2 * W + 1) lattice.
Proof. apply char_grid_paint, char_grid_blank; lia. Qed.

Lemma char_grid_carved : char_grid (2 * H + 1) (2 * W + 1) carved.
Proof. apply char_grid_paint, char_grid_lattice. Qed.

Lemma char_grid_base : char_grid (2 * H + 1) (2 * W + 1) (baseGrid (AsciiCanvas_new m)).
Proof. rewrite baseGrid_paint. do 2 apply char_grid_setChar. apply char_grid_carved. Qed.

Lemma lattice_at r c :
  0 <= r < 2 * H + 1 -> 0 <= c < 2 * W + 1 -> charAt lattice r c = latticeAt r c.
Proof.
  intros Hr Hc.
  destruct (decide (Z.rem r 2 = 0 \/ Z.rem c 2 = 0)) as [Heven | Hodd].
  - apply (paint_hit (2 * H + 1) (2 * W + 1)); [apply char_grid_blank; lia | done | done | |].
    + exists (r, c, latticeAt r c). split; [|done].
      apply elem_of_allLatticeWrites. simpl. done.
    + intros w (_ & _ & Hw & _)%elem_of_allLatticeWrites [= <- <-]. done.
  - rewrite paint_miss.
    + rewrite charAt_blank by lia. unfold latticeAt.
      destruct (Z.eqb_spec (Z.rem r 2) 0); [tauto|].
      destruct (Z.eqb_spec (Z.rem c 2) 0); [tauto|]. done.
    + intros w (_ & _ & _ & Hw)%elem_of_allLatticeWrites [= <- <-]. done.
Qed.

Lemma carved_hit r c :
  0 <= r < 2 * H + 1 -> 0 <= c < 2 * W + 1 -> carvedAt m r c ->
  charAt carved r c = " "%char.
Proof.
  intros Hr Hc Hcv.
  apply (paint_hit (2 * H + 1) (2 * W + 1)); [apply char_grid_lattice | done | done | |].
  - exists (r, c, " "%char). split; [|done]. by apply elem_of_allCarveWrites.
  - by intros w [Hw _]%elem_of_allCarveWrites _.
Qed.

Lemma carved_miss r c :
  0 <= r < 2 * H + 1 -> 0 <= c < 2 * W + 1 -> ~ carvedAt m r c ->
  charAt carved r c = latticeAt r c.
Proof.
  intros Hr Hc Hcv. rewrite paint_miss; [by apply lattice_at|].
  intros w [_ Hw]%elem_of_allCarveWrites [= <- <-]. done.
Qed.

(** Away from the entrance and the exit the base grid is the carved one. *)
Lemma base_carved r c :
  (r, c) <> (1, 0) -> (r, c) <> (2 * H - 1, 2 * W) ->
  charAt (baseGrid (AsciiCanvas_new m)) r c = charAt carved r c.
Proof.
  intros H1 H2. rewrite baseGrid_paint. by rewrite !charAt_setChar_ne.
Qed.

Lemma base_entrance : charAt (baseGrid (AsciiCanvas_new m)) 1 0 = " "%char.
Proof.
  rewrite baseGrid_paint. pose proof char_grid_carved as [Hlen Hrows].
  destruct (decide ((1, 0) = (2 * H - 1, 2 * W))) as [Heq | Hne].
  - injection Heq as E1 E2. lia.
  - rewrite charAt_setChar_ne by done. apply charAt_setChar_eq; [lia|].
    rewrite Hrows by lia. lia.
Qed.

Lemma base_exit : charAt (baseGrid (AsciiCanvas_new m)) (2 * H - 1) (2 * W) = " "%char.
Proof.
  rewrite baseGrid_paint.
  pose proof (char_grid_setChar _ _ _ 1 0 " "%char char_grid_carved) as [Hlen Hrows].
  apply charAt_setChar_eq; [lia|]. rewrite Hrows by lia. lia.
Qed.

Lemma latticeAt_corner i j : 0 <= i -> 0 <= j -> latticeAt (2 * i) (2 * j) = "+"%char.
Proof.
  intros Hi Hj. unfold latticeAt.
  destruct (Z.eqb_spec (Z.rem (2 * i) 2) 0); [|zdiv].
  destruct (Z.eqb_spec (Z.rem (2 * j) 2) 0); [done | zdiv].
Qed.

Lemma latticeAt_horizontal i x : 0 <= i -> 0 <= x -> latticeAt (2 * i) (2 * x + 1) = "-"%char.
Proof.
  intros Hi Hx. unfold latticeAt.
  destruct (Z.eqb_spec (Z.rem (2 * i) 2) 0); [|zdiv].
  destruct (Z.eqb_spec (Z.rem (2 * x + 1) 2) 0); [zdiv | done].
Qed.

Lemma latticeAt_vertical y j : 0 <= y -> 0 <= j -> latticeAt (2 * y + 1) (2 * j) = "|"%char.
Proof.
  intros Hy Hj. unfold latticeAt.
  destruct (Z.eqb_spec (Z.rem (2 * y + 1) 2) 0); [zdiv|].
  destruct (Z.eqb_spec (Z.rem (2 * j) 2) 0); [done | zdiv].
Qed.

Lemma carvedAt_right x y :
  0 <= x < W -> 0 <= y < H ->
  (carvedAt m (2 * y + 1) (2 * x + 2) <-> wallAt (hasRightWall m) x y = false).
Proof.
  intros Hx Hy. split.
  - intros (x' & y' & Hx' & Hy' & [[? ?] | [(? & ? & Hr) | (? & ? & ?)]]); [lia | | lia].
    assert (x' = x) as -> by lia. assert (y' = y) as -> by lia. done.
  - intros Hr. exists x, y. split; [done|]. split; [done|]. right. left. done.
Qed.

Lemma carvedAt_down x y :
  0 <= x < W -> 0 <= y < H ->
  (carvedAt m (2 * y + 2) (2 * x + 1) <-> wallAt (hasDownWall m) x y = false).
Proof.
  intros Hx Hy. split.
  - intros (x' & y' & Hx' & Hy' & [[? ?] | [(? & ? & ?) | (? & ? & Hd)]]); [lia | lia |].
    assert (x' = x) as -> by lia. assert (y' = y) as -> by lia. done.
  - intros Hd. exists x, y. split; [done|]. split; [done|]. right. right. done.
Qed.

(** The cells and the walls between them. *)
Lemma canvas_cell x y :
  0 <= x < W -> 0 <= y < H ->
  charAt (baseGrid (AsciiCanvas_new m)) (2 * y + 1) (2 * x + 1) = " "%char.
Proof.
  intros Hx Hy. rewrite base_carved by (intros [= ]; lia).
  apply carved_hit; [lia | lia |]. exists x, y. split; [done|]. split; [done|]. by left.
Qed.

Lemma canvas_right_wall x y :
  0 <= x -> x + 1 < W -> 0 <= y < H ->
  charAt (baseGrid (AsciiCanvas_new m)) (2 * y + 1) (2 * x + 2) =
    if canMove m x y 1 then " "%char else "|"%char.
Proof.
  intros Hx Hx' Hy. rewrite base_carved by (intros [= ]; lia).
  unfold canMove. simpl. destruct (Z.geb_spec (x + 1) W); [lia|].
  destruct (wallAt (hasRightWall m) x y) eqn:Hr; simpl.
  - rewrite carved_miss; [| lia | lia |].
    + replace (2 * x + 2) with (2 * (x + 1)) by lia. apply latticeAt_vertical; lia.
    + rewrite carvedAt_right by lia. by rewrite Hr.
  - apply carved_hit; [lia | lia |]. apply carvedAt_right; [lia | lia | done].
Qed.

Lemma canvas_down_wall x y :
  0 <= x < W -> 0 <= y -> y + 1 < H ->
  charAt (baseGrid (AsciiCanvas_new m)) (2 * y + 2) (2 * x + 1) =
    if canMove m x y 2 then " "%char else "-"%char.
Proof.
  intros Hx Hy Hy'. rewrite base_carved by (intros [= ]; lia).
  unfold canMove. simpl. destruct (Z.geb_spec (y + 1) H); [lia|].
  destruct (wallAt (hasDownWall m) x y) eqn:Hd; simpl.
  - rewrite carved_miss; [| lia | lia |].
    + replace (2 * y + 2) with (2 * (y + 1)) by lia. apply latticeAt_horizontal; lia.
    + rewrite carvedAt_down by lia. by rewrite Hd.
  - apply carved_hit; [lia | lia |]. apply carvedAt_down; [lia | lia | done].
Qed.

Lemma canvas_corner i j :
  0 <= i <= H -> 0 <= j <= W ->
  charAt (baseGrid (AsciiCanvas_new m)) (2 * i) (2 * j) = "+"%char.
Proof.
  intros Hi Hj. rewrite base_carved by (intros [= ]; lia).
  rewrite carved_miss; [apply latticeAt_corner; lia | lia | lia |].
  intros (x' & y' & Hx' & Hy' & [[? ?] | [(? & ? & ?) | (? & ? & ?)]]); lia.
Qed.

Lemma canvas_top x :
  0 <= x < W -> charAt (baseGrid (AsciiCanvas_new m)) 0 (2 * x + 1) = "-"%char.
Proof.
  intros Hx. rewrite base_carved by (intros [= ]; lia).
  rewrite carved_miss; [apply (latticeAt_horizontal 0); lia | lia | lia |].
  intros (x' & y' & Hx' & Hy' & [[? ?] | [(? & ? & ?) | (? & ? & ?)]]); lia.
Qed.

Lemma canvas_left y :
  0 <= y < H ->
  charAt (baseGrid (AsciiCanvas_new m)) (2 * y + 1) 0 =
    if decide (y = 0) then " "%char else "|"%char.
Proof.
  intros Hy. destruct (decide (y = 0)) as [-> | Hne]; [apply base_entrance|].
  rewrite base_carved by (intros [= ]; lia).
  rewrite carved_miss; [apply (latticeAt_vertical y 0); lia | lia | lia |].
  intros (x' & y' & Hx' & Hy' & [[? ?] | [(? & ? & ?) | (? & ? & ?)]]); lia.
Qed.

Lemma canvas_bottom x :
  walls_inner m -> 0 <= x < W ->
  charAt (baseGrid (AsciiCanvas_new m)) (2 * H) (2 * x + 1) = "-"%char.
Proof.
  intros Hinner Hx. rewrite base_carved by (intros [= ]; lia).
  rewrite carved_miss; [apply latticeAt_horizontal; lia | lia | lia |].
  intros (x' & y' & Hx' & Hy' & [[? ?] | [(? & ? & ?) | (? & ? & Hd)]]); [lia | lia |].
  destruct (Hinner x' y' Hx' Hy') as [_ Hdown]. specialize (Hdown Hd). lia.
Qed.

Lemma canvas_right y :
  walls_inner m -> 0 <= y < H ->
  charAt (baseGrid (AsciiCanvas_new m)) (2 * y + 1) (2 * W) =
    if decide (y = H - 1) then " "%char else "|"%char.
Proof.
  intros Hinner Hy. destruct (decide (y = H - 1)) as [-> | Hne].
  { replace (2 * (H - 1) + 1) with (2 * H - 1) by lia. apply base_exit. }
  rewrite base_carved by (intros [= ]; lia).
  rewrite carved_miss; [apply latticeAt_vertical; lia | lia | lia |].
  intros (x' & y' & Hx' & Hy' & [[? ?] | [(? & ? & Hr) | (? & ? & ?)]]); [lia | | lia].
  destruct (Hinner x' y' Hx' Hy') as [Hright _]. specialize (Hright Hr). lia.
Qed.

End CanvasBase.

(** ** Frames *)

Section Frames.
Variable m : Maze.
Hypothesis HW : 0 < mazeW m.
Hypothesis HH : 0 < mazeH m.
Local Abbreviation W := (mazeW m).
Local Abbreviation H := (mazeH m).

Lemma foldl_markCell ch l : forall cv,
  foldl (markCell ch) cv l =
  mkAsciiCanvas (canvasW cv) (canvasH cv) (rows cv) (cols cv) (baseGrid cv)
                (paint (drawGrid cv) (centreWrite (canvasW cv) ch <$> l)).
Proof.
  induction l as [|v l IH]; intros cv; [by destruct cv|].
  simpl. rewrite IH. done.
Qed.

Lemma centre_of_cell v x y :
  cellIn m v -> 0 <= x < W -> 0 <= y < H ->
  ((2 * py (cellPt v W) + 1, 2 * px (cellPt v W) + 1) = (2 * y + 1, 2 * x + 1)
   <-> v = cellId x y W).
Proof.
  intros Hv Hx Hy. unfold cellIn in Hv. split.
  - intros [= E1 E2]. rewrite <- (cellId_cellPt W v) by lia.
    unfold cellPt in *. cbn [px py] in *.
    assert (Z.rem v W = x) as -> by lia.
    assert (Z.quot v W = y) as -> by lia. done.
  - intros ->. rewrite cellPt_cellId by lia. done.
Qed.

(** Marking the cells of [l] with [ch]. *)
Lemma paint_cells R C g ch l x y :
  char_grid R C g -> 2 * y + 1 < R -> 2 * x + 1 < C ->
  (forall v, v ∈ l -> cellIn m v) -> 0 <= x < W -> 0 <= y < H ->
  charAt (paint g (centreWrite W ch <$> l)) (2 * y + 1) (2 * x + 1) =
    if decide (cellId x y W ∈ l) then ch else charAt g (2 * y + 1) (2 * x + 1).
Proof.
  intros Hg HR HC Hl Hx Hy. destruct (decide (cellId x y W ∈ l)) as [Hin | Hout].
  - apply (paint_hit R C); [done | lia | lia | |].
    + exists (centreWrite W ch (cellId x y W)). split; [by apply list_elem_of_fmap_2|].
      unfold centreWrite. cbn [fst snd]. rewrite cellPt_cellId by lia. done.
    + by intros w (v & -> & _)%list_elem_of_fmap _.
  - apply paint_miss. intros w (v & -> & Hv)%list_elem_of_fmap Heq.
    unfold centreWrite in Heq. cbn [fst snd] in Heq.
    apply (centre_of_cell v x y (Hl v Hv) Hx Hy) in Heq. by subst v.
Qed.

(** Marking cells leaves the walls alone. *)
Lemma paint_cells_walls g ch l r c :
  (forall v, v ∈ l -> cellIn m v) -> Z.rem r 2 = 0 \/ Z.rem c 2 = 0 ->
  charAt (paint g (centreWrite W ch <$> l)) r c = charAt g r c.
Proof.
  intros Hl Heven. apply paint_miss. intros w (v & -> & Hv)%list_elem_of_fmap [= <- <-].
  destruct (cellPt_range W H v HW (Hl v Hv)) as [Hpx Hpy]. zdiv.
Qed.

Lemma drawFrame_grid cv frontierSet visitedSet currentCell :
  drawGrid (drawFrame cv frontierSet visitedSet currentCell) =
  paint (paint (paint (baseGrid cv) (centreWrite (canvasW cv) "." <$> visitedSet))
               (centreWrite (canvasW cv) "o" <$> frontierSet))
        (centreWrite (canvasW cv) "@" <$>
           (if negb (currentCell =? -1) then [currentCell] else [])).
Proof.
  unfold drawFrame. rewrite !foldl_markCell.
  cbn [canvasW canvasH rows cols baseGrid drawGrid resetGrid].
  by destruct (negb _).
Qed.

Lemma drawFrame_base cv frontierSet visitedSet currentCell :
  baseGrid (drawFrame cv frontierSet visitedSet currentCell) = baseGrid cv.
Proof.
  unfold drawFrame. rewrite !foldl_markCell. by destruct (negb _).
Qed.

Lemma drawFrame_cell frontierSet visitedSet currentCell x y :
  (forall v, v ∈ frontierSet -> cellIn m v) ->
  (forall v, v ∈ visitedSet -> cellIn m v) ->
  currentCell = -1 \/ cellIn m currentCell ->
  0 <= x < W -> 0 <= y < H ->
  charAt (drawGrid (drawFrame (AsciiCanvas_new m) frontierSet visitedSet currentCell))
         (2 * y + 1) (2 * x + 1)
  = frameChar frontierSet visitedSet currentCell (cellId x y W).
Proof.
  intros HF HV Hcur Hx Hy. rewrite drawFrame_grid.
  change (canvasW (AsciiCanvas_new m)) with W.
  pose proof (char_grid_base m HW HH) as Hbase.
  pose proof (char_grid_paint _ _ (centreWrite W "." <$> visitedSet) _ Hbase) as Hg1.
  pose proof (char_grid_paint _ _ (centreWrite W "o" <$> frontierSet) _ Hg1) as Hg2.
  pose proof (cellId_range W H x y Hx Hy) as Hid.
  assert (forall v, v ∈ (if negb (currentCell =? -1) then [currentCell] else []) ->
            cellIn m v) as HC.
  { intros v. destruct (Z.eqb_spec currentCell (-1)); simpl.
    - by intros ?%elem_of_nil.
    - intros ->%list_elem_of_singleton. by destruct Hcur. }
  rewrite (paint_cells _ _ _ _ _ x y Hg2) by first [lia | done].
  rewrite (paint_cells _ _ _ _ _ x y Hg1) by first [lia | done].
  rewrite (paint_cells _ _ _ _ _ x y Hbase) by first [lia | done].
  rewrite (canvas_cell m HW HH) by done.
  unfold frameChar.
  destruct (decide (cellId x y W = currentCell)) as [He | Hne].
  - rewrite decide_True; [done|].
    destruct (Z.eqb_spec currentCell (-1)); [lia|]. simpl. by apply list_elem_of_singleton.
  - rewrite decide_False; [done|].
    destruct (Z.eqb_spec currentCell (-1)); simpl;
      [by intros ?%elem_of_nil | by intros ?%list_elem_of_singleton].
Qed.

Lemma drawFrame_walls frontierSet visitedSet currentCell r c :
  (forall v, v ∈ frontierSet -> cellIn m v) ->
  (forall v, v ∈ visitedSet -> cellIn m v) ->
  currentCell = -1 \/ cellIn m currentCell ->
  Z.rem r 2 = 0 \/ Z.rem c 2 = 0 ->
  charAt (drawGrid (drawFrame (AsciiCanvas_new m) frontierSet visitedSet currentCell)) r c
  = charAt (baseGrid (AsciiCanvas_new m)) r c.
Proof.
  intros HF HV Hcur Heven. rewrite drawFrame_grid.
  change (canvasW (AsciiCanvas_new m)) with W.
  assert (forall v, v ∈ (if negb (currentCell =? -1) then [currentCell] else []) ->
            cellIn m v) as HC.
  { intros v. destruct (Z.eqb_spec currentCell (-1)); simpl.
    - by intros ?%elem_of_nil.
    - intros ->%list_elem_of_singleton. by destruct Hcur. }
  by rewrite !paint_cells_walls by done.
Qed.

(** *** The final frame *)

Lemma markFinal_markPath fuel par : forall cv v,
  markFinal fuel par cv v = foldl (markCell "*") cv <$> markPath fuel par v.
Proof.
  induction fuel as [|fuel IH]; intros cv v; [done|].
  simpl. destruct (v =? -1); [done|]. rewrite IH.
  by destruct (markPath fuel par (vget 0 par v)).
Qed.

Lemma drawFinalCanvas_frame fuel par endCell f :
  drawFinalPath fuel par endCell = Some f ->
  exists cv,
    drawFinalCanvas fuel (AsciiCanvas_new m) par endCell = Some cv /\
    baseGrid cv = baseGrid (AsciiCanvas_new m) /\
    drawGrid cv = paint (baseGrid (AsciiCanvas_new m)) (centreWrite W "*" <$> marked f).
Proof.
  unfold drawFinalPath, drawFinalCanvas. rewrite markFinal_markPath.
  destruct (markPath fuel par endCell) as [cells|]; [|done].
  simpl. intros [= <-]. eexists. split; [done|].
  rewrite foldl_markCell. done.
Qed.

End Frames.

Section CanvasTheorems.

(** X19: the canvas shows the maze.  On a maze with at least one cell, the
    base grid of [AsciiCanvas] has a blank at the centre [(2y+1, 2x+1)] of
    every cell [(x, y)]; between the cell and its right neighbour it has a
    blank when [canMove] allows the move and '|' when not; between the cell
    and its lower neighbour a blank when [canMove] allows the move and '-'
    when not. *)
Theorem canvas_shows_passages (m : Maze) (x y : Z) :
  0 <= x < mazeW m -> 0 <= y < mazeH m ->
  charAt (baseGrid (AsciiCanvas_new m)) (2 * y + 1) (2 * x + 1) = " "%char /\
  (x + 1 < mazeW m ->
     charAt (baseGrid (AsciiCanvas_new m)) (2 * y + 1) (2 * x + 2) =
       if canMove m x y 1 then " "%char else "|"%char) /\
  (y + 1 < mazeH m ->
     charAt (baseGrid (AsciiCanvas_new m)) (2 * y + 2) (2 * x + 1) =
       if canMove m x y 2 then " "%char else "-"%char).
Proof.
  intros Hx Hy. assert (0 < mazeW m) as HW by lia. assert (0 < mazeH m) as HH by lia.
  split; [by apply canvas_cell|]. split.
  - intros Hx'. apply canvas_right_wall; lia.
  - intros Hy'. apply canvas_down_wall; lia.
Qed.

Lemma canvas_shows_passages_witness :
  charAt (baseGrid (AsciiCanvas_new sampleMaze)) (2 * 0 + 1) (2 * 1 + 1) = " "%char /\
  (1 + 1 < mazeW sampleMaze ->
     charAt (baseGrid (AsciiCanvas_new sampleMaze)) (2 * 0 + 1) (2 * 1 + 2) =
       if canMove sampleMaze 1 0 1 then " "%char else "|"%char) /\
  (0 + 1 < mazeH sampleMaze ->
     charAt (baseGrid (AsciiCanvas_new sampleMaze)) (2 * 0 + 2) (2 * 1 + 1) =
       if canMove sampleMaze 1 0 2 then " "%char else "-"%char).
Proof. apply (canvas_shows_passages sampleMaze 1 0); simpl; lia. Defined.

(** X20: the frame of the canvas.  On a maze with at least one cell whose
    removed walls all lie between two cells (as in every generated maze),
    the base grid has [2H+1] rows of [2W+1] characters, a '+' at every
    corner [(2i, 2j)], '-' all along the top and the bottom row, and '|'
    all along the left and the right column except for the entrance
    [(1, 0)] and the exit [(2H-1, 2W)], which are blank. *)
Theorem canvas_frame (m : Maze) :
  0 < mazeW m -> 0 < mazeH m -> walls_inner m ->
  rows (AsciiCanvas_new m) = 2 * mazeH m + 1 /\
  cols (AsciiCanvas_new m) = 2 * mazeW m + 1 /\
  char_grid (2 * mazeH m + 1) (2 * mazeW m + 1) (baseGrid (AsciiCanvas_new m)) /\
  (forall i j, 0 <= i <= mazeH m -> 0 <= j <= mazeW m ->
     charAt (baseGrid (AsciiCanvas_new m)) (2 * i) (2 * j) = "+"%char) /\
  (forall x, 0 <= x < mazeW m ->
     charAt (baseGrid (AsciiCanvas_new m)) 0 (2 * x + 1) = "-"%char /\
     charAt (baseGrid (AsciiCanvas_new m)) (2 * mazeH m) (2 * x + 1) = "-"%char) /\
  (forall y, 0 <= y < mazeH m ->
     charAt (baseGrid (AsciiCanvas_new m)) (2 * y + 1) 0 =
       (if decide (y = 0) then " "%char else "|"%char) /\
     charAt (baseGrid (AsciiCanvas_new m)) (2 * y + 1) (2 * mazeW m) =
       (if decide (y = mazeH m - 1) then " "%char else "|"%char)).
Proof.
  intros HW HH Hinner. split; [done|]. split; [done|].
  split; [by apply char_grid_base|].
  split; [intros i j; by apply canvas_corner|]. split.
  - intros x Hx. split; [by apply canvas_top | by apply canvas_bottom].
  - intros y Hy. split; [by apply canvas_left | by apply canvas_right].
Qed.

Lemma sampleMaze_inner : walls_inner sampleMaze.
Proof.
  intros x y Hx Hy. simpl in Hx, Hy.
  assert (x = 0 \/ x = 1 \/ x = 2) as [-> | [-> | ->]] by lia;
    assert (y = 0 \/ y = 1) as [-> | ->] by lia;
    vm_compute; split; intros Hf; first [discriminate Hf | done].
Qed.

Lemma canvas_frame_witness :
  rows (AsciiCanvas_new sampleMaze) = 2 * mazeH sampleMaze + 1 /\
  cols (AsciiCanvas_new sampleMaze) = 2 * mazeW sampleMaze + 1 /\
  char_grid (2 * mazeH sampleMaze + 1) (2 * mazeW sampleMaze + 1)
            (baseGrid (AsciiCanvas_new sampleMaze)) /\
  (forall i j, 0 <= i <= mazeH sampleMaze -> 0 <= j <= mazeW sampleMaze ->
     charAt (baseGrid (AsciiCanvas_new sampleMaze)) (2 * i) (2 * j) = "+"%char) /\
  (forall x, 0 <= x < mazeW sampleMaze ->
     charAt (baseGrid (AsciiCanvas_new sampleMaze)) 0 (2 * x + 1) = "-"%char /\
     charAt (baseGrid (AsciiCanvas_new sampleMaze)) (2 * mazeH sampleMaze) (2 * x + 1)
       = "-"%char) /\
  (forall y, 0 <= y < mazeH sampleMaze ->
     charAt (baseGrid (AsciiCanvas_new sampleMaze)) (2 * y + 1) 0 =
       (if decide (y = 0) then " "%char else "|"%char) /\
     charAt (baseGrid (AsciiCanvas_new sampleMaze)) (2 * y + 1) (2 * mazeW sampleMaze) =
       (if decide (y = mazeH sampleMaze - 1) then " "%char else "|"%char)).
Proof.
  apply (canvas_frame sampleMaze); [simpl; lia | simpl; lia | apply sampleMaze_inner].
Defined.

(** X21: what a frame shows.  [drawFrame] on the canvas of a maze, given
    cells of the maze as visited cells, frontier and current cell ([-1]
    for none), leaves at the centre of every cell '@' if it is the current
    cell, else 'o' if it is in the frontier, else '.' if it is visited,
    else a blank, in whatever order the two sets are run through; every
    wall position shows what the base grid has there, and the base grid
    itself is not touched. *)
Theorem drawFrame_cells (m : Maze) (frontierSet visitedSet : list Z) (currentCell : Z) :
  0 < mazeW m -> 0 < mazeH m ->
  (forall v, v ∈ frontierSet -> cellIn m v) ->
  (forall v, v ∈ visitedSet -> cellIn m v) ->
  currentCell = -1 \/ cellIn m currentCell ->
  (forall x y, 0 <= x < mazeW m -> 0 <= y < mazeH m ->
     charAt (drawGrid (drawFrame (AsciiCanvas_new m) frontierSet visitedSet currentCell))
            (2 * y + 1) (2 * x + 1)
     = frameChar frontierSet visitedSet currentCell (cellId x y (mazeW m))) /\
  (forall r c, Z.rem r 2 = 0 \/ Z.rem c 2 = 0 ->
     charAt (drawGrid (drawFrame (AsciiCanvas_new m) frontierSet visitedSet currentCell)) r c
     = charAt (baseGrid (AsciiCanvas_new m)) r c) /\
  baseGrid (drawFrame (AsciiCanvas_new m) frontierSet visitedSet currentCell)
  = baseGrid (AsciiCanvas_new m).
Proof.
  intros HW HH HF HV Hcur. split; [|split].
  - intros x y Hx Hy. by apply drawFrame_cell.
  - intros r c Heven. by apply drawFrame_walls.
  - apply drawFrame_base.
Qed.

Lemma drawFrame_cells_witness :
  (forall x y, 0 <= x < mazeW sampleMaze -> 0 <= y < mazeH sampleMaze ->
     charAt (drawGrid (drawFrame (AsciiCanvas_new sampleMaze) [2] [0; 1; 2] 1))
            (2 * y + 1) (2 * x + 1)
     = frameChar [2] [0; 1; 2] 1 (cellId x y (mazeW sampleMaze))) /\
  (forall r c, Z.rem r 2 = 0 \/ Z.rem c 2 = 0 ->
     charAt (drawGrid (drawFrame (AsciiCanvas_new sampleMaze) [2] [0; 1; 2] 1)) r c
     = charAt (baseGrid (AsciiCanvas_new sampleMaze)) r c) /\
  baseGrid (drawFrame (AsciiCanvas_new sampleMaze) [2] [0; 1; 2] 1)
  = baseGrid (AsciiCanvas_new sampleMaze).
Proof.
  apply (drawFrame_cells sampleMaze [2] [0; 1; 2] 1); [simpl; lia | simpl; lia | | |].
  - intros v Hv. repeat (apply elem_of_cons in Hv as [-> | Hv]);
      [vm_compute; by split | by apply elem_of_nil in Hv].
  - intros v Hv. repeat (apply elem_of_cons in Hv as [-> | Hv]);
      [vm_compute; by split .. | by apply elem_of_nil in Hv].
  - right. vm_compute. by split.
Defined.

(** X22: what the final frame shows.  The grid [drawFinalPath] prints on
    the canvas of a maze has '*' at the centre of exactly the cells its
    loop marks and a blank at the centre of every other cell; every wall
    position shows what the base grid has there. *)
Theorem final_canvas_marks (m : Maze) (fuel : nat) (par : list Z) (endCell : Z)
    (f : FinalFrame) :
  0 < mazeW m -> 0 < mazeH m ->
  drawFinalPath fuel par endCell = Some f ->
  (forall v, v ∈ marked f -> cellIn m v) ->
  exists cv,
    drawFinalCanvas fuel (AsciiCanvas_new m) par endCell = Some cv /\
    (forall x y, 0 <= x < mazeW m -> 0 <= y < mazeH m ->
       charAt (drawGrid cv) (2 * y + 1) (2 * x + 1) =
         if decide (cellId x y (mazeW m) ∈ marked f) then "*"%char else " "%char) /\
    (forall r c, Z.rem r 2 = 0 \/ Z.rem c 2 = 0 ->
       charAt (drawGrid cv) r c = charAt (baseGrid (AsciiCanvas_new m)) r c).
Proof.
  intros HW HH Hf Hcells.
  destruct (drawFinalCanvas_frame m fuel par endCell f Hf) as (cv & Hrun & _ & Hgrid).
  exists cv. split; [done|]. rewrite Hgrid. split.
  - intros x y Hx Hy.
    rewrite (paint_cells m HW _ _ _ _ _ x y (char_grid_base m HW HH)) by first [lia | done].
    by rewrite (canvas_cell m HW HH) by done.
  - intros r c Heven. by apply (paint_cells_walls m HW).
Qed.

Lemma final_canvas_marks_witness :
  exists cv,
    drawFinalCanvas 7 (AsciiCanvas_new sampleMaze) [-1; 0; 1; -1; -1; 2] 5 = Some cv /\
    (forall x y, 0 <= x < mazeW sampleMaze -> 0 <= y < mazeH sampleMaze ->
       charAt (drawGrid cv) (2 * y + 1) (2 * x + 1) =
         if decide (cellId x y (mazeW sampleMaze) ∈
                    marked (mkFinalFrame "FINAL (exit found) - displaying path" [5; 2; 1; 0]))
         then "*"%char else " "%char) /\
    (forall r c, Z.rem r 2 = 0 \/ Z.rem c 2 = 0 ->
       charAt (drawGrid cv) r c = charAt (baseGrid (AsciiCanvas_new sampleMaze)) r c).
Proof.
  apply (final_canvas_marks sampleMaze 7 [-1; 0; 1; -1; -1; 2] 5
           (mkFinalFrame "FINAL (exit found) - displaying path" [5; 2; 1; 0]));
    [simpl; lia | simpl; lia | reflexivity |].
  intros v Hv. simpl in Hv. repeat (apply elem_of_cons in Hv as [-> | Hv]);
    [vm_compute; by split .. | by apply elem_of_nil in Hv].
Defined.

End CanvasTheorems.

(** ** The speed prompt *)

Lemma delayFor_range s : 1 <= s <= 10 -> 1 <= delayFor s <= 500 /\ delayFor s <> 150.
Proof.
  intros Hs.
  assert (s = 1 \/ s = 2 \/ s = 3 \/ s = 4 \/ s = 5 \/ s = 6 \/ s = 7 \/ s = 8 \/
          s = 9 \/ s = 10) as Hc by lia.
  repeat destruct Hc as [-> | Hc]; try subst s; vm_compute; split; try split; congruence.
Qed.

Lemma delayFor_next s : 1 <= s < 10 -> delayFor (s + 1) < delayFor s.
Proof.
  intros Hs.
  assert (s = 1 \/ s = 2 \/ s = 3 \/ s = 4 \/ s = 5 \/ s = 6 \/ s = 7 \/ s = 8 \/
          s = 9) as Hc by lia.
  repeat destruct Hc as [-> | Hc]; try subst s; vm_compute; done.
Qed.

(** X23: a higher speed means a strictly shorter delay: over the speeds 1
    to 10 the delay the [switch] selects goes strictly down. *)
Theorem faster_is_shorter s s' : 1 <= s -> s < s' -> s' <= 10 -> delayFor s' < delayFor s.
Proof.
  intros Hs Hlt Hs'.
  assert (exists n : nat, s' = s + 1 + Z.of_nat n) as [n ->]
    by (exists (Z.to_nat (s' - s - 1)); lia).
  clear Hlt. induction n as [|n IH].
  - rewrite Z.add_0_r. apply delayFor_next. lia.
  - etrans; [|apply IH; lia].
    replace (s + 1 + Z.of_nat (S n)) with (s + 1 + Z.of_nat n + 1) by lia.
    apply delayFor_next. lia.
Qed.

Lemma faster_is_shorter_witness : delayFor 7 < delayFor 3.
Proof. apply (faster_is_shorter 3 7); lia. Defined.

(** The entries the loop of [promptSpeed] passes over are skipped. *)
Lemma promptSpeed_skip skipped rest :
  (forall e, e ∈ skipped -> e = None \/ exists z, e = Some z /\ (z < 1 \/ 10 < z)) ->
  promptSpeed (skipped ++ rest) = promptSpeed rest.
Proof.
  induction skipped as [|e skipped IH]; intros Hsk; [done|].
  assert (promptSpeed (skipped ++ rest) = promptSpeed rest) as IH'.
  { apply IH. intros e' He'. apply Hsk. by apply list_elem_of_further. }
  destruct (Hsk e (list_elem_of_here _ _)) as [-> | (z & -> & Hz)]; simpl; [done|].
  destruct (Z.geb_spec z 1); destruct (Z.leb_spec z 10); simpl; first [lia | done].
Qed.

Lemma promptSpeed_accept s rest :
  1 <= s <= 10 -> promptSpeed (Some s :: rest) = Some (delayFor s).
Proof.
  intros Hs. simpl. destruct (Z.geb_spec s 1); [|lia]. destruct (Z.leb_spec s 10); [done | lia].
Qed.

(** X24: [promptSpeed] keeps asking until a number from 1 to 10 comes:
    failed extractions and numbers outside 1..10 are passed over, the first
    number in range selects the delay, which lies between 1 and 500
    milliseconds; the [default] of the [switch] (150) is never taken. *)
Theorem promptSpeed_first_valid (skipped rest : list (option Z)) (s : Z) :
  (forall e, e ∈ skipped -> e = None \/ exists z, e = Some z /\ (z < 1 \/ 10 < z)) ->
  1 <= s <= 10 ->
  promptSpeed (skipped ++ Some s :: rest) = Some (delayFor s) /\
  1 <= delayFor s <= 500 /\ delayFor s <> 150.
Proof.
  intros Hsk Hs. split; [|by apply delayFor_range].
  rewrite promptSpeed_skip by done. by apply promptSpeed_accept.
Qed.

Lemma promptSpeed_first_valid_witness :
  promptSpeed ([None; Some 0; Some 11] ++ Some 4 :: [Some 2]) = Some (delayFor 4) /\
  1 <= delayFor 4 <= 500 /\ delayFor 4 <> 150.
Proof.
  apply (promptSpeed_first_valid [None; Some 0; Some 11] [Some 2] 4); [|lia].
  intros e He. repeat (apply elem_of_cons in He as [-> | He]).
  - by left.
  - right. exists 0. split; [reflexivity | lia].
  - right. exists 11. split; [reflexivity | lia].
  - by apply elem_of_nil in He.
Defined.

(** ** Waiting for the terminal *)

(** X25: the wait for the terminal (on a system other than Windows) ends
    with the first check that finds it large enough, [rows + 1] lines of
    [cols] columns at least, after one warning for every check before
    it. *)
Theorem waitTerminal_first_fit (canvas : AsciiCanvas) (skipped rest : list (option (Z * Z)))
    (ws_row ws_col : Z) :
  (forall p, p ∈ skipped ->
     (getTerminalSize false p).1 < rows canvas + 1 \/
     (getTerminalSize false p).2 < cols canvas) ->
  rows canvas + 1 <= ws_row -> cols canvas <= ws_col ->
  waitTerminal false canvas (skipped ++ Some (ws_row, ws_col) :: rest)
  = Some (length skipped).
Proof.
  intros Hsk Hr Hc. induction skipped as [|p skipped IH].
  - simpl. destruct (Z.geb_spec ws_row (rows canvas + 1)); [|lia].
    destruct (Z.geb_spec ws_col (cols canvas)); [done | lia].
  - cbn [app waitTerminal length].
    rewrite IH by (intros q Hq; apply Hsk; by apply list_elem_of_further).
    pose proof (Hsk p (list_elem_of_here _ _)) as Hp.
    destruct (Z.geb_spec (getTerminalSize false p).1 (rows canvas + 1));
      destruct (Z.geb_spec (getTerminalSize false p).2 (cols canvas)); simpl;
      first [lia | done].
Qed.

Lemma waitTerminal_first_fit_witness :
  waitTerminal false (AsciiCanvas_new sampleMaze)
    ([Some (10, 3); Some (5, 80)] ++ Some (6, 7) :: [None])
  = Some (length [Some (10, 3); Some (5, 80)]).
Proof.
  apply (waitTerminal_first_fit (AsciiCanvas_new sampleMaze)
           [Some (10, 3); Some (5, 80)] [None] 6 7);
    [|simpl; lia | simpl; lia].
  intros p Hp. repeat (apply elem_of_cons in Hp as [-> | Hp]).
  - right. simpl. lia.
  - left. simpl. lia.
  - by apply elem_of_nil in Hp.
Defined.

(** X26: without a terminal nothing is ever drawn.  When [ioctl] fails at
    every check, the size is taken to be 24 x 80, so for a maze of 12 rows
    or more, or of 40 columns or more (the 30 x 15 maze of [main] is one),
    the wait for the terminal goes on for as many checks as there are; and
    where the size is the constant 1000 x 1000 the same happens, whatever
    the terminal is, for a maze of 500 rows or columns or more. *)
Theorem no_terminal_no_frame (m : Maze) (win32 : bool) (polls : list (option (Z * Z))) :
  (win32 = false /\ (forall p, p ∈ polls -> p = None) /\
     (12 <= mazeH m \/ 40 <= mazeW m)) \/
  (win32 = true /\ (500 <= mazeH m \/ 500 <= mazeW m)) ->
  waitTerminal win32 (AsciiCanvas_new m) polls = None.
Proof.
  intros Hcase. induction polls as [|p polls IH]; [done|].
  cbn [waitTerminal]. rewrite IH.
  2:{ destruct Hcase as [(Hw & Hp & Hm) | Hcase]; [left | by right].
      split; [done|]. split; [|done]. intros q Hq. by apply Hp, list_elem_of_further. }
  change (rows (AsciiCanvas_new m)) with (2 * mazeH m + 1).
  change (cols (AsciiCanvas_new m)) with (2 * mazeW m + 1).
  destruct Hcase as [(-> & Hp & Hm) | (-> & Hm)].
  - rewrite (Hp p (list_elem_of_here _ _)). cbn [getTerminalSize fst snd].
    destruct (Z.geb_spec 24 (2 * mazeH m + 1 + 1));
      destruct (Z.geb_spec 80 (2 * mazeW m + 1)); simpl; first [lia | done].
  - cbn [getTerminalSize fst snd].
    destruct (Z.geb_spec 1000 (2 * mazeH m + 1 + 1));
      destruct (Z.geb_spec 1000 (2 * mazeW m + 1)); simpl; first [lia | done].
Qed.

Lemma no_terminal_no_frame_witness :
  waitTerminal false
    (AsciiCanvas_new (mkMaze 30 15 (replicate 30 (replicate 15 true))
                                   (replicate 30 (replicate 15 true))))
    [None; None; None] = None.
Proof.
  apply (no_terminal_no_frame
           (mkMaze 30 15 (replicate 30 (replicate 15 true))
                         (replicate 30 (replicate 15 true)))
           false [None; None; None]).
  left. split; [reflexivity|]. split; [|simpl; lia].
  intros p Hp. repeat (apply elem_of_cons in Hp as [-> | Hp]); try reflexivity.
  by apply elem_of_nil in Hp.
Defined.
